(** * specializeAutogradZero: propagation of autograd zeros through a gradient graph

    Shallow embedding of [torch/csrc/jit/passes/specialize_autogradzero.cpp]
    and the properties of the pass stated in its specification. *)

From stdpp Require Import base option list gmap.

#[local] Set Warnings "-clear-no-such-hyp".

(** ** The intermediate representation consumed by the pass *)

(** Modelled from the spec: the containers of the intermediate
    representation (graph, value, node, block) and its types are not among
    the sources at hand; section 3 of the specification describes them. A
    [Value*] is identified by the unique number of the value, a [Node*] by
    the address of the node. *)
Definition Value := positive.
Definition NodeId := positive.

(** Modelled from the spec: the catalogue of operation kinds is not among
    the sources at hand. The node kinds the pass distinguishes, [aten::add]
    which it creates, and the remaining interned symbols. *)
Inductive NodeKind :=
  | prim_GradOf
  | prim_AutogradAdd
  | prim_AutogradZero
  | aten_add
  | other_op (sym : positive).

(** Modelled from the spec: [Node] and [Block] are not among the sources
    at hand; a node is "a tagged operation with an ordered list of input
    values, an ordered list of output values" and owned nested blocks, a
    block "an ordered sequence of nodes plus an ordered list of designated
    output values". *)
Inductive Node :=
  | mkNode (id : NodeId) (k : NodeKind) (ins outs : list Value) (bs : list Block)
with Block :=
  | mkBlock (ns : list Node) (outs : list Value).

Definition node_id (n : Node) : NodeId := let 'mkNode id _ _ _ _ := n in id.
Definition kind (n : Node) : NodeKind := let 'mkNode _ k _ _ _ := n in k.
Definition inputs (n : Node) : list Value := let 'mkNode _ _ ins _ _ := n in ins.
Definition outputs (n : Node) : list Value := let 'mkNode _ _ _ outs _ := n in outs.
Definition blocks (n : Node) : list Block := let 'mkNode _ _ _ _ bs := n in bs.
Definition block_nodes (b : Block) : list Node := let 'mkBlock ns _ := b in ns.
Definition block_outputs (b : Block) : list Value := let 'mkBlock _ outs := b in outs.

(** Modelled from the spec: the type system is not among the sources at
    hand; "for tensor-shaped values, optionally carries a three-valued known
    structurally zero flag". A type is what the pass observes of it: the
    result of [cast<TensorType>()] (with the optional [autogradZero()] flag
    of the tensor type) and of the two [isSubtypeOf] tests. *)
Record TensorType := { autogradZero : option bool }.
Record TypePtr := {
  cast_TensorType : option TensorType;
  isSubtypeOf_Tensor : bool;
  isSubtypeOf_ListOfTensors : bool;
}.

(** Modelled from the spec: [Graph] is not among the sources at hand; "an
    ordered collection of input values and a primary block of nodes". With
    it go the [type()] of a value and the sources of fresh value numbers and
    node addresses. *)
Record Graph := {
  g_inputs : list Value;
  g_type : Value → TypePtr;
  g_block : Block;
  g_next_unique : Value;
  g_next_node : NodeId;
}.

(** ** The classification map *)

(** [enum class State { Nonzero, Zero, Unknown }]: the first enumerator is
    the value-initialised one. *)
Inductive State := Nonzero | Zero | Unknown.

Global Instance State_eq_dec : EqDecision State.
Proof. solve_decision. Defined.

Global Instance NodeKind_eq_dec : EqDecision NodeKind.
Proof. solve_decision. Defined.

Abbreviation StateMap := (gmap Value State).

(** [state[v]] of [std::unordered_map]: a missing key is inserted with the
    value-initialised [State], which is then the result. *)
Definition state_at (state : StateMap) (v : Value) : State * StateMap :=
  match state !! v with
  | Some s => (s, state)
  | None => (Nonzero, <[v := Nonzero]> state)
  end.

(** The classification a read of [v] yields. *)
Definition class_of (state : StateMap) (v : Value) : State := (state_at state v).1.

(** ** Seeding (lines 17-32) *)

Definition seed_state (tp : TypePtr) : State :=
  match cast_TensorType tp with
  | Some tensor =>
      match autogradZero tensor with
      | Some true => Zero
      | _ => Nonzero
      end
  | None =>
      if isSubtypeOf_Tensor tp || isSubtypeOf_ListOfTensors tp then Nonzero
      else Unknown
  end.

Fixpoint seed (type : Value → TypePtr) (ins : list Value) (state : StateMap) : StateMap :=
  match ins with
  | [] => state
  | input :: ins' => seed type ins' (<[input := seed_state (type input)]> state)
  end.

(** ** The scan in progress *)

(** The primary block while the iterator [it] walks it: the nodes before the
    cursor, the node at the cursor followed by the nodes after it, the
    outputs of the block, the sources of fresh identities, and the local
    classification map. *)
Record Scan := {
  before : list Node;
  pending : list Node;
  block_outs : list Value;
  next_unique : Value;
  next_node : NodeId;
  state : StateMap;
}.

Definition set_state (st : StateMap) (c : Scan) : Scan :=
  {| before := before c; pending := pending c; block_outs := block_outs c;
     next_unique := next_unique c; next_node := next_node c; state := st |}.

(** The ways a call can end: normally, by a failed check (the
    [AT_ASSERT] of line 63, or a checked accessor such as [at(i)],
    [input(i)], [output()] on a node without that element), or with the
    iteration budget of the model exhausted. An abnormal end leaves the
    graph as it is at that point. *)
Inductive Abort := AssertFailed | BadAccess.

Inductive Outcome (A : Type) :=
  | Done (a : A)
  | Aborted (why : Abort) (a : A)
  | Unfinished (a : A).
Arguments Done {A} a.
Arguments Aborted {A} why a.
Arguments Unfinished {A} a.

Definition and_then {A} (r : Outcome A) (f : A → Outcome A) : Outcome A :=
  match r with
  | Done a => f a
  | Aborted why a => Aborted why a
  | Unfinished a => Unfinished a
  end.

(** ** Primitives of the intermediate representation *)

Definition subst_value (old new v : Value) : Value :=
  if decide (v = old) then new else v.

(** Rewriting of every use of a value in a node: the uses are the inputs of
    nodes, at any nesting depth, and the designated outputs of blocks. *)
Fixpoint map_uses (f : Value → Value) (n : Node) : Node :=
  match n with
  | mkNode id k ins outs bs => mkNode id k (f <$> ins) outs (map_uses_block f <$> bs)
  end
with map_uses_block (f : Value → Value) (b : Block) : Block :=
  match b with
  | mkBlock ns outs => mkBlock (map_uses f <$> ns) (f <$> outs)
  end.

Definition map_uses_scan (f : Value → Value) (c : Scan) : Scan :=
  {| before := map_uses f <$> before c;
     pending := map_uses f <$> pending c;
     block_outs := f <$> block_outs c;
     next_unique := next_unique c; next_node := next_node c; state := state c |}.

(** Modelled from the spec: [Value::replaceAllUsesWith] is missing from the
    sources at hand; "redirect all uses of a value to another value". *)
Definition replaceAllUsesWith (old new : Value) : Scan → Scan :=
  map_uses_scan (subst_value old new).

(** Modelled from the spec: [Graph::createAutogradZero] followed by
    [insertAfter(n)] is missing from the sources at hand; "construct a new
    node of a given kind with given inputs" and "insert a node at a specific
    position". The new zero-literal node has a fresh address, no input and
    one fresh output; it is placed right after the node at the cursor. *)
Definition createAutogradZero_insertAfter (c : Scan) : Value * Scan :=
  let zero := next_unique c in
  let zn := mkNode (next_node c) prim_AutogradZero [] [zero] [] in
  (zero,
   {| before := before c;
      pending := match pending c with [] => [zn] | n :: ns => n :: zn :: ns end;
      block_outs := block_outs c;
      next_unique := Pos.succ (next_unique c); next_node := Pos.succ (next_node c);
      state := state c |}).

(** Modelled from the spec: the helper [toVar(a) + toVar(b)] under
    [WithInsertPoint guard(n)] is missing from the sources at hand; "a helper
    that, given two already-classified Nonzero values, produces a new value
    representing their ordinary sum". One new plain addition node with a
    fresh output is placed right before the node at the cursor. *)
Definition insert_add_before (a b : Value) (c : Scan) : Value * Scan :=
  let new_add := next_unique c in
  let an := mkNode (next_node c) aten_add [a; b] [new_add] [] in
  (new_add,
   {| before := before c ++ [an]; pending := pending c;
      block_outs := block_outs c;
      next_unique := Pos.succ (next_unique c); next_node := Pos.succ (next_node c);
      state := state c |}).

(** Modelled from the spec: [Node::moveBefore] is missing from the sources at
    hand; "move a node to a new position". The loop of lines 66-69 moves the
    nodes of the body, in order, right before the node at the cursor; the
    body keeps its designated outputs. *)
Definition without_body_nodes (n : Node) : Node :=
  match n with
  | mkNode id k ins outs (mkBlock _ bouts :: bs) => mkNode id k ins outs (mkBlock [] bouts :: bs)
  | _ => n
  end.

Definition hoist_body (body : Block) (c : Scan) : Scan :=
  {| before := before c ++ block_nodes body;
     pending := match pending c with [] => [] | n :: ns => without_body_nodes n :: ns end;
     block_outs := block_outs c;
     next_unique := next_unique c; next_node := next_node c; state := state c |}.

(** Modelled from the spec: [destroyCurrent] of the node-list iterator is
    missing from the sources at hand; "remove a node (and, when it owns one,
    its nested block) from its containing block". With the [++it] of the
    loop the cursor then stands on the node that followed the removed one. *)
Definition destroyCurrent (c : Scan) : Scan :=
  {| before := before c; pending := tail (pending c); block_outs := block_outs c;
     next_unique := next_unique c; next_node := next_node c; state := state c |}.

(** [++it] over a node that stays in place. *)
Definition advance (c : Scan) : Scan :=
  {| before := before c ++ take 1 (pending c); pending := tail (pending c);
     block_outs := block_outs c;
     next_unique := next_unique c; next_node := next_node c; state := state c |}.

(** ** The rules of the scan (lines 34-112) *)

(** [std::all_of(..., state[v] == State::Zero)] stops at the first input
    that is not [Zero]. *)
Fixpoint all_of_Zero (ins : list Value) (st : StateMap) : bool * StateMap :=
  match ins with
  | [] => (true, st)
  | v :: ins' =>
      match state_at st v with
      | (Zero, st') => all_of_Zero ins' st'
      | (_, st') => (false, st')
      end
  end.

(** The loop of lines 58-64: [false] when an [AT_ASSERT] fails. *)
Fixpoint assert_not_Unknown (ins : list Value) (st : StateMap) : bool * StateMap :=
  match ins with
  | [] => (true, st)
  | input :: ins' =>
      match state_at st input with
      | (Unknown, st') => (false, st')
      | (_, st') => assert_not_Unknown ins' st'
      end
  end.

(** The body of the node at the cursor, [n->blocks().at(0)]. *)
Definition current_body (c : Scan) : option Block :=
  n ← head (pending c); blocks n !! 0%nat.

(** The loop of lines 71-72, from index [i] on, over the outputs [outs] of
    the node at the cursor that remain. *)
Fixpoint rewire_outputs (outs : list Value) (i : nat) (c : Scan) : Outcome Scan :=
  match outs with
  | [] => Done c
  | o :: outs' =>
      match body ← current_body c; block_outputs body !! i with
      | Some w => rewire_outputs outs' (S i) (replaceAllUsesWith o w c)
      | None => Aborted BadAccess c
      end
  end.

(** The loop of lines 47-49. *)
Definition replace_outputs_with (zero : Value) (outs : list Value) (c : Scan) : Scan :=
  foldl (λ c o, replaceAllUsesWith o zero c) c outs.

(** [case prim::GradOf] (lines 37-75). *)
Definition rule_GradOf (n : Node) (c : Scan) : Outcome Scan :=
  let '(all_zeros, st) := all_of_Zero (inputs n) (state c) in
  let c := set_state st c in
  if all_zeros then
    let '(zero, c) := createAutogradZero_insertAfter c in
    Done (destroyCurrent (replace_outputs_with zero (outputs n) c))
  else
    match blocks n !! 0%nat with
    | None => Aborted BadAccess c
    | Some body =>
        let '(known, st) := assert_not_Unknown (inputs n) (state c) in
        let c := set_state st c in
        if known then
          and_then (rewire_outputs (outputs n) 0 (hoist_body body c))
                   (λ c, Done (destroyCurrent c))
        else Aborted AssertFailed c
    end.

(** Modelled from the spec: the accessors [n->output()] and [n->input(i)]
    are missing from the sources at hand; a guarded addition is "binary: a,
    b" with one output. [n->output()] is the only output of a node that has
    exactly one; on a node of another shape the accessors, like [at(i)], end
    the call abnormally. *)
Definition output (n : Node) : option Value :=
  match outputs n with
  | [o] => Some o
  | _ => None
  end.

(** [state[a] == State::Nonzero && state[b] == State::Nonzero]: [b] is read
    only when the first test holds. *)
Definition both_Nonzero (a b : Value) (st : StateMap) : bool * StateMap :=
  match state_at st a with
  | (Nonzero, st') =>
      match state_at st' b with
      | (Nonzero, st'') => (true, st'')
      | (_, st'') => (false, st'')
      end
  | (_, st') => (false, st')
  end.

(** [case prim::AutogradAdd] (lines 76-102). *)
Definition rule_AutogradAdd (n : Node) (c : Scan) : Outcome Scan :=
  match inputs n !! 0%nat, inputs n !! 1%nat with
  | Some a, Some b =>
      let '(sa, st) := state_at (state c) a in
      let c := set_state st c in
      match sa with
      | Zero =>
          match output n with
          | Some o => Done (destroyCurrent (replaceAllUsesWith o b c))
          | None => Aborted BadAccess c
          end
      | _ =>
          let '(sb, st) := state_at (state c) b in
          let c := set_state st c in
          match sb with
          | Zero =>
              match output n with
              | Some o => Done (destroyCurrent (replaceAllUsesWith o a c))
              | None => Aborted BadAccess c
              end
          | _ =>
              let '(both, st) := both_Nonzero a b (state c) in
              let c := set_state st c in
              if both then
                let '(new_add, c) := insert_add_before a b c in
                let c := set_state (<[new_add := Nonzero]> (state c)) c in
                match output n with
                | Some o => Done (destroyCurrent (replaceAllUsesWith o new_add c))
                | None => Aborted BadAccess c
                end
              else
                match output n with
                | Some o => Done (advance (set_state (<[o := Unknown]> (state c)) c))
                | None => Aborted BadAccess c
                end
          end
      end
  | _, _ => Aborted BadAccess c
  end.

(** [case prim::AutogradZero] (lines 103-105). *)
Definition rule_AutogradZero (n : Node) (c : Scan) : Outcome Scan :=
  match output n with
  | Some o => Done (advance (set_state (<[o := Zero]> (state c)) c))
  | None => Aborted BadAccess c
  end.

(** [default] (lines 106-110). *)
Definition rule_default (n : Node) (c : Scan) : Outcome Scan :=
  Done (advance (set_state (foldl (λ st o, <[o := Unknown]> st) (state c) (outputs n)) c)).

(** One iteration of the loop of line 34 on the node at the cursor. *)
Definition visit (n : Node) (c : Scan) : Outcome Scan :=
  match kind n with
  | prim_GradOf => rule_GradOf n c
  | prim_AutogradAdd => rule_AutogradAdd n c
  | prim_AutogradZero => rule_AutogradZero n c
  | _ => rule_default n c
  end.

Definition step (c : Scan) : Outcome Scan :=
  match pending c with
  | [] => Done c
  | n :: _ => visit n c
  end.

(** The loop of line 34, with a bound on the number of iterations. *)
Fixpoint scan (fuel : nat) (c : Scan) : Outcome Scan :=
  match pending c with
  | [] => Done c
  | n :: _ =>
      match fuel with
      | O => Unfinished c
      | S fuel' => and_then (visit n c) (scan fuel')
      end
  end.

(** ** The pass *)

Definition start (g : Graph) : Scan :=
  {| before := []; pending := block_nodes (g_block g);
     block_outs := block_outputs (g_block g);
     next_unique := g_next_unique g; next_node := g_next_node g;
     state := seed (g_type g) (g_inputs g) ∅ |}.

Definition graph_of (g : Graph) (c : Scan) : Graph :=
  {| g_inputs := g_inputs g; g_type := g_type g;
     g_block := mkBlock (before c ++ pending c) (block_outs c);
     g_next_unique := next_unique c; g_next_node := next_node c |}.

Definition outcome_graph (g : Graph) (r : Outcome Scan) : Outcome Graph :=
  match r with
  | Done c => Done (graph_of g c)
  | Aborted why c => Aborted why (graph_of g c)
  | Unfinished c => Unfinished (graph_of g c)
  end.

(** A node at the cursor is visited at most twice more often than there are
    nodes: every iteration either moves the cursor on or replaces a
    [prim::GradOf] node by a node of another kind. *)
Definition specializeAutogradZero (g : Graph) : Outcome Graph :=
  outcome_graph g (scan (2 * length (block_nodes (g_block g))) (start g)).

(** ** Vocabulary of the properties *)

(** The classification maps [st] and [st'] differ at most by entries that
    reads of values among [vs] inserted with the default. *)
Definition reads_only (vs : list Value) (st st' : StateMap) : Prop :=
  ∀ v, st' !! v = st !! v ∨ (v ∈ vs ∧ st !! v = None ∧ st' !! v = Some Nonzero).

(** The addresses of a node and of the nodes nested in it. *)
Fixpoint node_ids (n : Node) : list NodeId :=
  match n with
  | mkNode id _ _ _ bs => id :: (bs ≫= block_ids)
  end
with block_ids (b : Block) : list NodeId :=
  match b with
  | mkBlock ns _ => ns ≫= node_ids
  end.

Definition all_ids (c : Scan) : list NodeId :=
  (before c ++ pending c) ≫= node_ids.

(** Distinct addresses, all of them handed out already. *)
Definition ids_ok (c : Scan) : Prop :=
  NoDup (all_ids c) ∧ Forall (λ id, (id < next_node c)%positive) (all_ids c).

(** The values a node uses, at any depth. *)
Fixpoint uses (n : Node) : list Value :=
  match n with
  | mkNode _ _ ins _ bs => ins ++ (bs ≫= block_uses)
  end
with block_uses (b : Block) : list Value :=
  match b with
  | mkBlock ns outs => (ns ≫= uses) ++ outs
  end.

(** The values in use in the primary block: by its nodes, at any depth, and
    as its designated outputs. *)
Definition all_uses (c : Scan) : list Value :=
  ((before c ++ pending c) ≫= uses) ++ block_outs c.

(** The values the nodes of a list define. *)
Definition defs (ns : list Node) : list Value := ns ≫= outputs.

(** The shape the pass relies on for the nodes it rewrites: a
    [prim::GradOf] node owns a body with a designated output for each of its
    outputs, a [prim::AutogradAdd] node has two inputs and one output, a
    [prim::AutogradZero] node has one output. *)
Definition well_shaped (n : Node) : bool :=
  match kind n with
  | prim_GradOf =>
      match blocks n with
      | body :: _ => bool_decide (length (outputs n) ≤ length (block_outputs body))
      | [] => false
      end
  | prim_AutogradAdd =>
      bool_decide (2 ≤ length (inputs n)) && bool_decide (length (outputs n) = 1)
  | prim_AutogradZero => bool_decide (length (outputs n) = 1)
  | _ => true
  end.

(** The simultaneous redirection of the [i]-th value of [outs] to the
    [i]-th value of [bouts]. *)
Fixpoint rewiring (outs bouts : list Value) (v : Value) : Value :=
  match outs, bouts with
  | o :: outs', w :: bouts' => if decide (v = o) then w else rewiring outs' bouts' v
  | _, _ => v
  end.

(** The redirection of each of [outs] to [new]. *)
Definition redirect (outs : list Value) (new : Value) (v : Value) : Value :=
  if decide (v ∈ outs) then new else v.

(** The scans the pass goes through on a graph. *)
Inductive reached (g : Graph) : Scan → Prop :=
  | reached_start : reached g (start g)
  | reached_visit c n ns c' :
      reached g c → pending c = n :: ns → visit n c = Done c' → reached g c'.

(** The values whose classification the dispatch on a node reads. *)
Definition reads (n : Node) : list Value :=
  match kind n with
  | prim_GradOf => inputs n
  | prim_AutogradAdd => take 2 (inputs n)
  | _ => []
  end.

(** Bound on the iterations left: a [prim::GradOf] node at or after the
    cursor may be visited and then the zero node put in its place. *)
Definition iterations_left (ns : list Node) : nat :=
  length ns + length (filter (λ n, kind n = prim_GradOf) ns).

(** Definition order: no node uses, at any depth, a value that it or a later
    node of the list defines. *)
Fixpoint definition_order (ns : list Node) : Prop :=
  match ns with
  | [] => True
  | n :: ns' => Forall (λ v, v ∉ defs (n :: ns')) (uses n) ∧ definition_order ns'
  end.

(** The kinds of node the pass only classifies [Unknown]. *)
Definition plain (n : Node) : Prop :=
  kind n ≠ prim_GradOf ∧ kind n ≠ prim_AutogradAdd ∧ kind n ≠ prim_AutogradZero.

(** A [prim::GradOf] node whose body consists of plain nodes. *)
Definition plain_body (n : Node) : Prop :=
  kind n = prim_GradOf → ∀ body, blocks n !! 0%nat = Some body → Forall plain (block_nodes body).

(** The graphs the amended idempotence is about: nodes in definition
    order, every value that occurs numbered below the source of fresh
    numbers, and conditional regions made of plain nodes. *)
Record gradient_graph (g : Graph) : Prop := {
  gg_order : definition_order (block_nodes (g_block g));
  gg_fresh_uses :
    Forall (λ n, Forall (λ v, (v < g_next_unique g)%positive) (uses n)) (block_nodes (g_block g));
  gg_fresh_defs :
    Forall (λ v, (v < g_next_unique g)%positive) (defs (block_nodes (g_block g)));
  gg_plain : Forall plain_body (block_nodes (g_block g));
}.

(** Structural induction on nodes and their nested blocks. *)
Section Node_induction.
Variables (P : Node → Prop) (Q : Block → Prop).
Hypothesis Hnode : ∀ id k ins outs bs, Forall Q bs → P (mkNode id k ins outs bs).
Hypothesis Hblock : ∀ ns outs, Forall P ns → Q (mkBlock ns outs).

Fixpoint Node_nested_ind (n : Node) : P n :=
  match n with
  | mkNode id k ins outs bs =>
      Hnode id k ins outs bs
        ((fix go (bs : list Block) : Forall Q bs :=
            match bs with
            | [] => Forall_nil_2 Q
            | b :: bs' => Forall_cons_2 Q b bs' (Block_nested_ind b) (go bs')
            end) bs)
  end
with Block_nested_ind (b : Block) : Q b :=
  match b with
  | mkBlock ns outs =>
      Hblock ns outs
        ((fix go (ns : list Node) : Forall P ns :=
            match ns with
            | [] => Forall_nil_2 P
            | n :: ns' => Forall_cons_2 P n ns' (Node_nested_ind n) (go ns')
            end) ns)
  end.
End Node_induction.

(** ** Vocabulary of the second run *)

(** The classifications [st] of a first run and [st'] of a second run agree
    on what the rules act upon: what the first run knows to be [Unknown] the
    second does too, and the second run knows no more zeros. *)
Definition related (st st' : StateMap) : Prop :=
  ∀ v, (class_of st v = Unknown → class_of st' v = Unknown) ∧
       (class_of st' v = Zero → class_of st v = Zero).

(** The scan [c] after a visit that left the node [n] at its cursor in
    place: the cursor has moved on to [ns] and the classification is [st']. *)
Definition moved_on (c : Scan) (n : Node) (ns : list Node) (st' : StateMap) : Scan :=
  {| before := before c ++ [n]; pending := ns; block_outs := block_outs c;
     next_unique := next_unique c; next_node := next_node c; state := st' |}.

(** The scan walks over the nodes [l] from [c] to [c']: it visits them one
    after the other, and each visit leaves the graph as it is (no node
    created, removed or moved, no use redirected). *)
Inductive walks_over : list Node → Scan → Scan → Prop :=
  | walks_over_nil c : walks_over [] c c
  | walks_over_cons n l ns st' c c' :
      pending c = n :: ns →
      visit n c = Done (moved_on c n ns st') →
      walks_over l (moved_on c n ns st') c' →
      walks_over (n :: l) c c'.

(** A scan that starts with the classification [st0] walks over the nodes
    [l], whatever the rest of the graph, and arrives behind them with a
    classification that satisfies [R]. *)
Definition rescan (l : list Node) (st0 : StateMap) (R : StateMap → Prop) : Prop :=
  ∀ bs ns outs nu nn, ∃ st,
    R st ∧
    walks_over l
      {| before := bs; pending := l ++ ns; block_outs := outs;
         next_unique := nu; next_node := nn; state := st0 |}
      {| before := bs ++ l; pending := ns; block_outs := outs;
         next_unique := nu; next_node := nn; state := st |}.

(** The scoping the scan maintains on a gradient graph: the nodes before
    the cursor use no value defined at or after it, the nodes from the
    cursor on are in definition order, every value that occurs is numbered
    below the source of fresh numbers, and the conditional regions still to
    come are made of plain nodes. *)
Record scoped (c : Scan) : Prop := {
  sc_before : Forall (λ m, Forall (λ v, v ∉ defs (pending c)) (uses m)) (before c);
  sc_order : definition_order (pending c);
  sc_fresh_uses :
    Forall (λ m, Forall (λ v, (v < next_unique c)%positive) (uses m)) (before c ++ pending c);
  sc_fresh_defs : Forall (λ v, (v < next_unique c)%positive) (defs (pending c));
  sc_plain : Forall plain_body (pending c);
}.

(** ** Example graphs *)

Section Examples.
Local Open Scope positive_scope.

Definition zero_tensor : TypePtr :=
  {| cast_TensorType := Some {| autogradZero := Some true |};
     isSubtypeOf_Tensor := true; isSubtypeOf_ListOfTensors := false |}.
Definition plain_tensor : TypePtr :=
  {| cast_TensorType := Some {| autogradZero := None |};
     isSubtypeOf_Tensor := true; isSubtypeOf_ListOfTensors := false |}.
Definition int_type : TypePtr :=
  {| cast_TensorType := None;
     isSubtypeOf_Tensor := false; isSubtypeOf_ListOfTensors := false |}.

(** Inputs [%1] (a tensor known to be an autograd zero), [%2] (a tensor)
    and [%3] (an integer). *)
Definition example_type (v : Value) : TypePtr :=
  match v with
  | 1 => zero_tensor
  | 2 => plain_tensor
  | _ => int_type
  end.

Definition example_graph (ns : list Node) (outs : list Value) : Graph :=
  {| g_inputs := [1; 2; 3]; g_type := example_type;
     g_block := mkBlock ns outs;
     g_next_unique := 20; g_next_node := 10 |}.

Definition neg_in_body : Node := mkNode 2 (other_op 1) [2] [11] [].
Definition user_of (id : NodeId) (v out : Value) : Node := mkNode id (other_op 2) [v] [out] [].

(** [%10 = GradOf(%1) { %11 = neg(%2) -> %11 }; %12 = op(%10); return %12, %10] *)
Definition zero_region : Node :=
  mkNode 1 prim_GradOf [1] [10] [mkBlock [neg_in_body] [11]].
Definition zero_region_graph : Graph :=
  example_graph [zero_region; user_of 3 10 12] [12; 10].

(** [%10 = GradOf(%1, %2) { %11 = neg(%2) -> %11 }; %12 = AutogradAdd(%10, %2);
    return %12] *)
Definition live_region : Node :=
  mkNode 1 prim_GradOf [1; 2] [10] [mkBlock [neg_in_body] [11]].
Definition add_of (id : NodeId) (a b out : Value) : Node :=
  mkNode id prim_AutogradAdd [a; b] [out] [].
Definition live_region_graph : Graph :=
  example_graph [live_region; add_of 3 10 2 12] [12].

(** [live_region_graph] after the pass. *)
Definition live_region_result : Graph :=
  {| g_inputs := [1; 2; 3]; g_type := example_type;
     g_block := mkBlock [neg_in_body; mkNode 10 aten_add [11; 2] [20] []] [20];
     g_next_unique := 21; g_next_node := 11 |}.

(** The scan of [live_region_graph] once the region is spliced. *)
Definition scan_after_splice : Scan :=
  {| before := [neg_in_body]; pending := [add_of 3 11 2 12]; block_outs := [12];
     next_unique := 20; next_node := 10;
     state := {[ 1 := Zero; 2 := Nonzero; 3 := Unknown ]} |}.

(** [%10 = GradOf(%3, %2) { %11 = neg(%2) -> %11 }; return %10] *)
Definition unknown_region : Node :=
  mkNode 1 prim_GradOf [3; 2] [10] [mkBlock [neg_in_body] [11]].
Definition unknown_region_graph : Graph := example_graph [unknown_region] [10].

(** [%10 = GradOf() { -> %2 }; return %10] *)
Definition empty_region : Node := mkNode 1 prim_GradOf [] [10] [mkBlock [] [2]].
Definition empty_region_graph : Graph := example_graph [empty_region] [10].

(** [%10 = AutogradAdd(a, b); %12 = op(%10); return %12] *)
Definition add_graph (a b : Value) : Graph :=
  example_graph [add_of 1 a b 10; user_of 3 10 12] [12].

(** [%10 = GradOf(%2) { %11 = AutogradAdd(%2, %2) -> %11 }; return %10], the
    graph after a first run and the graph after a second run. *)
Definition add_in_region_graph : Graph :=
  example_graph
    [mkNode 1 prim_GradOf [2] [10]
       [mkBlock [add_of 2 2 2 11] [11]]]
    [10].
Definition add_in_region_once : Graph :=
  example_graph [add_of 2 2 2 11] [11].
Definition add_in_region_twice : Graph :=
  {| g_inputs := [1; 2; 3]; g_type := example_type;
     g_block := mkBlock [mkNode 10 aten_add [2; 2] [20] []] [20];
     g_next_unique := 21; g_next_node := 11 |}.

End Examples.


(** ** The visits that end normally *)

(** The scans a visit of the node [n] at the cursor of [c], followed by
    [ns], can end in, rule by rule and branch by branch. *)
Inductive visited (c : Scan) (n : Node) (ns : list Node) : Scan → Prop :=
  | visited_collapse :
      kind n = prim_GradOf →
      Forall (λ v, class_of (state c) v = Zero) (inputs n) →
      visited c n ns
        {| before := map_uses (redirect (outputs n) (next_unique c)) <$> before c;
           pending := mkNode (next_node c) prim_AutogradZero [] [next_unique c] []
                      :: (map_uses (redirect (outputs n) (next_unique c)) <$> ns);
           block_outs := redirect (outputs n) (next_unique c) <$> block_outs c;
           next_unique := Pos.succ (next_unique c);
           next_node := Pos.succ (next_node c);
           state := state c |}
  | visited_splice body f st' :
      kind n = prim_GradOf →
      ¬ Forall (λ v, class_of (state c) v = Zero) (inputs n) →
      Forall (λ v, class_of (state c) v ≠ Unknown) (inputs n) →
      blocks n !! 0%nat = Some body →
      length (outputs n) ≤ length (block_outputs body) →
      reads_only (inputs n) (state c) st' →
      (∀ v, v ∉ outputs n → f v = v) →
      (∀ v, f v = v ∨ f v ∈ block_outputs body) →
      (∀ o, o ∈ outputs n → f o ∈ block_outputs body) →
      visited c n ns
        {| before := map_uses f <$> (before c ++ block_nodes body);
           pending := map_uses f <$> ns;
           block_outs := f <$> block_outs c;
           next_unique := next_unique c;
           next_node := next_node c;
           state := st' |}
  | visited_add_left a b o :
      kind n = prim_AutogradAdd →
      inputs n !! 0%nat = Some a → inputs n !! 1%nat = Some b → outputs n = [o] →
      class_of (state c) a = Zero →
      visited c n ns
        {| before := map_uses (subst_value o b) <$> before c;
           pending := map_uses (subst_value o b) <$> ns;
           block_outs := subst_value o b <$> block_outs c;
           next_unique := next_unique c;
           next_node := next_node c;
           state := state c |}
  | visited_add_right a b o st' :
      kind n = prim_AutogradAdd →
      inputs n !! 0%nat = Some a → inputs n !! 1%nat = Some b → outputs n = [o] →
      class_of (state c) a ≠ Zero → class_of (state c) b = Zero →
      reads_only [a] (state c) st' →
      visited c n ns
        {| before := map_uses (subst_value o a) <$> before c;
           pending := map_uses (subst_value o a) <$> ns;
           block_outs := subst_value o a <$> block_outs c;
           next_unique := next_unique c;
           next_node := next_node c;
           state := st' |}
  | visited_add_new a b o st' :
      kind n = prim_AutogradAdd →
      inputs n !! 0%nat = Some a → inputs n !! 1%nat = Some b → outputs n = [o] →
      class_of (state c) a = Nonzero → class_of (state c) b = Nonzero →
      reads_only [a; b] (state c) st' →
      visited c n ns
        {| before := map_uses (subst_value o (next_unique c))
                       <$> (before c ++ [mkNode (next_node c) aten_add [a; b] [next_unique c] []]);
           pending := map_uses (subst_value o (next_unique c)) <$> ns;
           block_outs := subst_value o (next_unique c) <$> block_outs c;
           next_unique := Pos.succ (next_unique c);
           next_node := Pos.succ (next_node c);
           state := <[next_unique c := Nonzero]> st' |}
  | visited_add_kept a b o st' :
      kind n = prim_AutogradAdd →
      inputs n !! 0%nat = Some a → inputs n !! 1%nat = Some b → outputs n = [o] →
      class_of (state c) a ≠ Zero → class_of (state c) b ≠ Zero →
      ¬ (class_of (state c) a = Nonzero ∧ class_of (state c) b = Nonzero) →
      reads_only [a; b] (state c) st' →
      visited c n ns (moved_on c n ns (<[o := Unknown]> st'))
  | visited_zero o :
      kind n = prim_AutogradZero → outputs n = [o] →
      visited c n ns (moved_on c n ns (<[o := Zero]> (state c)))
  | visited_plain :
      plain n →
      visited c n ns
        (moved_on c n ns (foldl (λ st o, <[o := Unknown]> st) (state c) (outputs n))).

(** ** Vocabulary of the properties of whole runs *)

(** A [prim::GradOf] node whose body holds no [prim::GradOf] node. *)
Definition no_region_inside (n : Node) : Prop :=
  kind n = prim_GradOf →
  ∀ body, blocks n !! 0%nat = Some body →
  Forall (λ m, kind m ≠ prim_GradOf) (block_nodes body).

(** [m] is a node of the primary block of [g], or of the body of a
    [prim::GradOf] node of the primary block. *)
Definition node_of (g : Graph) (m : Node) : Prop :=
  m ∈ block_nodes (g_block g) ∨
  ∃ r body, r ∈ block_nodes (g_block g) ∧ kind r = prim_GradOf ∧
            blocks r !! 0%nat = Some body ∧ m ∈ block_nodes body.

(** Where a node [m] found after a run on [g] comes from: it is a node of
    [g] with uses rewritten, and nothing else changed, or it is a node the
    run created, a [prim::AutogradZero] node without inputs or an
    [aten::add] node, with one output and an address [g] had not handed
    out. *)
Definition originates (g : Graph) (m : Node) : Prop :=
  (∃ f m0, node_of g m0 ∧ m = map_uses f m0) ∨
  (∃ id ins o, (g_next_node g ≤ id)%positive ∧
     (m = mkNode id prim_AutogradZero [] [o] [] ∨ m = mkNode id aten_add ins [o] [])).

(** The nodes at and after the cursor: nodes of the primary block with uses
    rewritten, or the zero node a collapse has just put there. *)
Definition awaits (g : Graph) (m : Node) : Prop :=
  (∃ f m0, m0 ∈ block_nodes (g_block g) ∧ m = map_uses f m0) ∨
  (∃ id o, (g_next_node g ≤ id)%positive ∧ m = mkNode id prim_AutogradZero [] [o] []).

(** ** Vocabulary of scoping *)

(** The values a node defines, at any depth: its outputs and the values the
    nodes of its blocks define. *)
Fixpoint deep_defs (n : Node) : list Value :=
  match n with
  | mkNode _ _ _ outs bs => outs ++ (bs ≫= block_deep_defs)
  end
with block_deep_defs (b : Block) : list Value :=
  match b with
  | mkBlock ns _ => ns ≫= deep_defs
  end.

(** Scoping of the uses: with the values [avail] in scope, a node uses
    values in scope only, at any depth. In a block each node brings its
    outputs into the scope of the nodes after it, and the designated outputs
    of the block are in scope at its end. *)
Fixpoint closed_node (avail : list Value) (n : Node) : Prop :=
  match n with
  | mkNode _ _ ins _ bs =>
      Forall (λ v, v ∈ avail) ins ∧
      (fix closed_blocks (bs : list Block) : Prop :=
         match bs with
         | [] => True
         | b :: bs' => closed_block avail b ∧ closed_blocks bs'
         end) bs
  end
with closed_block (avail : list Value) (b : Block) : Prop :=
  match b with
  | mkBlock ns outs =>
      (fix closed_nodes (avail : list Value) (ns : list Node) : Prop :=
         match ns with
         | [] => Forall (λ v, v ∈ avail) outs
         | n :: ns' => closed_node avail n ∧ closed_nodes (avail ++ outputs n) ns'
         end) avail ns
  end.

Fixpoint closed_nodes (avail : list Value) (ns : list Node) (outs : list Value) : Prop :=
  match ns with
  | [] => Forall (λ v, v ∈ avail) outs
  | n :: ns' => closed_node avail n ∧ closed_nodes (avail ++ outputs n) ns' outs
  end.

(** Static single assignment of a node list with designated outputs, under
    the graph inputs [ins] and the source [nu] of fresh value numbers: uses
    are in scope, the inputs and the values the nodes define at any depth
    are distinct values, and all of them are numbered below [nu]. *)
Record ssa_nodes (ins : list Value) (ns : list Node) (outs : list Value) (nu : Value) : Prop := {
  ssa_closed : closed_nodes ins ns outs;
  ssa_unique : NoDup (ins ++ (ns ≫= deep_defs));
  ssa_fresh : Forall (λ v, (v < nu)%positive) (ins ++ (ns ≫= deep_defs));
}.

Definition ssa (g : Graph) : Prop :=
  ssa_nodes (g_inputs g) (block_nodes (g_block g)) (block_outputs (g_block g))
            (g_next_unique g).

(** ** More example graphs *)

Section More_examples.
Local Open Scope positive_scope.

(** [%10 = GradOf(%2)], a region that owns no block. *)
Definition bodiless_region : Node := mkNode 1 prim_GradOf [2] [10] [].
Definition bodiless_region_graph : Graph := example_graph [bodiless_region] [10].

(** [%10, %13 = GradOf(%2) { %11 = neg(%2) -> %11 }; return %10], a region
    with more outputs than its body designates. *)
Definition short_region : Node :=
  mkNode 1 prim_GradOf [2] [10; 13] [mkBlock [neg_in_body] [11]].
Definition short_region_graph : Graph := example_graph [short_region] [10].

(** [%12 = op(%2); %13 = AutogradZero(); return %12] *)
Definition zero_literal : Node := mkNode 2 prim_AutogradZero [] [13] [].
Definition plain_graph : Graph := example_graph [user_of 1 2 12; zero_literal] [12].

(** [%10, %13 = AutogradAdd(%2, %2); return %10], a guarded addition with
    two outputs. *)
Definition add_two_outputs : Node := mkNode 1 prim_AutogradAdd [2; 2] [10; 13] [].
Definition add_two_outputs_graph : Graph := example_graph [add_two_outputs] [10].

(** The nodes of [live_region_graph] on the inputs [%1] and [%2] alone. *)
Definition known_graph : Graph :=
  {| g_inputs := [1; 2]; g_type := example_type;
     g_block := mkBlock [live_region; add_of 3 10 2 12] [12];
     g_next_unique := 20; g_next_node := 10 |}.

End More_examples.

(** * Proofs *)

(** ** Reads of the classification map *)

Lemma state_at_Some (st : StateMap) v s : st !! v = Some s → state_at st v = (s, st).
Proof. intros H. unfold state_at. by rewrite H. Qed.

Lemma state_at_None (st : StateMap) v :
  st !! v = None → state_at st v = (Nonzero, <[v := Nonzero]> st).
Proof. intros H. unfold state_at. by rewrite H. Qed.

Lemma class_of_lookup (st : StateMap) v : class_of st v = default Nonzero (st !! v).
Proof. unfold class_of, state_at. by destruct (st !! v). Qed.

Lemma reads_only_refl vs (st : StateMap) : reads_only vs st st.
Proof. intros v. by left. Qed.

Lemma reads_only_trans vs (st1 st2 st3 : StateMap) :
  reads_only vs st1 st2 → reads_only vs st2 st3 → reads_only vs st1 st3.
Proof.
  intros H12 H23 v. destruct (H12 v) as [E1|(Hv & N1 & S1)], (H23 v) as [E2|(Hv' & N2 & S2)].
  - left. congruence.
  - right. split_and!; congruence.
  - right. split_and!; congruence.
  - congruence.
Qed.

Lemma reads_only_mono vs ws (st st' : StateMap) :
  vs ⊆ ws → reads_only vs st st' → reads_only ws st st'.
Proof. intros Hsub H v. destruct (H v) as [?|(? & ? & ?)]; [by left|right; auto]. Qed.

Lemma reads_only_class vs (st st' : StateMap) v :
  reads_only vs st st' → class_of st' v = class_of st v.
Proof.
  intros H. rewrite !class_of_lookup.
  destruct (H v) as [->|(_ & -> & ->)]; done.
Qed.

Lemma state_at_reads (st : StateMap) v :
  (state_at st v).1 = class_of st v ∧ reads_only [v] st (state_at st v).2.
Proof.
  split; [done|]. unfold state_at. destruct (st !! v) as [s|] eqn:E; simpl.
  - apply reads_only_refl.
  - intros u. destruct (decide (u = v)) as [->|Hne].
    + right. rewrite lookup_insert_eq. split_and!; [set_solver|done..].
    + left. by rewrite lookup_insert_ne.
Qed.

Lemma state_at_pair (st : StateMap) v :
  ∃ st', state_at st v = (class_of st v, st') ∧ reads_only [v] st st'.
Proof.
  destruct (state_at_reads st v) as [H1 H2].
  exists (state_at st v).2. split; [|done].
  rewrite <- H1. by destruct (state_at st v).
Qed.

Lemma all_of_Zero_spec ins (st : StateMap) :
  ∃ st', all_of_Zero ins st = (bool_decide (Forall (λ v, class_of st v = Zero) ins), st')
         ∧ reads_only ins st st'.
Proof.
  revert st. induction ins as [|v ins IH]; intros st; cbn [all_of_Zero].
  - exists st. split; [|apply reads_only_refl]. by rewrite bool_decide_eq_true_2.
  - destruct (state_at_pair st v) as (st1 & -> & Hr).
    destruct (class_of st v) eqn:Hc.
    + exists st1. split; [|eapply reads_only_mono; [|done]; set_solver].
      rewrite bool_decide_eq_false_2; [done|]. intros HF. inversion HF; congruence.
    + destruct (IH st1) as (st2 & -> & Hr2). exists st2. split.
      * f_equal. apply bool_decide_ext. rewrite Forall_cons. split.
        -- intros HF. split; [done|]. eapply Forall_impl; [done|].
           intros u. simpl. by rewrite (reads_only_class _ _ _ _ Hr).
        -- intros [_ HF]. eapply Forall_impl; [done|].
           intros u. simpl. by rewrite (reads_only_class _ _ _ _ Hr).
      * eapply reads_only_trans.
        -- eapply reads_only_mono; [|exact Hr]. set_solver.
        -- eapply reads_only_mono; [|exact Hr2]. set_solver.
    + exists st1. split; [|eapply reads_only_mono; [|done]; set_solver].
      rewrite bool_decide_eq_false_2; [done|]. intros HF. inversion HF; congruence.
Qed.

Lemma all_of_Zero_true ins (st : StateMap) :
  Forall (λ v, class_of st v = Zero) ins → all_of_Zero ins st = (true, st).
Proof.
  induction 1 as [|v ins Hv _ IH]; simpl; [done|].
  rewrite class_of_lookup in Hv. unfold state_at.
  destruct (st !! v) as [s|]; simpl in Hv; [|done]. by subst.
Qed.

Lemma assert_not_Unknown_spec ins (st : StateMap) :
  ∃ st', assert_not_Unknown ins st
           = (bool_decide (Forall (λ v, class_of st v ≠ Unknown) ins), st')
         ∧ reads_only ins st st'.
Proof.
  revert st. induction ins as [|v ins IH]; intros st; cbn [assert_not_Unknown].
  - exists st. split; [|apply reads_only_refl]. by rewrite bool_decide_eq_true_2.
  - destruct (state_at_pair st v) as (st1 & -> & Hr).
    assert (Hstep : ∃ st2,
      assert_not_Unknown ins st1 = (bool_decide (Forall (λ v, class_of st v ≠ Unknown) ins), st2)
      ∧ reads_only (v :: ins) st st2).
    { destruct (IH st1) as (st2 & -> & Hr2). exists st2. split.
      - f_equal. apply bool_decide_ext. apply Forall_proper; [|done].
        intros u. by rewrite (reads_only_class _ _ _ _ Hr).
      - eapply reads_only_trans.
        + eapply reads_only_mono; [|exact Hr]. set_solver.
        + eapply reads_only_mono; [|exact Hr2]. set_solver. }
    destruct (class_of st v) eqn:Hc.
    + destruct Hstep as (st2 & -> & Hr2). exists st2. split; [|done].
      f_equal. apply bool_decide_ext. rewrite Forall_cons. rewrite Hc. naive_solver.
    + destruct Hstep as (st2 & -> & Hr2). exists st2. split; [|done].
      f_equal. apply bool_decide_ext. rewrite Forall_cons. rewrite Hc. naive_solver.
    + exists st1. split; [|eapply reads_only_mono; [|done]; set_solver].
      rewrite bool_decide_eq_false_2; [done|]. intros HF. inversion HF; congruence.
Qed.

Lemma both_Nonzero_spec a b (st : StateMap) :
  ∃ st', both_Nonzero a b st
           = (bool_decide (class_of st a = Nonzero ∧ class_of st b = Nonzero), st')
         ∧ reads_only [a; b] st st'.
Proof.
  unfold both_Nonzero.
  destruct (state_at_pair st a) as (st1 & -> & Hr1).
  destruct (state_at_pair st1 b) as (st2 & Hb & Hr2).
  rewrite (reads_only_class _ _ _ _ Hr1) in Hb.
  assert (reads_only [a; b] st st1) by (eapply reads_only_mono; [|done]; set_solver).
  assert (reads_only [a; b] st st2).
  { eapply reads_only_trans; [done|]. eapply reads_only_mono; [|done]. set_solver. }
  destruct (class_of st a) eqn:Ha.
  - rewrite Hb. destruct (class_of st b) eqn:Hcb; exists st2; (split; [|done]).
    + by rewrite bool_decide_eq_true_2.
    + rewrite bool_decide_eq_false_2; naive_solver.
    + rewrite bool_decide_eq_false_2; naive_solver.
  - exists st1. split; [|done]. rewrite bool_decide_eq_false_2; naive_solver.
  - exists st1. split; [|done]. rewrite bool_decide_eq_false_2; naive_solver.
Qed.

(** ** Seeding *)

Lemma seed_other type ins (st : StateMap) v :
  v ∉ ins → seed type ins st !! v = st !! v.
Proof.
  revert st. induction ins as [|i ins IH]; intros st Hv; simpl; [done|].
  rewrite IH by set_solver. apply lookup_insert_ne. set_solver.
Qed.

Lemma seed_input type ins (st : StateMap) v :
  v ∈ ins → seed type ins st !! v = Some (seed_state (type v)).
Proof.
  revert st. induction ins as [|i ins IH]; intros st Hv; simpl; [set_solver|].
  destruct (decide (v ∈ ins)) as [Hin|Hin]; [by apply IH|].
  assert (v = i) as -> by set_solver.
  rewrite seed_other by done. apply lookup_insert_eq.
Qed.

(** ** Rewriting of uses *)

Lemma map_uses_ext_in f g n :
  (∀ v, v ∈ uses n → f v = g v) → map_uses f n = map_uses g n.
Proof.
  revert n. apply (Node_nested_ind
    (λ n, (∀ v, v ∈ uses n → f v = g v) → map_uses f n = map_uses g n)
    (λ b, (∀ v, v ∈ block_uses b → f v = g v) → map_uses_block f b = map_uses_block g b)).
  - intros id k ins outs bs IH H. cbn [map_uses]. f_equal.
    + apply list_fmap_ext. intros i v Hv. apply H. cbn [uses].
      apply elem_of_app. left. by eapply list_elem_of_lookup_2.
    + apply Forall_fmap_ext_1. rewrite Forall_forall in IH |- *.
      intros b Hb. apply IH; [done|]. intros v Hv. apply H. cbn [uses].
      apply elem_of_app. right. apply list_elem_of_bind. eauto.
  - intros ns outs IH H. cbn [map_uses_block]. f_equal.
    + apply Forall_fmap_ext_1. rewrite Forall_forall in IH |- *.
      intros n Hn. apply IH; [done|]. intros v Hv. apply H. cbn [block_uses].
      apply elem_of_app. left. apply list_elem_of_bind. eauto.
    + apply list_fmap_ext. intros i v Hv. apply H. cbn [block_uses].
      apply elem_of_app. right. by eapply list_elem_of_lookup_2.
Qed.

Lemma map_uses_ext f g n : (∀ v, f v = g v) → map_uses f n = map_uses g n.
Proof. intros H. apply map_uses_ext_in. auto. Qed.

Lemma map_uses_compose f g n : map_uses f (map_uses g n) = map_uses (f ∘ g) n.
Proof.
  revert n. apply (Node_nested_ind
    (λ n, map_uses f (map_uses g n) = map_uses (f ∘ g) n)
    (λ b, map_uses_block f (map_uses_block g b) = map_uses_block (f ∘ g) b)).
  - intros id k ins outs bs IH. cbn [map_uses]. f_equal.
    + by rewrite <- list_fmap_compose.
    + rewrite <- list_fmap_compose. by apply Forall_fmap_ext_1.
  - intros ns outs IH. cbn [map_uses_block]. f_equal.
    + rewrite <- list_fmap_compose. by apply Forall_fmap_ext_1.
    + by rewrite <- list_fmap_compose.
Qed.

Lemma map_uses_id_in f n : (∀ v, v ∈ uses n → f v = v) → map_uses f n = n.
Proof.
  intros H. rewrite (map_uses_ext_in f id) by done. clear H. revert n.
  apply (Node_nested_ind (λ n, map_uses id n = n) (λ b, map_uses_block id b = b)).
  - intros id' k ins outs bs IH. cbn [map_uses]. f_equal; [apply list_fmap_id|].
    induction IH as [|b bs Hb _ IH']; [done|]. cbn. by rewrite Hb, IH'.
  - intros ns outs IH. cbn [map_uses_block]. f_equal; [|apply list_fmap_id].
    induction IH as [|b bs Hb _ IH']; [done|]. cbn. by rewrite Hb, IH'.
Qed.

Lemma map_uses_list_id_in f (ns : list Node) :
  Forall (λ n, Forall (λ v, f v = v) (uses n)) ns → map_uses f <$> ns = ns.
Proof.
  induction 1 as [|n ns Hn _ IH]; [done|]. cbn. rewrite IH. f_equal.
  apply map_uses_id_in. by apply Forall_forall.
Qed.

Lemma kind_map_uses f n : kind (map_uses f n) = kind n.
Proof. by destruct n. Qed.

Lemma outputs_map_uses f n : outputs (map_uses f n) = outputs n.
Proof. by destruct n. Qed.

Lemma inputs_map_uses f n : inputs (map_uses f n) = f <$> inputs n.
Proof. by destruct n. Qed.

Lemma node_id_map_uses f n : node_id (map_uses f n) = node_id n.
Proof. by destruct n. Qed.

Lemma blocks_map_uses f n : blocks (map_uses f n) = map_uses_block f <$> blocks n.
Proof. by destruct n. Qed.

Lemma block_outputs_map_uses f b : block_outputs (map_uses_block f b) = f <$> block_outputs b.
Proof. by destruct b. Qed.

Lemma block_nodes_map_uses f b : block_nodes (map_uses_block f b) = map_uses f <$> block_nodes b.
Proof. by destruct b. Qed.

Lemma uses_map_uses f n : uses (map_uses f n) = f <$> uses n.
Proof.
  revert n. apply (Node_nested_ind
    (λ n, uses (map_uses f n) = f <$> uses n)
    (λ b, block_uses (map_uses_block f b) = f <$> block_uses b)).
  - intros id k ins outs bs IH. cbn [map_uses uses]. rewrite fmap_app. f_equal.
    induction IH as [|b bs Hb _ IH']; [done|].
    cbn [fmap list_fmap]. rewrite !bind_cons, fmap_app. by rewrite Hb, IH'.
  - intros ns outs IH. cbn [map_uses_block block_uses]. rewrite fmap_app. f_equal.
    induction IH as [|n ns Hn _ IH']; [done|].
    cbn [fmap list_fmap]. rewrite !bind_cons, fmap_app. by rewrite Hn, IH'.
Qed.

Lemma node_ids_map_uses f n : node_ids (map_uses f n) = node_ids n.
Proof.
  revert n. apply (Node_nested_ind
    (λ n, node_ids (map_uses f n) = node_ids n)
    (λ b, block_ids (map_uses_block f b) = block_ids b)).
  - intros id k ins outs bs IH. cbn [map_uses node_ids]. f_equal.
    induction IH as [|b bs Hb _ IH']; [done|].
    cbn [fmap list_fmap]. rewrite !bind_cons. by rewrite Hb, IH'.
  - intros ns outs IH. cbn [map_uses_block block_ids].
    induction IH as [|n ns Hn _ IH']; [done|].
    cbn [fmap list_fmap]. rewrite !bind_cons. by rewrite Hn, IH'.
Qed.

Lemma node_ids_map_uses_list f (ns : list Node) :
  (map_uses f <$> ns) ≫= node_ids = ns ≫= node_ids.
Proof.
  rewrite list_fmap_bind. apply list_bind_ext; [|done].
  intros n. cbn. apply node_ids_map_uses.
Qed.

Lemma defs_map_uses f (ns : list Node) : defs (map_uses f <$> ns) = defs ns.
Proof.
  unfold defs. rewrite list_fmap_bind. apply list_bind_ext; [|done].
  intros n. cbn. apply outputs_map_uses.
Qed.

Lemma map_uses_scan_compose f g c :
  map_uses_scan f (map_uses_scan g c) = map_uses_scan (f ∘ g) c.
Proof.
  unfold map_uses_scan. cbn. f_equal.
  - rewrite <- list_fmap_compose. apply list_fmap_ext. intros ???. apply map_uses_compose.
  - rewrite <- list_fmap_compose. apply list_fmap_ext. intros ???. apply map_uses_compose.
  - by rewrite <- list_fmap_compose.
Qed.

Lemma map_uses_scan_ext f g c : (∀ v, f v = g v) → map_uses_scan f c = map_uses_scan g c.
Proof.
  intros H. unfold map_uses_scan. f_equal.
  - apply list_fmap_ext. intros ???. by apply map_uses_ext.
  - apply list_fmap_ext. intros ???. by apply map_uses_ext.
  - apply list_fmap_ext. intros ???. apply H.
Qed.

Lemma map_uses_scan_id c : map_uses_scan id c = c.
Proof.
  destruct c as [bs ps outs nu nn st]. unfold map_uses_scan. cbn. f_equal.
  - rewrite <- (list_fmap_id bs) at 2. apply list_fmap_ext. intros ???.
    by apply map_uses_id_in.
  - rewrite <- (list_fmap_id ps) at 2. apply list_fmap_ext. intros ???.
    by apply map_uses_id_in.
  - apply list_fmap_id.
Qed.

(** ** Redirections *)

Lemma redirect_cons o outs new v :
  redirect (o :: outs) new v = redirect outs new (subst_value o new v).
Proof.
  unfold redirect, subst_value. repeat case_decide; set_solver.
Qed.

Lemma replace_outputs_with_redirect zero outs c :
  replace_outputs_with zero outs c = map_uses_scan (redirect outs zero) c.
Proof.
  unfold replace_outputs_with. revert c. induction outs as [|o outs IH]; intros c.
  - cbn. rewrite <- (map_uses_scan_id c) at 1. apply map_uses_scan_ext.
    intros v. unfold redirect. case_decide; set_solver.
  - cbn [foldl]. rewrite IH. unfold replaceAllUsesWith. rewrite map_uses_scan_compose.
    apply map_uses_scan_ext. intros v. cbn. by rewrite redirect_cons.
Qed.

Lemma rewiring_other outs bouts v : v ∉ outs → rewiring outs bouts v = v.
Proof.
  revert bouts. induction outs as [|o outs IH]; intros [|w bouts] Hv; cbn; try done.
  case_decide; [set_solver|]. apply IH. set_solver.
Qed.

Lemma rewiring_lookup outs bouts i o w :
  NoDup outs → outs !! i = Some o → bouts !! i = Some w → rewiring outs bouts o = w.
Proof.
  revert bouts i. induction outs as [|o' outs IH]; intros [|w' bouts] [|i] Hnd Ho Hw;
    simplify_eq/=; try done.
  - by rewrite decide_True.
  - apply NoDup_cons in Hnd as [Hnotin Hnd].
    rewrite decide_False; [by eapply IH|].
    intros ->. apply Hnotin. by eapply list_elem_of_lookup_2.
Qed.

Lemma rewire_outputs_rewiring outs : ∀ i c n ns body,
  pending c = n :: ns →
  blocks n !! 0%nat = Some body →
  length outs ≤ length (drop i (block_outputs body)) →
  (∀ o, o ∈ outs → o ∉ drop i (block_outputs body)) →
  rewire_outputs outs i c
    = Done (map_uses_scan (rewiring outs (drop i (block_outputs body))) c).
Proof.
  induction outs as [|o outs IH]; intros i c n ns body Hp Hb Hlen Hdisj.
  - cbn. f_equal. rewrite <- (map_uses_scan_id c) at 1. by apply map_uses_scan_ext.
  - cbn [rewire_outputs]. unfold current_body. rewrite Hp. cbn. rewrite Hb. cbn.
    destruct (drop i (block_outputs body)) as [|w ws] eqn:Hdrop; [cbn in Hlen; lia|].
    assert (Hw : block_outputs body !! i = Some w).
    { rewrite <- (Nat.add_0_r i). rewrite <- lookup_drop. by rewrite Hdrop. }
    assert (Hws : drop (S i) (block_outputs body) = ws).
    { rewrite <- (Nat.add_1_r i). rewrite <- drop_drop. by rewrite Hdrop. }
    rewrite Hw.
    assert (Hfix : subst_value o w <$> ws = ws).
    { rewrite <- (list_fmap_id ws) at 2. apply list_fmap_ext. intros j u Hu.
      unfold subst_value. case_decide; [|done]. subst u. exfalso.
      apply (Hdisj o); [set_solver|]. right. by eapply list_elem_of_lookup_2. }
    erewrite (IH (S i) (replaceAllUsesWith o w c) (map_uses (subst_value o w) n)
               (map_uses (subst_value o w) <$> ns) (map_uses_block (subst_value o w) body)).
    + f_equal. unfold replaceAllUsesWith. rewrite map_uses_scan_compose.
      rewrite block_outputs_map_uses, <- fmap_drop, Hws, Hfix.
      apply map_uses_scan_ext. intros v. cbn. unfold subst_value.
      case_decide as Hv; [|done]. apply rewiring_other.
      intros Hin. apply (Hdisj w); [set_solver|]. by left.
    + unfold replaceAllUsesWith, map_uses_scan. cbn. by rewrite Hp.
    + rewrite blocks_map_uses, list_lookup_fmap, Hb. done.
    + rewrite block_outputs_map_uses, <- fmap_drop, Hws, Hfix. cbn in Hlen. lia.
    + rewrite block_outputs_map_uses, <- fmap_drop, Hws, Hfix.
      intros o' Ho' Hin. apply (Hdisj o'); [set_solver|]. by right.
Qed.

(** ** What each rule does to the scan *)

Lemma visit_GradOf_all_Zero n c ns :
  pending c = n :: ns → kind n = prim_GradOf →
  Forall (λ v, class_of (state c) v = Zero) (inputs n) →
  visit n c = Done
    {| before := map_uses (redirect (outputs n) (next_unique c)) <$> before c;
       pending := mkNode (next_node c) prim_AutogradZero [] [next_unique c] []
                  :: (map_uses (redirect (outputs n) (next_unique c)) <$> ns);
       block_outs := redirect (outputs n) (next_unique c) <$> block_outs c;
       next_unique := Pos.succ (next_unique c);
       next_node := Pos.succ (next_node c);
       state := state c |}.
Proof.
  intros Hp Hk Hz. unfold visit. rewrite Hk. unfold rule_GradOf.
  rewrite (all_of_Zero_true _ _ Hz). cbn.
  rewrite replace_outputs_with_redirect. by rewrite Hp.
Qed.

Lemma visit_GradOf_not_all_Zero n c :
  kind n = prim_GradOf →
  ¬ Forall (λ v, class_of (state c) v = Zero) (inputs n) →
  ∃ st1 st2, reads_only (inputs n) (state c) st1 ∧ reads_only (inputs n) (state c) st2 ∧
    visit n c =
      match blocks n !! 0%nat with
      | None => Aborted BadAccess (set_state st1 c)
      | Some body =>
          if bool_decide (Forall (λ v, class_of (state c) v ≠ Unknown) (inputs n)) then
            and_then (rewire_outputs (outputs n) 0 (hoist_body body (set_state st2 c)))
                     (λ c, Done (destroyCurrent c))
          else Aborted AssertFailed (set_state st2 c)
      end.
Proof.
  intros Hk Hnz. unfold visit. rewrite Hk. unfold rule_GradOf.
  destruct (all_of_Zero_spec (inputs n) (state c)) as (st1 & -> & Hr1).
  rewrite bool_decide_eq_false_2 by done. cbn [state set_state].
  destruct (assert_not_Unknown_spec (inputs n) st1) as (st2 & E2 & Hr2).
  exists st1, st2. split_and!; [done|by eapply reads_only_trans|].
  destruct (blocks n !! 0%nat) as [body|]; [|done]. rewrite E2.
  assert (Hiff : bool_decide (Forall (λ v, class_of st1 v ≠ Unknown) (inputs n))
               = bool_decide (Forall (λ v, class_of (state c) v ≠ Unknown) (inputs n))).
  { apply bool_decide_ext. apply Forall_proper; [|done].
    intros v. by rewrite (reads_only_class _ _ _ _ Hr1). }
  rewrite Hiff. by case_bool_decide.
Qed.

Lemma visit_GradOf_splice n c ns body :
  pending c = n :: ns → kind n = prim_GradOf →
  ¬ Forall (λ v, class_of (state c) v = Zero) (inputs n) →
  Forall (λ v, class_of (state c) v ≠ Unknown) (inputs n) →
  blocks n !! 0%nat = Some body →
  length (outputs n) ≤ length (block_outputs body) →
  (∀ o, o ∈ outputs n → o ∉ block_outputs body) →
  ∃ st', reads_only (inputs n) (state c) st' ∧
    visit n c = Done
      {| before := map_uses (rewiring (outputs n) (block_outputs body))
                     <$> (before c ++ block_nodes body);
         pending := map_uses (rewiring (outputs n) (block_outputs body)) <$> ns;
         block_outs := rewiring (outputs n) (block_outputs body) <$> block_outs c;
         next_unique := next_unique c;
         next_node := next_node c;
         state := st' |}.
Proof.
  intros Hp Hk Hnz Hkn Hb Hlen Hdisj.
  destruct (visit_GradOf_not_all_Zero n c Hk Hnz) as (st1 & st2 & _ & Hr2 & ->).
  rewrite Hb, bool_decide_eq_true_2 by done.
  exists st2. split; [done|].
  destruct n as [id k ins outs bs]. cbn in *.
  destruct bs as [|b bs]; simplify_eq/=. destruct body as [bns bouts]. cbn in *.
  rewrite (rewire_outputs_rewiring outs 0 _
             (mkNode id prim_GradOf ins outs (mkBlock [] bouts :: bs)) ns
             (mkBlock [] bouts)); cbn; try done.
  - unfold hoist_body, map_uses_scan, destroyCurrent. cbn. by rewrite Hp.
  - by rewrite Hp.
Qed.

Lemma visit_GradOf_Unknown n c :
  kind n = prim_GradOf →
  ¬ Forall (λ v, class_of (state c) v = Zero) (inputs n) →
  ¬ Forall (λ v, class_of (state c) v ≠ Unknown) (inputs n) →
  is_Some (blocks n !! 0%nat) →
  ∃ st', visit n c = Aborted AssertFailed (set_state st' c).
Proof.
  intros Hk Hnz Hkn [body Hb].
  destruct (visit_GradOf_not_all_Zero n c Hk Hnz) as (st1 & st2 & _ & Hr2 & ->).
  rewrite Hb, bool_decide_eq_false_2 by done. by exists st2.
Qed.

Lemma visit_AutogradAdd_no_input n c :
  kind n = prim_AutogradAdd →
  inputs n !! 0%nat = None ∨ inputs n !! 1%nat = None →
  visit n c = Aborted BadAccess c.
Proof.
  intros Hk H. unfold visit. rewrite Hk. unfold rule_AutogradAdd.
  destruct H as [-> | ->]; [done|]. by destruct (inputs n !! 0%nat).
Qed.

Lemma visit_AutogradAdd_left n c a b :
  kind n = prim_AutogradAdd →
  inputs n !! 0%nat = Some a → inputs n !! 1%nat = Some b →
  class_of (state c) a = Zero →
  visit n c =
    match output n with
    | Some o => Done (destroyCurrent (replaceAllUsesWith o b c))
    | None => Aborted BadAccess c
    end.
Proof.
  intros Hk Ha Hb Hz. unfold visit. rewrite Hk. unfold rule_AutogradAdd.
  rewrite Ha, Hb. rewrite class_of_lookup in Hz. unfold state_at.
  destruct (state c !! a) as [s|] eqn:E; cbn in Hz; [|done]. subst s.
  by destruct c.
Qed.

Lemma visit_AutogradAdd_right n c a b :
  kind n = prim_AutogradAdd →
  inputs n !! 0%nat = Some a → inputs n !! 1%nat = Some b →
  class_of (state c) a ≠ Zero → class_of (state c) b = Zero →
  ∃ st', reads_only [a] (state c) st' ∧
    visit n c =
      match output n with
      | Some o => Done (destroyCurrent (replaceAllUsesWith o a (set_state st' c)))
      | None => Aborted BadAccess (set_state st' c)
      end.
Proof.
  intros Hk Ha Hb Hnz Hz. unfold visit. rewrite Hk. unfold rule_AutogradAdd.
  rewrite Ha, Hb.
  destruct (state_at_pair (state c) a) as (st1 & -> & Hr1).
  assert (Hz1 : class_of st1 b = Zero) by by rewrite (reads_only_class _ _ _ _ Hr1).
  exists st1. split; [done|].
  assert (Hst : state_at st1 b = (Zero, st1)).
  { rewrite class_of_lookup in Hz1. unfold state_at.
    destruct (st1 !! b) as [s|] eqn:E; cbn in Hz1; [|done]. by subst s. }
  destruct (class_of (state c) a) eqn:Hca; [| done |];
    cbn [state set_state]; rewrite Hst; by destruct c.
Qed.

Lemma visit_AutogradAdd_left_Zero n c ns a b o :
  pending c = n :: ns → kind n = prim_AutogradAdd →
  inputs n !! 0%nat = Some a → inputs n !! 1%nat = Some b → output n = Some o →
  class_of (state c) a = Zero →
  visit n c = Done
    {| before := map_uses (subst_value o b) <$> before c;
       pending := map_uses (subst_value o b) <$> ns;
       block_outs := subst_value o b <$> block_outs c;
       next_unique := next_unique c;
       next_node := next_node c;
       state := state c |}.
Proof.
  intros Hp Hk Ha Hb Ho Hz. rewrite (visit_AutogradAdd_left n c a b) by done.
  rewrite Ho. unfold replaceAllUsesWith, map_uses_scan, destroyCurrent. cbn.
  by rewrite Hp.
Qed.

Lemma visit_AutogradAdd_right_Zero n c ns a b o :
  pending c = n :: ns → kind n = prim_AutogradAdd →
  inputs n !! 0%nat = Some a → inputs n !! 1%nat = Some b → output n = Some o →
  class_of (state c) a ≠ Zero → class_of (state c) b = Zero →
  ∃ st', reads_only [a] (state c) st' ∧
    visit n c = Done
      {| before := map_uses (subst_value o a) <$> before c;
         pending := map_uses (subst_value o a) <$> ns;
         block_outs := subst_value o a <$> block_outs c;
         next_unique := next_unique c;
         next_node := next_node c;
         state := st' |}.
Proof.
  intros Hp Hk Ha Hb Ho Hnz Hz.
  destruct (visit_AutogradAdd_right n c a b) as (st' & Hr & ->); try done.
  exists st'. split; [done|].
  rewrite Ho. unfold replaceAllUsesWith, map_uses_scan, destroyCurrent. cbn.
  by rewrite Hp.
Qed.

Lemma visit_AutogradAdd_reads n c a b :
  kind n = prim_AutogradAdd →
  inputs n !! 0%nat = Some a → inputs n !! 1%nat = Some b →
  class_of (state c) a ≠ Zero → class_of (state c) b ≠ Zero →
  ∃ st', reads_only [a; b] (state c) st' ∧
    visit n c =
      let c := set_state st' c in
      if bool_decide (class_of (state c) a = Nonzero ∧ class_of (state c) b = Nonzero) then
        let '(new_add, c) := insert_add_before a b c in
        let c := set_state (<[new_add := Nonzero]> (state c)) c in
        match output n with
        | Some o => Done (destroyCurrent (replaceAllUsesWith o new_add c))
        | None => Aborted BadAccess c
        end
      else
        match output n with
        | Some o => Done (advance (set_state (<[o := Unknown]> (state c)) c))
        | None => Aborted BadAccess c
        end.
Proof.
  intros Hk Ha Hb Hna Hnb. unfold visit. rewrite Hk. unfold rule_AutogradAdd.
  rewrite Ha, Hb.
  destruct (state_at_pair (state c) a) as (st1 & -> & Hr1).
  destruct (state_at_pair st1 b) as (st2 & E2 & Hr2).
  destruct (both_Nonzero_spec a b st2) as (st3 & E3 & Hr3).
  assert (H12 : reads_only [a; b] (state c) st2).
  { eapply reads_only_trans; (eapply reads_only_mono; [|done]); set_solver. }
  assert (H13 : reads_only [a; b] (state c) st3) by by eapply reads_only_trans.
  rewrite (reads_only_class _ _ _ _ Hr1) in E2.
  rewrite !(reads_only_class _ _ _ _ H12) in E3.
  exists st3. split; [done|].
  cbn [state set_state]. rewrite !(reads_only_class _ _ _ _ H13).
  destruct (class_of (state c) a) eqn:Hca; [| done |];
    cbn [state set_state]; rewrite E2;
    (destruct (class_of (state c) b) eqn:Hcb; [| done |]);
    cbn [state set_state]; rewrite E3; cbn [state set_state];
    by repeat case_bool_decide.
Qed.

Lemma visit_AutogradAdd_both_Nonzero n c ns a b o :
  pending c = n :: ns → kind n = prim_AutogradAdd →
  inputs n !! 0%nat = Some a → inputs n !! 1%nat = Some b → output n = Some o →
  class_of (state c) a = Nonzero → class_of (state c) b = Nonzero →
  ∃ st', reads_only [a; b] (state c) st' ∧
    visit n c = Done
      {| before := map_uses (subst_value o (next_unique c))
                     <$> (before c ++ [mkNode (next_node c) aten_add [a; b] [next_unique c] []]);
         pending := map_uses (subst_value o (next_unique c)) <$> ns;
         block_outs := subst_value o (next_unique c) <$> block_outs c;
         next_unique := Pos.succ (next_unique c);
         next_node := Pos.succ (next_node c);
         state := <[next_unique c := Nonzero]> st' |}.
Proof.
  intros Hp Hk Ha Hb Ho Hca Hcb.
  destruct (visit_AutogradAdd_reads n c a b) as (st' & Hr & ->); try done; try congruence.
  exists st'. split; [done|]. cbn [state set_state].
  rewrite !(reads_only_class _ _ _ _ Hr), bool_decide_eq_true_2 by done.
  cbn. rewrite Ho. unfold replaceAllUsesWith, map_uses_scan, destroyCurrent. cbn.
  by rewrite Hp.
Qed.

Lemma visit_AutogradAdd_kept n c ns a b o :
  pending c = n :: ns → kind n = prim_AutogradAdd →
  inputs n !! 0%nat = Some a → inputs n !! 1%nat = Some b → output n = Some o →
  class_of (state c) a ≠ Zero → class_of (state c) b ≠ Zero →
  ¬ (class_of (state c) a = Nonzero ∧ class_of (state c) b = Nonzero) →
  ∃ st', reads_only [a; b] (state c) st' ∧
    visit n c = Done
      {| before := before c ++ [n];
         pending := ns;
         block_outs := block_outs c;
         next_unique := next_unique c;
         next_node := next_node c;
         state := <[o := Unknown]> st' |}.
Proof.
  intros Hp Hk Ha Hb Ho Hca Hcb Hnot.
  destruct (visit_AutogradAdd_reads n c a b) as (st' & Hr & ->); try done.
  exists st'. split; [done|]. cbn [state set_state].
  rewrite !(reads_only_class _ _ _ _ Hr), bool_decide_eq_false_2 by done.
  rewrite Ho. unfold advance. cbn. by rewrite Hp.
Qed.

Lemma visit_AutogradZero n c ns o :
  pending c = n :: ns → kind n = prim_AutogradZero → output n = Some o →
  visit n c = Done
    {| before := before c ++ [n]; pending := ns; block_outs := block_outs c;
       next_unique := next_unique c; next_node := next_node c;
       state := <[o := Zero]> (state c) |}.
Proof.
  intros Hp Hk Ho. unfold visit. rewrite Hk. unfold rule_AutogradZero. rewrite Ho.
  unfold advance. cbn. by rewrite Hp.
Qed.

Lemma visit_plain n c ns :
  pending c = n :: ns → plain n →
  visit n c = Done
    {| before := before c ++ [n]; pending := ns; block_outs := block_outs c;
       next_unique := next_unique c; next_node := next_node c;
       state := foldl (λ st o, <[o := Unknown]> st) (state c) (outputs n) |}.
Proof.
  intros Hp (H1 & H2 & H3). unfold visit.
  destruct (kind n); try done; unfold rule_default, advance; cbn; by rewrite Hp.
Qed.

Lemma output_Some n o : output n = Some o ↔ outputs n = [o].
Proof.
  unfold output. destruct (outputs n) as [|o1 [|o2 outs]]; naive_solver.
Qed.

(** ** The shape of a visit, whatever the rule *)

Lemma rewire_outputs_map outs : ∀ i c,
  ∃ f, rewire_outputs outs i c = Done (map_uses_scan f c)
     ∨ rewire_outputs outs i c = Aborted BadAccess (map_uses_scan f c).
Proof.
  induction outs as [|o outs IH]; intros i c; cbn [rewire_outputs].
  - exists id. left. by rewrite map_uses_scan_id.
  - destruct (current_body c ≫= λ body, block_outputs body !! i) as [w|].
    + destruct (IH (S i) (replaceAllUsesWith o w c)) as (f & [H|H]);
        exists (f ∘ subst_value o w); rewrite H; [left|right];
        unfold replaceAllUsesWith; by rewrite map_uses_scan_compose.
    + exists id. right. by rewrite map_uses_scan_id.
Qed.

Lemma rewire_outputs_enough outs : ∀ i c n ns body,
  pending c = n :: ns → blocks n !! 0%nat = Some body →
  i + length outs ≤ length (block_outputs body) →
  ∃ f, rewire_outputs outs i c = Done (map_uses_scan f c).
Proof.
  induction outs as [|o outs IH]; intros i c n ns body Hp Hb Hlen; cbn [rewire_outputs].
  - exists id. by rewrite map_uses_scan_id.
  - unfold current_body. rewrite Hp. cbn. rewrite Hb. cbn. cbn in Hlen.
    destruct (lookup_lt_is_Some_2 (block_outputs body) i) as [w Hw]; [lia|].
    rewrite Hw.
    destruct (IH (S i) (replaceAllUsesWith o w c) (map_uses (subst_value o w) n)
                (map_uses (subst_value o w) <$> ns)
                (map_uses_block (subst_value o w) body)) as (f & Hf).
    + unfold replaceAllUsesWith, map_uses_scan. cbn. by rewrite Hp.
    + by rewrite blocks_map_uses, list_lookup_fmap, Hb.
    + rewrite block_outputs_map_uses, length_fmap. lia.
    + exists (f ∘ subst_value o w). rewrite Hf. unfold replaceAllUsesWith.
      by rewrite map_uses_scan_compose.
Qed.

Lemma node_ids_body n body :
  blocks n !! 0%nat = Some body → block_nodes body ≫= node_ids ⊆ blocks n ≫= block_ids.
Proof.
  destruct n as [id k ins outs bs]. cbn. intros Hb x Hx.
  destruct bs as [|b bs]; simplify_eq/=. destruct body as [bns bouts].
  cbn in Hx. set_solver.
Qed.

Lemma node_ids_unfold n : node_ids n = node_id n :: (blocks n ≫= block_ids).
Proof. by destruct n. Qed.

(** A visit that ends normally rewrites uses throughout, puts nodes
    [mid_b] before the cursor and [mid_p] at the cursor in place of the node
    visited; these are the node itself, nodes of its body, or a new node. *)
Lemma visit_structure n c ns c' :
  pending c = n :: ns → visit n c = Done c' →
  ∃ f mid_b mid_p,
    before c' = map_uses f <$> (before c ++ mid_b) ∧
    pending c' = map_uses f <$> (mid_p ++ ns) ∧
    block_outs c' = f <$> block_outs c ∧
    (next_node c ≤ next_node c')%positive ∧
    Forall (λ id, id ∈ node_ids n ∨ (id = next_node c ∧ (next_node c < next_node c')%positive))
           ((mid_b ++ mid_p) ≫= node_ids) ∧
    (mid_p = [] ∨
     kind n = prim_GradOf ∧ mid_p = [mkNode (next_node c) prim_AutogradZero [] [next_unique c] []]).
Proof.
  intros Hp Hv.
  assert (Hid : ∀ l : list Node, map_uses id <$> l = l).
  { intros l. apply map_uses_list_id_in. apply Forall_forall. intros m _.
    by apply Forall_forall. }
  assert (Hkept : ∀ st', c' = {| before := before c ++ [n]; pending := ns;
             block_outs := block_outs c; next_unique := next_unique c;
             next_node := next_node c; state := st' |} →
           ∃ f mid_b mid_p,
    before c' = map_uses f <$> (before c ++ mid_b) ∧
    pending c' = map_uses f <$> (mid_p ++ ns) ∧
    block_outs c' = f <$> block_outs c ∧
    (next_node c ≤ next_node c')%positive ∧
    Forall (λ id, id ∈ node_ids n ∨ (id = next_node c ∧ (next_node c < next_node c')%positive))
           ((mid_b ++ mid_p) ≫= node_ids) ∧
    (mid_p = [] ∨
     kind n = prim_GradOf ∧ mid_p = [mkNode (next_node c) prim_AutogradZero [] [next_unique c] []])).
  { intros st' ->. exists id, [n], []. cbn. rewrite !Hid, list_fmap_id.
    split_and!; try done; [|by left].
    rewrite app_nil_r. apply Forall_forall. intros x Hx. left. set_solver. }
  assert (Hdropped : ∀ f st', c' = {| before := map_uses f <$> before c;
             pending := map_uses f <$> ns;
             block_outs := f <$> block_outs c; next_unique := next_unique c;
             next_node := next_node c; state := st' |} →
           ∃ f mid_b mid_p,
    before c' = map_uses f <$> (before c ++ mid_b) ∧
    pending c' = map_uses f <$> (mid_p ++ ns) ∧
    block_outs c' = f <$> block_outs c ∧
    (next_node c ≤ next_node c')%positive ∧
    Forall (λ id, id ∈ node_ids n ∨ (id = next_node c ∧ (next_node c < next_node c')%positive))
           ((mid_b ++ mid_p) ≫= node_ids) ∧
    (mid_p = [] ∨
     kind n = prim_GradOf ∧ mid_p = [mkNode (next_node c) prim_AutogradZero [] [next_unique c] []])).
  { intros f st' ->. exists f, [], []. cbn. rewrite app_nil_r.
    split_and!; try done. by left. }
  destruct (kind n) eqn:Hk.
  - (* prim::GradOf *)
    destruct (decide (Forall (λ v, class_of (state c) v = Zero) (inputs n))) as [Hz|Hz].
    + rewrite (visit_GradOf_all_Zero n c ns) in Hv by done. simplify_eq.
      exists (redirect (outputs n) (next_unique c)), [],
        [mkNode (next_node c) prim_AutogradZero [] [next_unique c] []].
      cbn. rewrite app_nil_r. split_and!; try done; [lia| |by right].
      apply Forall_forall. intros x Hx. right. split; [set_solver|lia].
    + destruct (visit_GradOf_not_all_Zero n c Hk Hz) as (st1 & st2 & _ & _ & E).
      rewrite E in Hv. destruct (blocks n !! 0%nat) as [body|] eqn:Hb; [|done].
      case_bool_decide; [|done].
      destruct (rewire_outputs_map (outputs n) 0 (hoist_body body (set_state st2 c)))
        as (f & [Hf|Hf]); rewrite Hf in Hv; [|done]. cbn in Hv. simplify_eq.
      exists f, (block_nodes body), []. cbn. rewrite Hp. cbn.
      split_and!; try done; [|by left].
      rewrite app_nil_r. apply Forall_forall. intros x Hx. left.
      rewrite node_ids_unfold. right. by eapply node_ids_body.
  - (* prim::AutogradAdd *)
    destruct (inputs n !! 0%nat) as [a|] eqn:Ha;
      [|by rewrite visit_AutogradAdd_no_input in Hv by auto].
    destruct (inputs n !! 1%nat) as [b|] eqn:Hb;
      [|by rewrite visit_AutogradAdd_no_input in Hv by auto].
    destruct (decide (class_of (state c) a = Zero)) as [Hza|Hza].
    { rewrite (visit_AutogradAdd_left n c a b) in Hv by done.
      destruct (output n) as [o|]; [|done]. simplify_eq.
      eapply (Hdropped (subst_value o b)).
      unfold replaceAllUsesWith, map_uses_scan, destroyCurrent. cbn. by rewrite Hp. }
    destruct (decide (class_of (state c) b = Zero)) as [Hzb|Hzb].
    { destruct (visit_AutogradAdd_right n c a b) as (st' & _ & E); try done.
      rewrite E in Hv. destruct (output n) as [o|]; [|done]. simplify_eq.
      eapply (Hdropped (subst_value o a)).
      unfold replaceAllUsesWith, map_uses_scan, destroyCurrent. cbn. by rewrite Hp. }
    destruct (visit_AutogradAdd_reads n c a b) as (st' & _ & E); try done.
    rewrite E in Hv. cbn [state set_state] in Hv. case_bool_decide.
    + cbn in Hv. destruct (output n) as [o|]; [|done]. simplify_eq.
      exists (subst_value o (next_unique c)),
        [mkNode (next_node c) aten_add [a; b] [next_unique c] []], [].
      cbn. rewrite Hp. cbn. split_and!; try done; [lia| |by left].
      apply Forall_forall. intros x Hx. right. split; [set_solver|lia].
    + destruct (output n) as [o|]; [|done]. simplify_eq.
      eapply Hkept. unfold advance. cbn. by rewrite Hp.
  - (* prim::AutogradZero *)
    unfold visit in Hv. rewrite Hk in Hv. unfold rule_AutogradZero in Hv.
    destruct (output n) as [o|]; [|done]. simplify_eq.
    eapply Hkept. unfold advance. cbn. by rewrite Hp.
  - rewrite (visit_plain n c ns) in Hv; [|done|by unfold plain; rewrite Hk].
    simplify_eq. by eapply Hkept.
  - rewrite (visit_plain n c ns) in Hv; [|done|by unfold plain; rewrite Hk].
    simplify_eq. by eapply Hkept.
Qed.

(** ** Termination of the scan *)

Lemma iterations_left_map_uses f (ns : list Node) :
  iterations_left (map_uses f <$> ns) = iterations_left ns.
Proof.
  unfold iterations_left. rewrite length_fmap. f_equal.
  induction ns as [|n ns IH]; [done|]. cbn [fmap list_fmap].
  rewrite !filter_cons, kind_map_uses. case_decide; cbn; by rewrite IH.
Qed.

Lemma iterations_left_bound (ns : list Node) : iterations_left ns ≤ 2 * length ns.
Proof. unfold iterations_left. pose proof (length_filter (λ n, kind n = prim_GradOf) ns). lia. Qed.

Lemma visit_iterations n c ns c' :
  pending c = n :: ns → visit n c = Done c' →
  iterations_left (pending c') < iterations_left (pending c).
Proof.
  intros Hp Hv.
  destruct (visit_structure n c ns c' Hp Hv) as (f & mb & mp & _ & -> & _ & _ & _ & Hmp).
  rewrite iterations_left_map_uses, Hp. unfold iterations_left.
  destruct Hmp as [->|[Hk ->]]; cbn [app length]; rewrite !filter_cons.
  - case_decide; cbn; lia.
  - repeat case_decide; simplify_eq/=; lia.
Qed.

(** ** The outcomes of a visit *)

Lemma well_shaped_map_uses f n : well_shaped (map_uses f n) = well_shaped n.
Proof.
  destruct n as [id k ins outs bs]. unfold well_shaped. cbn.
  rewrite length_fmap. destruct k; try done.
  destruct bs as [|b bs]; [done|]. cbn. by rewrite block_outputs_map_uses, length_fmap.
Qed.

Lemma visit_well_shaped n c ns c' :
  pending c = n :: ns → visit n c = Done c' →
  Forall (λ m, well_shaped m) ns → Forall (λ m, well_shaped m) (pending c').
Proof.
  intros Hp Hv Hws.
  destruct (visit_structure n c ns c' Hp Hv) as (f & mb & mp & _ & -> & _ & _ & _ & Hmp).
  apply Forall_fmap. apply Forall_app. split.
  - destruct Hmp as [->|[_ ->]]; [done|]. by repeat constructor.
  - eapply Forall_impl; [done|]. intros m Hm. cbn. by rewrite well_shaped_map_uses.
Qed.

Lemma visit_outcome n c ns :
  pending c = n :: ns →
  (∃ c', visit n c = Done c') ∨
  (∃ st', visit n c = Aborted AssertFailed (set_state st' c) ∧ kind n = prim_GradOf ∧
          ¬ Forall (λ v, class_of (state c) v = Zero) (inputs n) ∧
          ¬ Forall (λ v, class_of (state c) v ≠ Unknown) (inputs n)) ∨
  (∃ c', visit n c = Aborted BadAccess c' ∧ well_shaped n = false).
Proof.
  intros Hp. unfold well_shaped. destruct (kind n) eqn:Hk.
  - destruct (decide (Forall (λ v, class_of (state c) v = Zero) (inputs n))) as [Hz|Hz].
    { left. rewrite (visit_GradOf_all_Zero n c ns) by done. eauto. }
    destruct (visit_GradOf_not_all_Zero n c Hk Hz) as (st1 & st2 & _ & _ & ->).
    destruct (blocks n) as [|body bs] eqn:Hb; cbn; [right; right; eauto|].
    case_bool_decide as Hkn; [|right; left; eauto].
    destruct (rewire_outputs_map (outputs n) 0 (hoist_body body (set_state st2 c)))
      as (f & [Hf|Hf]); rewrite Hf; cbn; [left; eauto|].
    right. right. eexists. split; [done|]. apply bool_decide_eq_false. intros Hlen.
    destruct (rewire_outputs_enough (outputs n) 0 (hoist_body body (set_state st2 c))
                (without_body_nodes n) ns (mkBlock [] (block_outputs body)))
      as (f' & Hf'); [| |cbn; lia|congruence].
    + unfold hoist_body. cbn. by rewrite Hp.
    + destruct n as [? ? ? ? bs0]. cbn in Hb. subst bs0. by destruct body.
  - destruct (inputs n) as [|a [|b ins]] eqn:Hin; cbn.
    { right. right. rewrite visit_AutogradAdd_no_input; [eauto|done|]. rewrite Hin. auto. }
    { right. right. rewrite visit_AutogradAdd_no_input; [eauto|done|]. rewrite Hin. auto. }
    assert (Ha : inputs n !! 0%nat = Some a) by by rewrite Hin.
    assert (Hb : inputs n !! 1%nat = Some b) by by rewrite Hin.
    assert (Hout : output n = None → bool_decide (length (outputs n) = 1) = false).
    { unfold output. destruct (outputs n) as [|? [|? ?]]; done. }
    rewrite bool_decide_eq_true_2 by lia. cbn.
    destruct (decide (class_of (state c) a = Zero)) as [Hza|Hza].
    { rewrite (visit_AutogradAdd_left n c a b) by done.
      destruct (output n) as [o|]; [left|right; right]; eauto. }
    destruct (decide (class_of (state c) b = Zero)) as [Hzb|Hzb].
    { destruct (visit_AutogradAdd_right n c a b) as (st' & _ & ->); try done.
      destruct (output n) as [o|]; [left|right; right]; eauto. }
    destruct (visit_AutogradAdd_reads n c a b) as (st' & _ & ->); try done.
    cbn [state set_state].
    destruct (bool_decide (class_of st' a = Nonzero ∧ class_of st' b = Nonzero)); cbn;
      (destruct (output n) as [o|]; [left|right; right]; eauto).
  - unfold visit. rewrite Hk. unfold rule_AutogradZero, output.
    destruct (outputs n) as [|? [|? ?]]; cbn; eauto.
  - left. rewrite (visit_plain n c ns); [eauto|done|by unfold plain; rewrite Hk].
  - left. rewrite (visit_plain n c ns); [eauto|done|by unfold plain; rewrite Hk].
Qed.

(** ** The scan as a whole *)

Lemma scan_nil fuel c : pending c = [] → scan fuel c = Done c.
Proof. intros H. destruct fuel; cbn; by rewrite H. Qed.

Lemma scan_cons fuel c n ns :
  pending c = n :: ns → scan (S fuel) c = and_then (visit n c) (scan fuel).
Proof. intros H. cbn. by rewrite H. Qed.

Lemma reached_scan g c :
  reached g c →
  ∃ fuel, iterations_left (pending c) ≤ fuel ∧
    scan (2 * length (block_nodes (g_block g))) (start g) = scan fuel c.
Proof.
  induction 1 as [|c n ns c' _ (fuel & Hle & IH) Hp Hv].
  - eexists. split; [|done]. apply iterations_left_bound.
  - pose proof (visit_iterations n c ns c' Hp Hv) as Hlt.
    destruct fuel as [|fuel]; [lia|]. exists fuel. split; [lia|].
    rewrite IH, (scan_cons _ _ _ _ Hp), Hv. done.
Qed.

Lemma reached_well_shaped g c :
  Forall (λ n, well_shaped n) (block_nodes (g_block g)) →
  reached g c → Forall (λ n, well_shaped n) (pending c).
Proof.
  intros Hws. induction 1 as [|c n ns c' _ IH Hp Hv]; [done|].
  rewrite Hp in IH. apply Forall_cons in IH as [_ IH]. by eapply visit_well_shaped.
Qed.

(** The three ways a scan ends: normally, with every node visited; by the
    assertion, at a [prim::GradOf] node with an input that is not [Zero] and
    an input that is [Unknown]; by a checked accessor, at a node that has
    not the shape of its kind. *)
Lemma scan_outcomes g fuel : ∀ c,
  reached g c → iterations_left (pending c) ≤ fuel →
  (∃ c', scan fuel c = Done c' ∧ pending c' = [] ∧ reached g c') ∨
  (∃ c1 n ns st', reached g c1 ∧ pending c1 = n :: ns ∧ kind n = prim_GradOf ∧
     ¬ Forall (λ v, class_of (state c1) v = Zero) (inputs n) ∧
     ¬ Forall (λ v, class_of (state c1) v ≠ Unknown) (inputs n) ∧
     scan fuel c = Aborted AssertFailed (set_state st' c1)) ∨
  (∃ c1 n ns c', reached g c1 ∧ pending c1 = n :: ns ∧ well_shaped n = false ∧
     scan fuel c = Aborted BadAccess c').
Proof.
  induction fuel as [|fuel IH]; intros c Hr Hle.
  - destruct (pending c) as [|n ns] eqn:Hp; [|unfold iterations_left in Hle; cbn in Hle; lia].
    left. exists c. by rewrite scan_nil.
  - destruct (pending c) as [|n ns] eqn:Hp.
    { left. exists c. by rewrite scan_nil. }
    rewrite (scan_cons _ _ _ _ Hp).
    destruct (visit_outcome n c ns Hp) as [(c' & Hv)|[(st' & Hv & Hk & Hz & Hu)|(c' & Hv & Hbad)]].
    + rewrite Hv. cbn. apply IH.
      * by eapply reached_visit.
      * pose proof (visit_iterations n c ns c' Hp Hv). rewrite Hp in *. lia.
    + right. left. exists c, n, ns, st'. rewrite Hv. done.
    + right. right. exists c, n, ns, c'. rewrite Hv. done.
Qed.

Lemma scan_outcome g fuel c :
  reached g c → iterations_left (pending c) ≤ fuel →
  Forall (λ m, well_shaped m) (block_nodes (g_block g)) →
  (∃ c', scan fuel c = Done c' ∧ pending c' = [] ∧ reached g c') ∨
  (∃ c1 n ns st', reached g c1 ∧ pending c1 = n :: ns ∧ kind n = prim_GradOf ∧
     ¬ Forall (λ v, class_of (state c1) v = Zero) (inputs n) ∧
     ¬ Forall (λ v, class_of (state c1) v ≠ Unknown) (inputs n) ∧
     scan fuel c = Aborted AssertFailed (set_state st' c1)).
Proof.
  intros Hr Hle Hws.
  destruct (scan_outcomes g fuel c Hr Hle) as [?|[?|(c1 & n & ns & c' & Hr1 & Hp & Hbad & _)]];
    [by left|by right|].
  pose proof (reached_well_shaped g c1 Hws Hr1) as Hw. rewrite Hp in Hw.
  apply Forall_cons in Hw as [Hn _]. by rewrite Hbad in Hn.
Qed.

Lemma scan_finishes fuel : ∀ c c',
  iterations_left (pending c) ≤ fuel → scan fuel c ≠ Unfinished c'.
Proof.
  induction fuel as [|fuel IH]; intros c c' Hle.
  - destruct (pending c) as [|n ns] eqn:Hp; [|unfold iterations_left in Hle; cbn in Hle; lia].
    by rewrite scan_nil.
  - destruct (pending c) as [|n ns] eqn:Hp; [by rewrite scan_nil|].
    rewrite (scan_cons _ _ _ _ Hp).
    destruct (visit_outcome n c ns Hp) as [(c1 & Hv)|[(st' & Hv & _)|(c1 & Hv & _)]];
      rewrite Hv; cbn; [|done..].
    apply IH. pose proof (visit_iterations n c ns c1 Hp Hv) as Hlt.
    rewrite Hp in Hlt. lia.
Qed.

(** The bound on the iterations is never reached: the pass ends, normally
    or by a failed check. *)
Lemma specializeAutogradZero_ends g g' : specializeAutogradZero g ≠ Unfinished g'.
Proof.
  unfold specializeAutogradZero.
  destruct (scan _ (start g)) as [c|why c|c] eqn:Hs; try done.
  exfalso. eapply scan_finishes; [|exact Hs]. apply iterations_left_bound.
Qed.

(** ** Node addresses *)

Lemma visit_ids_preserved n c ns c' x :
  pending c = n :: ns → visit n c = Done c' →
  x ∉ all_ids c → (x < next_node c)%positive →
  (x ∉ all_ids c') ∧ (x < next_node c')%positive.
Proof.
  intros Hp Hv Hx Hlt.
  destruct (visit_structure n c ns c' Hp Hv) as (f & mb & mp & Hb & Hp' & _ & Hle & Hmid & _).
  split; [|lia]. unfold all_ids in *. rewrite Hb, Hp', <- fmap_app, node_ids_map_uses_list.
  rewrite Hp in Hx. rewrite !bind_app in *. rewrite bind_cons in Hx.
  rewrite Forall_forall in Hmid.
  intros Hin. rewrite !elem_of_app in Hin. rewrite !elem_of_app in Hx.
  destruct Hin as [[?|Hin]|[Hin|?]]; [tauto| | |tauto].
  - destruct (Hmid x) as [?|[-> ?]]; [set_solver|tauto|lia].
  - destruct (Hmid x) as [?|[-> ?]]; [set_solver|tauto|lia].
Qed.

Lemma scan_ids_preserved x fuel : ∀ c c',
  scan fuel c = Done c' → x ∉ all_ids c → (x < next_node c)%positive → x ∉ all_ids c'.
Proof.
  induction fuel as [|fuel IH]; intros c c' Hs Hx Hlt.
  - cbn in Hs. destruct (pending c); by simplify_eq.
  - destruct (pending c) as [|n ns] eqn:Hp.
    { rewrite scan_nil in Hs by done. by simplify_eq. }
    rewrite (scan_cons _ _ _ _ Hp) in Hs.
    destruct (visit n c) as [c1| |] eqn:Hv; try done. cbn in Hs.
    destruct (visit_ids_preserved n c ns c1 x Hp Hv Hx Hlt). by eapply IH.
Qed.

(** The node at the cursor is gone once the nodes put in its place are
    nodes nested in it or new ones. *)
Lemma ids_gone c n ns f mid (l' : list Node) :
  ids_ok c → pending c = n :: ns →
  l' = map_uses f <$> (before c ++ mid ++ ns) →
  Forall (λ id, id ∈ blocks n ≫= block_ids ∨ id = next_node c) (mid ≫= node_ids) →
  (node_id n ∉ l' ≫= node_ids) ∧ (node_id n < next_node c)%positive.
Proof.
  intros [Hnd Hlt] Hp -> Hmid. unfold all_ids in *. rewrite Hp in *.
  rewrite bind_app, bind_cons, node_ids_unfold in Hnd, Hlt.
  apply NoDup_app in Hnd as (_ & Hbn & Hnd).
  apply NoDup_app in Hnd as (Hnd & Hnn & _).
  apply NoDup_cons in Hnd as [Hnest _].
  rewrite !Forall_app, Forall_cons in Hlt. destruct Hlt as (_ & (Hlt & _) & _).
  split; [|done].
  rewrite node_ids_map_uses_list, !bind_app, !elem_of_app.
  rewrite Forall_forall in Hmid.
  intros [Hin|[Hin|Hin]].
  - apply (Hbn _ Hin). set_solver.
  - destruct (Hmid _ Hin) as [?|E]; [done|]. lia.
  - apply (Hnn (node_id n)); [set_solver|done].
Qed.

Lemma gone_for_good x c :
  x ∉ all_ids c → (x < next_node c)%positive →
  ∀ fuel c', scan fuel c = Done c' → x ∉ all_ids c'.
Proof. intros Hx Hlt fuel c' Hs. by eapply scan_ids_preserved. Qed.

(** ** Uses that remain after a redirection *)

Lemma all_uses_map_uses f bs ps outs nu nn st :
  all_uses {| before := map_uses f <$> bs; pending := map_uses f <$> ps;
              block_outs := f <$> outs; next_unique := nu; next_node := nn;
              state := st |}
  = f <$> (((bs ++ ps) ≫= uses) ++ outs).
Proof.
  unfold all_uses. cbn [before pending block_outs].
  rewrite <- (fmap_app (map_uses f) bs ps), (fmap_app f). f_equal.
  induction (bs ++ ps) as [|m l IH]; [done|].
  cbn [fmap list_fmap]. rewrite !bind_cons, fmap_app. by rewrite uses_map_uses, IH.
Qed.

Lemma redirect_range outs new v : new ∉ outs → redirect outs new v ∉ outs.
Proof. unfold redirect. case_decide; set_solver. Qed.

Lemma subst_value_range old new v : new ≠ old → subst_value old new v ≠ old.
Proof. unfold subst_value. case_decide; congruence. Qed.

Lemma rewiring_range outs : ∀ bouts v,
  length outs ≤ length bouts → (∀ o, o ∈ outs → o ∉ bouts) →
  rewiring outs bouts v ∉ outs.
Proof.
  intros bouts v Hlen Hdisj.
  assert (H : rewiring outs bouts v ∈ bouts ∨ rewiring outs bouts v = v ∧ v ∉ outs).
  { clear Hdisj. revert bouts Hlen.
    induction outs as [|o outs IH]; intros [|w bouts] Hlen; cbn in *; try lia.
    - right. split; [done|]. set_solver.
    - right. split; [done|]. set_solver.
    - case_decide; [left; set_solver|].
      destruct (IH bouts) as [?|[? ?]]; [lia|left; set_solver|right; set_solver]. }
  destruct H as [H|[-> H]]; [|done]. intros Hin. by apply (Hdisj _ Hin).
Qed.

Lemma step_visit c n ns : pending c = n :: ns → step c = visit n c.
Proof. intros H. unfold step. by rewrite H. Qed.

Lemma ids_region_gone c n ns f zn (l' : list Node) :
  ids_ok c → pending c = n :: ns →
  l' = map_uses f <$> (before c ++ zn :: ns) →
  node_ids zn = [next_node c] →
  ∀ x, x ∈ node_ids n → (x ∉ l' ≫= node_ids) ∧ (x < next_node c)%positive.
Proof.
  intros [Hnd Hlt] Hp -> Hzn x Hx. unfold all_ids in *. rewrite Hp in *.
  rewrite bind_app, bind_cons in Hnd, Hlt.
  apply NoDup_app in Hnd as (_ & Hbn & Hnd).
  apply NoDup_app in Hnd as (_ & Hnn & _).
  rewrite !Forall_app in Hlt. destruct Hlt as (_ & Hlt & _).
  rewrite Forall_forall in Hlt. specialize (Hlt x Hx). split; [|done].
  rewrite node_ids_map_uses_list, bind_app, bind_cons, Hzn, !elem_of_app.
  intros [Hin|[Hin|Hin]].
  - apply (Hbn _ Hin). set_solver.
  - apply list_elem_of_singleton in Hin. lia.
  - by apply (Hnn x).
Qed.

(** ** The properties of the pass *)

(** C2. Seeding classifies every graph input, and nothing else, by its
    type alone: [Zero] for a tensor type whose autograd-zero flag is present
    and true, [Nonzero] for a tensor type whose flag is false or absent and
    for a type that is a subtype of tensor or of list of tensors, [Unknown]
    for any other type. *)
Theorem seeding_by_type (g : Graph) (input : Value) :
  input ∈ g_inputs g →
  let tp := g_type g input in
  state (start g) !! input = Some (seed_state tp) ∧
  (∀ v, v ∉ g_inputs g → state (start g) !! v = None) ∧
  (seed_state tp = Zero ↔
     ∃ tensor, cast_TensorType tp = Some tensor ∧ autogradZero tensor = Some true) ∧
  (seed_state tp = Nonzero ↔
     (∃ tensor, cast_TensorType tp = Some tensor ∧ autogradZero tensor ≠ Some true) ∨
     (cast_TensorType tp = None ∧
      (isSubtypeOf_Tensor tp = true ∨ isSubtypeOf_ListOfTensors tp = true))) ∧
  (seed_state tp = Unknown ↔
     cast_TensorType tp = None ∧
     isSubtypeOf_Tensor tp = false ∧ isSubtypeOf_ListOfTensors tp = false).
Proof.
  intros Hin tp. split_and!.
  - cbn. by apply seed_input.
  - intros v Hv. cbn. by rewrite seed_other.
  - unfold seed_state. destruct (cast_TensorType tp) as [[[[|]|]]|]; cbn;
      [naive_solver..|].
    destruct (isSubtypeOf_Tensor tp), (isSubtypeOf_ListOfTensors tp); naive_solver.
  - unfold seed_state. destruct (cast_TensorType tp) as [[[[|]|]]|]; cbn;
      [naive_solver..|].
    destruct (isSubtypeOf_Tensor tp), (isSubtypeOf_ListOfTensors tp); naive_solver.
  - unfold seed_state. destruct (cast_TensorType tp) as [[[[|]|]]|]; cbn;
      [naive_solver..|].
    destruct (isSubtypeOf_Tensor tp), (isSubtypeOf_ListOfTensors tp); naive_solver.
Qed.

(** C3. When the scan visits a [prim::GradOf] node all of whose inputs are
    classified [Zero], one new [prim::AutogradZero] node takes the place
    right after it, every use of every output of the region is redirected to
    the output of that node, and the region goes with the nodes nested in
    it: none of their addresses is in the graph after the visit, nor at the
    end of the pass. *)
Theorem zero_region_collapse c n ns :
  pending c = n :: ns → kind n = prim_GradOf →
  Forall (λ v, class_of (state c) v = Zero) (inputs n) →
  ids_ok c → next_unique c ∉ outputs n →
  let zero := next_unique c in
  let c' :=
    {| before := map_uses (redirect (outputs n) zero) <$> before c;
       pending := mkNode (next_node c) prim_AutogradZero [] [zero] []
                  :: (map_uses (redirect (outputs n) zero) <$> ns);
       block_outs := redirect (outputs n) zero <$> block_outs c;
       next_unique := Pos.succ zero;
       next_node := Pos.succ (next_node c);
       state := state c |} in
  step c = Done c' ∧
  (∀ o, o ∈ outputs n → o ∉ all_uses c') ∧
  (∀ x, x ∈ node_ids n →
     (x ∉ all_ids c') ∧ ∀ fuel c_end, scan fuel c' = Done c_end → x ∉ all_ids c_end).
Proof.
  intros Hp Hk Hz Hids Hfresh zero c'. split_and!.
  - rewrite (step_visit _ _ _ Hp). by apply visit_GradOf_all_Zero.
  - intros o Ho. unfold all_uses, c'. cbn.
    change (mkNode (next_node c) prim_AutogradZero [] [zero] []
            :: (map_uses (redirect (outputs n) zero) <$> ns))
      with (map_uses (redirect (outputs n) zero) <$>
              (mkNode (next_node c) prim_AutogradZero [] [zero] [] :: ns)).
    pose proof (all_uses_map_uses (redirect (outputs n) zero) (before c)
      (mkNode (next_node c) prim_AutogradZero [] [zero] [] :: ns) (block_outs c)
      (Pos.succ zero) (Pos.succ (next_node c)) (state c)) as E.
    unfold all_uses in E. cbn [before pending block_outs] in E. rewrite E.
    intros (u & Hu & _)%list_elem_of_fmap. subst o.
    by apply (redirect_range (outputs n) zero u).
  - intros x Hx.
    destruct (ids_region_gone c n ns (redirect (outputs n) zero)
      (mkNode (next_node c) prim_AutogradZero [] [zero] [])
      (before c' ++ pending c') Hids Hp) with (x := x) as [Hgone Hlt]; try done.
    { unfold c'. cbn. by rewrite fmap_app. }
    split; [done|]. intros fuel c_end Hs.
    eapply (gone_for_good x c'); [done| |done]. cbn. lia.
Qed.

(** C10. A [prim::GradOf] node without inputs passes the all-zero test
    vacuously: the visit ends normally with the region replaced by one new
    [prim::AutogradZero] node, its body not spliced and no assertion
    evaluated. *)
Theorem empty_region_collapses c n ns :
  pending c = n :: ns → kind n = prim_GradOf → inputs n = [] →
  all_of_Zero (inputs n) (state c) = (true, state c) ∧
  step c = Done
    {| before := map_uses (redirect (outputs n) (next_unique c)) <$> before c;
       pending := mkNode (next_node c) prim_AutogradZero [] [next_unique c] []
                  :: (map_uses (redirect (outputs n) (next_unique c)) <$> ns);
       block_outs := redirect (outputs n) (next_unique c) <$> block_outs c;
       next_unique := Pos.succ (next_unique c);
       next_node := Pos.succ (next_node c);
       state := state c |}.
Proof.
  intros Hp Hk Hin. split.
  - by rewrite Hin.
  - rewrite (step_visit _ _ _ Hp). apply visit_GradOf_all_Zero; try done.
    rewrite Hin. constructor.
Qed.

(** C4. When the scan visits a [prim::GradOf] node with an input that is
    not classified [Zero] and no input classified [Unknown], the nodes of
    its body come to stand, in their order, right before the place of the
    region, every use of the i-th output of the region is redirected to the
    i-th designated output of the body, and the region node is gone. The
    node owns its body, with a designated output for each of its outputs,
    and its outputs are distinct values defined by the node, none of which
    the body designates. *)
Theorem live_region_splice c n ns body :
  pending c = n :: ns → kind n = prim_GradOf →
  Exists (λ v, class_of (state c) v ≠ Zero) (inputs n) →
  Forall (λ v, class_of (state c) v ≠ Unknown) (inputs n) →
  blocks n !! 0%nat = Some body →
  length (outputs n) ≤ length (block_outputs body) →
  NoDup (outputs n) →
  (∀ o, o ∈ outputs n → o ∉ block_outputs body) →
  ids_ok c →
  let rewire := rewiring (outputs n) (block_outputs body) in
  ∃ st',
    let c' :=
      {| before := map_uses rewire <$> (before c ++ block_nodes body);
         pending := map_uses rewire <$> ns;
         block_outs := rewire <$> block_outs c;
         next_unique := next_unique c;
         next_node := next_node c;
         state := st' |} in
    step c = Done c' ∧
    reads_only (inputs n) (state c) st' ∧
    (∀ i o w, outputs n !! i = Some o → block_outputs body !! i = Some w → rewire o = w) ∧
    (∀ v, v ∉ outputs n → rewire v = v) ∧
    (∀ o, o ∈ outputs n → o ∉ all_uses c') ∧
    (node_id n ∉ all_ids c') ∧
    (∀ fuel c_end, scan fuel c' = Done c_end → node_id n ∉ all_ids c_end).
Proof.
  intros Hp Hk Hnz Hkn Hb Hlen Hnd Hdisj Hids rewire.
  destruct (visit_GradOf_splice n c ns body) as (st' & Hr & Hv); try done.
  { apply Exists_exists in Hnz as (v & Hin & Hv). rewrite Forall_forall.
    intros HF. exact (Hv (HF v Hin)). }
  exists st'. intros c'. split_and!; try done.
  - by rewrite (step_visit _ _ _ Hp).
  - intros i o w Ho Hw. by eapply rewiring_lookup.
  - intros v Hv'. by apply rewiring_other.
  - intros o Ho. unfold c'. rewrite all_uses_map_uses.
    intros (u & Hu & _)%list_elem_of_fmap. subst o.
    by apply (rewiring_range (outputs n) (block_outputs body) u).
  - eapply (ids_gone c n ns rewire (block_nodes body) (before c' ++ pending c')); try done.
    + unfold c'. cbn. by rewrite <- fmap_app, <- !(assoc_L (++)).
    + apply Forall_forall. intros x Hx. left. by eapply node_ids_body.
  - intros fuel c_end Hs.
    destruct (ids_gone c n ns rewire (block_nodes body) (before c' ++ pending c'))
      as [Hgone Hlt]; try done.
    + unfold c'. cbn. by rewrite <- fmap_app, <- !(assoc_L (++)).
    + apply Forall_forall. intros x Hx. left. by eapply node_ids_body.
    + by eapply (gone_for_good (node_id n) c').
Qed.

Lemma not_all_Zero (st : StateMap) ins :
  ¬ Forall (λ v, class_of st v = Zero) ins ↔ Exists (λ v, class_of st v ≠ Zero) ins.
Proof.
  split.
  - intros H. apply not_Forall_Exists in H; [|apply _].
    eapply Exists_impl; [exact H|]. done.
  - intros (v & Hin & Hv)%Exists_exists. rewrite Forall_forall.
    intros HF. exact (Hv (HF v Hin)).
Qed.

Lemma not_all_known (st : StateMap) ins :
  ¬ Forall (λ v, class_of st v ≠ Unknown) ins ↔ Exists (λ v, class_of st v = Unknown) ins.
Proof.
  split.
  - intros H. apply not_Forall_Exists in H; [|apply _].
    eapply Exists_impl; [exact H|]. intros v Hv. cbn in Hv.
    by destruct (decide (class_of st v = Unknown)).
  - intros (v & Hin & Hv)%Exists_exists. rewrite Forall_forall.
    intros HF. exact (HF v Hin Hv).
Qed.

Lemma ids_dropped c n ns f (l' : list Node) :
  ids_ok c → pending c = n :: ns →
  l' = map_uses f <$> (before c ++ ns) →
  (node_id n ∉ l' ≫= node_ids) ∧ (node_id n < next_node c)%positive.
Proof.
  intros Hids Hp ->. eapply (ids_gone c n ns f []); try done.
Qed.

Lemma ids_replaced c n ns f k ins outs (l' : list Node) :
  ids_ok c → pending c = n :: ns →
  l' = map_uses f <$> (before c ++ [mkNode (next_node c) k ins outs []] ++ ns) →
  (node_id n ∉ l' ≫= node_ids) ∧ (node_id n < next_node c)%positive.
Proof.
  intros Hids Hp ->. eapply (ids_gone c n ns f [_]); try done.
  cbn. apply Forall_cons. split; [by right|constructor].
Qed.

(** C6. When the scan visits a [prim::AutogradAdd] node with inputs [a]
    and [b]: if [a] is classified [Zero], every use of the output of the
    node is redirected to [b] itself, the node is removed and none is
    created; if [a] is not classified [Zero] and [b] is, the same holds with
    [a] in the place of [b]. *)
Theorem add_with_zero c n ns a b o :
  pending c = n :: ns → kind n = prim_AutogradAdd →
  inputs n !! 0%nat = Some a → inputs n !! 1%nat = Some b → outputs n = [o] →
  ids_ok c →
  (class_of (state c) a = Zero →
     let c' :=
       {| before := map_uses (subst_value o b) <$> before c;
          pending := map_uses (subst_value o b) <$> ns;
          block_outs := subst_value o b <$> block_outs c;
          next_unique := next_unique c;
          next_node := next_node c;
          state := state c |} in
     step c = Done c' ∧
     (b ≠ o → o ∉ all_uses c') ∧
     (node_id n ∉ all_ids c') ∧
     (∀ fuel c_end, scan fuel c' = Done c_end → node_id n ∉ all_ids c_end)) ∧
  (class_of (state c) a ≠ Zero → class_of (state c) b = Zero →
     ∃ st',
       let c' :=
         {| before := map_uses (subst_value o a) <$> before c;
            pending := map_uses (subst_value o a) <$> ns;
            block_outs := subst_value o a <$> block_outs c;
            next_unique := next_unique c;
            next_node := next_node c;
            state := st' |} in
       step c = Done c' ∧
       reads_only [a] (state c) st' ∧
       (a ≠ o → o ∉ all_uses c') ∧
       (node_id n ∉ all_ids c') ∧
       (∀ fuel c_end, scan fuel c' = Done c_end → node_id n ∉ all_ids c_end)).
Proof.
  intros Hp Hk Ha Hb Ho%output_Some Hids. split.
  - intros Hz c'.
    destruct (ids_dropped c n ns (subst_value o b) (before c' ++ pending c') Hids Hp)
      as [Hgone Hlt]; [unfold c'; cbn; by rewrite fmap_app|].
    split_and!; try done.
    + rewrite (step_visit _ _ _ Hp). by eapply visit_AutogradAdd_left_Zero.
    + intros Hne. unfold c'. rewrite all_uses_map_uses.
      intros (u & Hu & _)%list_elem_of_fmap. by eapply subst_value_range.
    + intros fuel c_end Hs. by eapply (gone_for_good (node_id n) c').
  - intros Hnz Hz.
    destruct (visit_AutogradAdd_right_Zero n c ns a b o) as (st' & Hr & Hv); try done.
    exists st'. intros c'.
    destruct (ids_dropped c n ns (subst_value o a) (before c' ++ pending c') Hids Hp)
      as [Hgone Hlt]; [unfold c'; cbn; by rewrite fmap_app|].
    split_and!; try done.
    + by rewrite (step_visit _ _ _ Hp).
    + intros Hne. unfold c'. rewrite all_uses_map_uses.
      intros (u & Hu & _)%list_elem_of_fmap. by eapply subst_value_range.
    + intros fuel c_end Hs. by eapply (gone_for_good (node_id n) c').
Qed.

(** C7. When the scan visits a [prim::AutogradAdd] node whose two inputs
    are classified [Nonzero], one new [aten::add] node of the two inputs
    comes to stand right before its place, the output of the new node is
    classified [Nonzero], every use of the old output is redirected to the
    new one, and the old node is gone. *)
Theorem add_promotion c n ns a b o :
  pending c = n :: ns → kind n = prim_AutogradAdd →
  inputs n !! 0%nat = Some a → inputs n !! 1%nat = Some b → outputs n = [o] →
  ids_ok c →
  class_of (state c) a = Nonzero → class_of (state c) b = Nonzero →
  let new_add := next_unique c in
  let add_node := mkNode (next_node c) aten_add [a; b] [new_add] [] in
  ∃ st',
    let c' :=
      {| before := map_uses (subst_value o new_add) <$> (before c ++ [add_node]);
         pending := map_uses (subst_value o new_add) <$> ns;
         block_outs := subst_value o new_add <$> block_outs c;
         next_unique := Pos.succ (next_unique c);
         next_node := Pos.succ (next_node c);
         state := <[new_add := Nonzero]> st' |} in
    step c = Done c' ∧
    reads_only [a; b] (state c) st' ∧
    (a ≠ o → b ≠ o → map_uses (subst_value o new_add) add_node = add_node) ∧
    class_of (state c') new_add = Nonzero ∧
    (new_add ≠ o → o ∉ all_uses c') ∧
    (node_id n ∉ all_ids c') ∧
    (∀ fuel c_end, scan fuel c' = Done c_end → node_id n ∉ all_ids c_end).
Proof.
  intros Hp Hk Ha Hb Ho%output_Some Hids Hca Hcb new_add add_node.
  destruct (visit_AutogradAdd_both_Nonzero n c ns a b o) as (st' & Hr & Hv); try done.
  exists st'. intros c'.
  destruct (ids_replaced c n ns (subst_value o new_add) aten_add [a; b] [new_add]
              (before c' ++ pending c') Hids Hp) as [Hgone Hlt].
  { unfold c'. cbn [before pending]. by rewrite <- fmap_app, <- !(assoc_L (++)). }
  split_and!; try done.
  - by rewrite (step_visit _ _ _ Hp).
  - intros Hao Hbo. cbn. unfold subst_value. by rewrite !decide_False.
  - rewrite class_of_lookup. cbn. by rewrite lookup_insert_eq.
  - intros Hne. unfold c'. rewrite all_uses_map_uses.
    intros (u & Hu & _)%list_elem_of_fmap. by eapply subst_value_range.
  - intros fuel c_end Hs. eapply (gone_for_good (node_id n) c'); [done| |done].
    cbn. lia.
Qed.

(** C8. When the scan visits a [prim::AutogradAdd] node neither input of
    which is classified [Zero] and one input of which is not classified
    [Nonzero], the graph stays as it is (no node created, moved or removed,
    no use redirected), the cursor moves on and the output of the node is
    classified [Unknown]. *)
Theorem add_kept c n ns a b o :
  pending c = n :: ns → kind n = prim_AutogradAdd →
  inputs n !! 0%nat = Some a → inputs n !! 1%nat = Some b → outputs n = [o] →
  class_of (state c) a ≠ Zero → class_of (state c) b ≠ Zero →
  class_of (state c) a ≠ Nonzero ∨ class_of (state c) b ≠ Nonzero →
  ∃ st',
    let c' :=
      {| before := before c ++ [n];
         pending := ns;
         block_outs := block_outs c;
         next_unique := next_unique c;
         next_node := next_node c;
         state := <[o := Unknown]> st' |} in
    step c = Done c' ∧
    reads_only [a; b] (state c) st' ∧
    class_of (state c') o = Unknown ∧
    before c' ++ pending c' = before c ++ pending c ∧
    (class_of (state c) a = Unknown ∨ class_of (state c) b = Unknown).
Proof.
  intros Hp Hk Ha Hb Ho%output_Some Hna Hnb Hnot.
  destruct (visit_AutogradAdd_kept n c ns a b o) as (st' & Hr & Hv); try done.
  { tauto. }
  exists st'. intros c'. split_and!; try done.
  - by rewrite (step_visit _ _ _ Hp).
  - rewrite class_of_lookup. cbn. by rewrite lookup_insert_eq.
  - cbn. by rewrite Hp, <- (assoc_L (++)).
  - destruct (class_of (state c) a), (class_of (state c) b); naive_solver.
Qed.

(** C5. On a graph whose nodes have the shape of their kind, the pass
    either ends normally or is ended by the assertion of the
    [prim::GradOf] rule; the latter happens exactly when the scan reaches a
    [prim::GradOf] node with an input that is not classified [Zero] and an
    input classified [Unknown], and then the graph is left as it was when
    the cursor came to stand on that node. *)
Theorem only_failure (g : Graph) :
  Forall (λ n, well_shaped n) (block_nodes (g_block g)) →
  ((∃ g', specializeAutogradZero g = Done g') ∨
   (∃ c n ns, reached g c ∧ pending c = n :: ns ∧ kind n = prim_GradOf ∧
      Exists (λ v, class_of (state c) v ≠ Zero) (inputs n) ∧
      Exists (λ v, class_of (state c) v = Unknown) (inputs n) ∧
      specializeAutogradZero g = Aborted AssertFailed (graph_of g c))) ∧
  (∀ c n ns, reached g c → pending c = n :: ns → kind n = prim_GradOf →
      Exists (λ v, class_of (state c) v ≠ Zero) (inputs n) →
      Exists (λ v, class_of (state c) v = Unknown) (inputs n) →
      specializeAutogradZero g = Aborted AssertFailed (graph_of g c)).
Proof.
  intros Hws. split.
  - unfold specializeAutogradZero.
    destruct (scan_outcome g (2 * length (block_nodes (g_block g))) (start g))
      as [(c' & -> & _ & _)|(c1 & n & ns & st' & Hr & Hp & Hk & Hz & Hu & ->)].
    + constructor.
    + apply iterations_left_bound.
    + done.
    + left. eauto.
    + right. exists c1, n, ns. split_and!; try done.
      * by apply not_all_Zero.
      * by apply not_all_known.
  - intros c n ns Hr Hp Hk Hz%not_all_Zero Hu%not_all_known.
    unfold specializeAutogradZero.
    destruct (reached_scan g c Hr) as (fuel & Hle & ->).
    destruct fuel as [|fuel]; [rewrite Hp in Hle; unfold iterations_left in Hle; cbn in Hle; lia|].
    rewrite (scan_cons _ _ _ _ Hp).
    pose proof (reached_well_shaped g c Hws Hr) as Hwc. rewrite Hp in Hwc.
    apply Forall_cons in Hwc as [Hn _].
    destruct (visit_GradOf_Unknown n c) as (st' & ->); try done.
    unfold well_shaped in Hn. rewrite Hk in Hn.
    destruct n as [? ? ? ? [|? ?]]; cbn in *; [done|eauto].
Qed.

Ltac by_compute := apply (bool_decide_unpack _); vm_compute; exact I.

Lemma visit_GradOf_state n c ns c' :
  pending c = n :: ns → kind n = prim_GradOf → visit n c = Done c' →
  reads_only (inputs n) (state c) (state c').
Proof.
  intros Hp Hk Hv.
  destruct (decide (Forall (λ v, class_of (state c) v = Zero) (inputs n))) as [Hz|Hz].
  - rewrite (visit_GradOf_all_Zero n c ns) in Hv by done. simplify_eq. cbn.
    apply reads_only_refl.
  - destruct (visit_GradOf_not_all_Zero n c Hk Hz) as (st1 & st2 & _ & Hr & E).
    rewrite E in Hv. destruct (blocks n !! 0%nat) as [body|]; [|done].
    case_bool_decide; [|done].
    destruct (rewire_outputs_map (outputs n) 0 (hoist_body body (set_state st2 c)))
      as (f & [Hf|Hf]); rewrite Hf in Hv; [|done]. cbn in Hv. by simplify_eq.
Qed.

(** C1, as the code has it. A value without an entry in the
    classification map reads as [Nonzero], the value-initialised state, and
    such reads occur: the visit of a [prim::GradOf] node enters no
    classification but the default for inputs it reads, so a value that is
    unclassified before the visit and is not an input of the region (the
    output of a node spliced out of its body, which the scan does not
    revisit) is unclassified after it and yields [Nonzero] when a later node
    looks it up. *)
Theorem unclassified_reads_Nonzero c n ns c' v :
  pending c = n :: ns → kind n = prim_GradOf → step c = Done c' →
  state c !! v = None → v ∉ inputs n →
  state c' !! v = None ∧
  state_at (state c') v = (Nonzero, <[v := Nonzero]> (state c')) ∧
  class_of (state c') v = Nonzero.
Proof.
  intros Hp Hk Hs Hnone Hv. rewrite (step_visit _ _ _ Hp) in Hs.
  pose proof (visit_GradOf_state n c ns c' Hp Hk Hs) as Hr.
  assert (Hnone' : state c' !! v = None).
  { destruct (Hr v) as [->|(Hin & _)]; [done|]. by destruct Hv. }
  split_and!; [done|by apply state_at_None|].
  by rewrite class_of_lookup, Hnone'.
Qed.

(** ** A second run: classifications *)

Lemma class_of_insert (st : StateMap) o x v :
  class_of (<[o := x]> st) v = if decide (v = o) then x else class_of st v.
Proof.
  rewrite !class_of_lookup. case_decide as E.
  - subst. by rewrite lookup_insert_eq.
  - by rewrite lookup_insert_ne.
Qed.

Lemma related_refl st : related st st.
Proof. by intros v. Qed.

Lemma related_reads_l vs (s1 s1' s2 : StateMap) :
  reads_only vs s1 s1' → related s1 s2 → related s1' s2.
Proof. intros Hr H v. rewrite (reads_only_class _ _ _ _ Hr). apply H. Qed.

Lemma related_reads_r vs (s1 s2 s2' : StateMap) :
  reads_only vs s2 s2' → related s1 s2 → related s1 s2'.
Proof. intros Hr H v. rewrite (reads_only_class _ _ _ _ Hr). apply H. Qed.

Lemma related_insert (st st' : StateMap) o x :
  related st st' → related (<[o := x]> st) (<[o := x]> st').
Proof.
  intros H v. rewrite !class_of_insert. case_decide; [done|]. apply H.
Qed.

Lemma related_Unknown_r (st st' : StateMap) o :
  related st st' → related st (<[o := Unknown]> st').
Proof.
  intros H v. rewrite !class_of_insert. case_decide; [done|]. apply H.
Qed.

Lemma related_fold_Unknown outs : ∀ st st' : StateMap,
  related st st' →
  related (foldl (λ st o, <[o := Unknown]> st) st outs)
          (foldl (λ st o, <[o := Unknown]> st) st' outs).
Proof.
  induction outs as [|o outs IH]; intros st st' H; [done|].
  cbn. apply IH. by apply related_insert.
Qed.

Lemma related_fold_Unknown_r outs : ∀ st st' : StateMap,
  related st st' → related st (foldl (λ st o, <[o := Unknown]> st) st' outs).
Proof.
  induction outs as [|o outs IH]; intros st st' H; [done|].
  cbn. apply IH. by apply related_Unknown_r.
Qed.

Lemma related_promote (st st' : StateMap) new :
  related st st' → related (<[new := Nonzero]> st) (<[new := Unknown]> st').
Proof.
  intros H v. rewrite !class_of_insert. case_decide; [done|]. apply H.
Qed.

(** ** A second run: nodes that stay *)

Lemma walks_over_snoc l : ∀ c c1 m ns st',
  walks_over l c c1 → pending c1 = m :: ns →
  visit m c1 = Done (moved_on c1 m ns st') →
  walks_over (l ++ [m]) c (moved_on c1 m ns st').
Proof.
  intros c c1 m ns st' Hw. revert m ns st'.
  induction Hw as [c|n l ns0 st0 c c' Hp Hv _ IH]; intros m ns st' Hp1 Hv1.
  - cbn. eapply walks_over_cons; [done..|]. constructor.
  - cbn. eapply walks_over_cons; [done..|]. by apply IH.
Qed.

Lemma walks_over_scan l c c' :
  walks_over l c c' → ∀ fuel, scan (length l + fuel) c = scan fuel c'.
Proof.
  induction 1 as [c|n l ns st' c c' Hp Hv _ IH]; intros fuel; [done|].
  cbn [length Nat.add]. rewrite (scan_cons _ _ _ _ Hp), Hv. cbn. apply IH.
Qed.

Lemma rescan_nil st0 (R : StateMap → Prop) : R st0 → rescan [] st0 R.
Proof.
  intros HR bs ns outs nu nn. exists st0. split; [done|].
  cbn. rewrite app_nil_r. constructor.
Qed.

Lemma rescan_snoc l m st0 (R R' : StateMap → Prop) :
  rescan l st0 R →
  (∀ c ns, R (state c) → pending c = m :: ns →
     ∃ st', R' st' ∧ visit m c = Done (moved_on c m ns st')) →
  rescan (l ++ [m]) st0 R'.
Proof.
  intros Hl Hm bs ns outs nu nn.
  destruct (Hl bs (m :: ns) outs nu nn) as (st & HR & Hw).
  destruct (Hm {| before := bs ++ l; pending := m :: ns; block_outs := outs;
                  next_unique := nu; next_node := nn; state := st |} ns HR eq_refl)
    as (st' & HR' & Hv).
  exists st'. split; [done|].
  pose proof (walks_over_snoc _ _ _ m ns st' Hw eq_refl Hv) as Hw'.
  unfold moved_on in Hw'. cbn in Hw'.
  by rewrite <- !(assoc_L (++)) in *.
Qed.

Lemma rescan_weaken l st0 (R R' : StateMap → Prop) :
  (∀ st, R st → R' st) → rescan l st0 R → rescan l st0 R'.
Proof.
  intros HRR Hl bs ns outs nu nn.
  destruct (Hl bs ns outs nu nn) as (st & HR & Hw). exists st. auto.
Qed.

Lemma rescan_plain mid : ∀ l st0 st1,
  Forall plain mid → rescan l st0 (related st1) → rescan (l ++ mid) st0 (related st1).
Proof.
  induction mid as [|m mid IH]; intros l st0 st1 Hpl Hl.
  - by rewrite app_nil_r.
  - apply Forall_cons in Hpl as [Hm Hpl].
    replace (l ++ m :: mid) with ((l ++ [m]) ++ mid) by (by rewrite <- (assoc_L (++))).
    apply IH; [done|].
    eapply rescan_snoc; [exact Hl|]. intros c ns HR Hp.
    eexists. split; [|by apply visit_plain]. by apply related_fold_Unknown_r.
Qed.

Lemma rescan_end l st0 (R : StateMap → Prop) outs nu nn :
  rescan l st0 R →
  ∃ st, walks_over l
          {| before := []; pending := l; block_outs := outs;
             next_unique := nu; next_node := nn; state := st0 |}
          {| before := l; pending := []; block_outs := outs;
             next_unique := nu; next_node := nn; state := st |}.
Proof.
  intros Hl. destruct (Hl [] [] outs nu nn) as (st & _ & Hw). exists st.
  by rewrite app_nil_r in Hw.
Qed.

(** ** A second run: scoping *)

Arguments defs : simpl never.

Lemma uses_Forall_impl (P Q : Value → Prop) (l : list Node) :
  Forall (λ m, Forall P (uses m)) l → (∀ u, P u → Q u) →
  Forall (λ m, Forall Q (uses m)) l.
Proof.
  intros H HPQ. eapply Forall_impl; [exact H|]. intros m Hm. cbn in Hm.
  eapply Forall_impl; [exact Hm|]. done.
Qed.

Lemma defs_cons n ns : defs (n :: ns) = outputs n ++ defs ns.
Proof. done. Qed.

Lemma uses_inputs n v : v ∈ inputs n → v ∈ uses n.
Proof. destruct n. cbn. set_solver. Qed.

Lemma uses_body n body :
  blocks n !! 0%nat = Some body →
  (∀ v, v ∈ block_outputs body → v ∈ uses n) ∧
  (∀ m v, m ∈ block_nodes body → v ∈ uses m → v ∈ uses n).
Proof.
  destruct n as [id k ins outs bs]. cbn. intros Hb.
  destruct bs as [|b bs]; simplify_eq/=. destruct body as [bns bouts]. cbn. split.
  - intros v Hv. set_solver.
  - intros m v Hm Hv. rewrite !elem_of_app. right. left. left.
    apply list_elem_of_bind. eauto.
Qed.

Lemma plain_body_map_uses f n : plain_body n → plain_body (map_uses f n).
Proof.
  unfold plain_body. rewrite kind_map_uses, blocks_map_uses. intros H Hk body Hb.
  rewrite list_lookup_fmap in Hb. destruct (blocks n !! 0%nat) as [b|] eqn:E; simplify_eq/=.
  rewrite block_nodes_map_uses. apply Forall_fmap.
  eapply Forall_impl; [by apply H|]. intros m. unfold plain. cbn.
  by rewrite kind_map_uses.
Qed.

Lemma order_map f ns :
  definition_order ns → (∀ u, f u = u ∨ f u ∉ defs ns) →
  definition_order (map_uses f <$> ns).
Proof.
  induction ns as [|n ns IH]; intros Hord Hf; [done|].
  destruct Hord as [Hn Hord]. cbn [fmap list_fmap definition_order]. split.
  - change (map_uses f n :: (map_uses f <$> ns)) with (map_uses f <$> (n :: ns)).
    rewrite defs_map_uses, uses_map_uses. apply Forall_fmap.
    rewrite Forall_forall in Hn |- *. intros u Hu. cbn.
    destruct (Hf u) as [->|?]; [by apply Hn|done].
  - apply IH; [done|]. intros u. destruct (Hf u) as [?|Hu]; [by left|right].
    rewrite defs_cons in Hu. set_solver.
Qed.

Lemma scoped_head c n ns :
  scoped c → pending c = n :: ns →
  ∀ u, u ∈ uses n → (u ∉ outputs n) ∧ (u ∉ defs ns) ∧ (u < next_unique c)%positive.
Proof.
  intros [_ Hord Hfu _ _] Hp u Hu. rewrite Hp in *.
  destruct Hord as [Hn _]. rewrite Forall_forall in Hn. specialize (Hn u Hu).
  rewrite defs_cons in Hn. rewrite Forall_app, Forall_cons in Hfu.
  destruct Hfu as (_ & Hfu & _). rewrite Forall_forall in Hfu.
  split_and!; [set_solver|set_solver|auto].
Qed.

Lemma scoped_before_fixed c n ns f :
  scoped c → pending c = n :: ns →
  (∀ u, u ∉ outputs n → f u = u) → map_uses f <$> before c = before c.
Proof.
  intros [Hb _ _ _ _] Hp Hf. rewrite Hp in Hb. apply map_uses_list_id_in.
  eapply uses_Forall_impl; [exact Hb|]. intros u Hu. apply Hf.
  rewrite defs_cons in Hu. set_solver.
Qed.

Lemma scoped_kept c n ns outs' nn' st' :
  scoped c → pending c = n :: ns →
  scoped {| before := before c ++ [n]; pending := ns; block_outs := outs';
            next_unique := next_unique c; next_node := nn'; state := st' |}.
Proof.
  intros Hsc Hp. pose proof (scoped_head c n ns Hsc Hp) as Hhead.
  destruct Hsc as [Hb Hord Hfu Hfd Hpl]. rewrite Hp in *.
  destruct Hord as [Hn Hord]. split; cbn.
  - apply Forall_app. split.
    + eapply uses_Forall_impl; [exact Hb|]. intros u Hu.
      rewrite defs_cons in Hu. set_solver.
    + repeat constructor. apply Forall_forall. intros u Hu. by apply Hhead.
  - done.
  - by rewrite <- (assoc_L (++)).
  - rewrite defs_cons, Forall_app in Hfd. tauto.
  - by apply Forall_cons in Hpl as [_ ?].
Qed.

Lemma scoped_rewrite c n ns f mid nu' outs' nn' st' :
  scoped c → pending c = n :: ns →
  (∀ u, u ∉ outputs n → f u = u) →
  (∀ u, f u = u ∨ ((f u ∉ defs ns) ∧ (f u < nu')%positive)) →
  (next_unique c ≤ nu')%positive →
  Forall (λ m, Forall (λ u, (u ∉ defs (n :: ns)) ∧ (u < nu')%positive) (uses m)) mid →
  map_uses f <$> (before c ++ mid) = before c ++ mid ∧
  scoped {| before := before c ++ mid; pending := map_uses f <$> ns; block_outs := outs';
            next_unique := nu'; next_node := nn'; state := st' |}.
Proof.
  intros Hsc Hp Hfix Hf Hle Hmid. split.
  { rewrite fmap_app, (scoped_before_fixed c n ns f) by done. f_equal.
    apply map_uses_list_id_in. eapply uses_Forall_impl; [exact Hmid|].
    intros u [Hu _]. apply Hfix. rewrite defs_cons in Hu. set_solver. }
  destruct Hsc as [Hb Hord Hfu Hfd Hpl]. rewrite Hp in *.
  destruct Hord as [Hn Hord]. rewrite defs_cons, Forall_app in Hfd.
  destruct Hfd as [_ Hfd].
  rewrite !Forall_app, Forall_cons in Hfu. destruct Hfu as (Hfb & _ & Hfns).
  apply Forall_cons in Hpl as [_ Hpl].
  split; cbn.
  - rewrite defs_map_uses. apply Forall_app. split.
    + eapply uses_Forall_impl; [exact Hb|]. intros u Hu.
      rewrite defs_cons in Hu. set_solver.
    + eapply uses_Forall_impl; [exact Hmid|]. intros u [Hu _].
      rewrite defs_cons in Hu. set_solver.
  - apply order_map; [done|]. intros u. destruct (Hf u) as [?|[? _]]; auto.
  - rewrite !Forall_app. split_and!.
    + eapply uses_Forall_impl; [exact Hfb|]. intros u Hu. cbn in Hu. lia.
    + eapply uses_Forall_impl; [exact Hmid|]. by intros u [_ Hu].
    + apply Forall_fmap. eapply Forall_impl; [exact Hfns|]. intros m Hm. cbn in *.
      rewrite uses_map_uses. apply Forall_fmap.
      eapply Forall_impl; [exact Hm|]. intros u Hu. cbn in *.
      destruct (Hf u) as [->|[_ ?]]; [lia|done].
  - rewrite defs_map_uses. eapply Forall_impl; [exact Hfd|]. intros u Hu. cbn in Hu. lia.
  - apply Forall_fmap. eapply Forall_impl; [exact Hpl|]. intros m Hm.
    by apply plain_body_map_uses.
Qed.

Lemma scoped_collapse c n ns outs' nn' st' :
  scoped c → pending c = n :: ns →
  let f := redirect (outputs n) (next_unique c) in
  map_uses f <$> before c = before c ∧
  scoped {| before := before c;
            pending := mkNode (next_node c) prim_AutogradZero [] [next_unique c] []
                       :: (map_uses f <$> ns);
            block_outs := outs'; next_unique := Pos.succ (next_unique c);
            next_node := nn'; state := st' |}.
Proof.
  intros Hsc Hp f.
  assert (Hfix : ∀ u, u ∉ outputs n → f u = u).
  { intros u Hu. unfold f, redirect. by rewrite decide_False. }
  destruct (scoped_rewrite c n ns f [] (Pos.succ (next_unique c)) outs' nn' st' Hsc Hp Hfix)
    as [Hb [Hb' Hord' Hfu' Hfd' Hpl']]; [| lia | done |].
  { intros u. unfold f, redirect. case_decide; [right|by left].
    split; [|lia]. destruct Hsc as [_ _ _ Hfd _]. rewrite Hp, defs_cons in Hfd.
    rewrite Forall_app in Hfd. destruct Hfd as [_ Hfd].
    rewrite Forall_forall in Hfd. intros Hin. specialize (Hfd _ Hin). lia. }
  cbn in *. rewrite app_nil_r in *. split; [done|].
  destruct Hsc as [_ _ Hfu _ _]. rewrite Forall_app in Hfu. destruct Hfu as [Hfu _].
  split; cbn.
  - rewrite Forall_forall in Hb', Hfu |- *. intros m Hm.
    specialize (Hb' m Hm). specialize (Hfu m Hm). cbn in *.
    rewrite Forall_forall in Hb', Hfu |- *. intros u Hu. rewrite defs_cons. cbn.
    intros [->|Hin]%elem_of_cons.
    + specialize (Hfu _ Hu). cbn in Hfu. lia.
    + by apply (Hb' u Hu).
  - split; [constructor|done].
  - rewrite Forall_app in Hfu' |- *. destruct Hfu' as [? ?].
    split; [done|]. by constructor.
  - rewrite defs_cons. cbn. constructor; [lia|done].
  - constructor; [|done]. by intros ?.
Qed.

Lemma rewire_outputs_Done_length outs : ∀ i c n ns body c',
  pending c = n :: ns → blocks n !! 0%nat = Some body →
  i ≤ length (block_outputs body) →
  rewire_outputs outs i c = Done c' →
  i + length outs ≤ length (block_outputs body).
Proof.
  induction outs as [|o outs IH]; intros i c n ns body c' Hp Hb Hi Hr.
  - cbn. lia.
  - cbn [rewire_outputs] in Hr. unfold current_body in Hr. rewrite Hp in Hr.
    cbn in Hr. rewrite Hb in Hr. cbn in Hr.
    destruct (block_outputs body !! i) as [w|] eqn:Hw; [|done].
    apply lookup_lt_Some in Hw.
    eapply (IH (S i) _ (map_uses (subst_value o w) n) (map_uses (subst_value o w) <$> ns)
              (map_uses_block (subst_value o w) body)) in Hr.
    + rewrite block_outputs_map_uses, length_fmap in Hr. cbn. lia.
    + unfold replaceAllUsesWith, map_uses_scan. cbn. by rewrite Hp.
    + by rewrite blocks_map_uses, list_lookup_fmap, Hb.
    + rewrite block_outputs_map_uses, length_fmap. lia.
Qed.

Lemma rewiring_cases outs : ∀ bouts v,
  rewiring outs bouts v = v ∨ rewiring outs bouts v ∈ bouts.
Proof.
  induction outs as [|o outs IH]; intros [|w bouts] v; cbn; auto.
  case_decide; [right; set_solver|]. destruct (IH bouts v); [by left|right; set_solver].
Qed.

Lemma subst_value_cases old new v : subst_value old new v = v ∨ subst_value old new v = new.
Proof. unfold subst_value. case_decide; auto. Qed.

Lemma subst_value_other old new v : v ≠ old → subst_value old new v = v.
Proof. unfold subst_value. intros. by rewrite decide_False. Qed.

Lemma scoped_not_def c n ns u :
  scoped c → pending c = n :: ns → u ∈ uses n → u ∉ defs (n :: ns).
Proof.
  intros Hsc Hp Hu. destruct (scoped_head c n ns Hsc Hp u Hu) as (? & ? & _).
  rewrite defs_cons. set_solver.
Qed.

(** One visit of the first run keeps the scoping, and the nodes it leaves
    before the cursor are nodes a second run walks over. *)
Lemma visit_second_run seeds c n ns c' :
  scoped c → rescan (before c) seeds (related (state c)) →
  pending c = n :: ns → visit n c = Done c' →
  scoped c' ∧ rescan (before c') seeds (related (state c')).
Proof.
  intros Hsc Hre Hp Hv.
  pose proof (scoped_head c n ns Hsc Hp) as Hhead.
  assert (Hkept : ∀ st',
    (∀ c2 ns2, related (state c) (state c2) → pending c2 = n :: ns2 →
       ∃ st2, related st' st2 ∧
         visit n c2 = Done
           {| before := before c2 ++ [n]; pending := ns2; block_outs := block_outs c2;
              next_unique := next_unique c2; next_node := next_node c2; state := st2 |}) →
    c' = {| before := before c ++ [n]; pending := ns; block_outs := block_outs c;
            next_unique := next_unique c; next_node := next_node c; state := st' |} →
    scoped c' ∧ rescan (before c') seeds (related (state c'))).
  { intros st' Hstay ->. split; [by apply scoped_kept|]. cbn.
    eapply rescan_snoc; [exact Hre|]. done. }
  assert (Hdrop : ∀ f st',
    (∀ u, u ∉ outputs n → f u = u) → (∀ u, f u = u ∨ f u ∈ uses n) →
    (∃ vs, reads_only vs (state c) st') →
    c' = {| before := map_uses f <$> before c; pending := map_uses f <$> ns;
            block_outs := f <$> block_outs c; next_unique := next_unique c;
            next_node := next_node c; state := st' |} →
    scoped c' ∧ rescan (before c') seeds (related (state c'))).
  { intros f st' Hfix Hf [vs Hr] ->.
    destruct (scoped_rewrite c n ns f [] (next_unique c) (f <$> block_outs c)
                (next_node c) st' Hsc Hp Hfix) as [Hb Hsc']; [|lia|done|].
    { intros u. destruct (Hf u) as [?|Hu]; [by left|right].
      destruct (Hhead _ Hu) as (_ & ? & ?). done. }
    rewrite !app_nil_r in *. cbn. rewrite Hb. split; [done|].
    eapply rescan_weaken; [|exact Hre]. intros st Hst. by eapply related_reads_l. }
  destruct (kind n) eqn:Hk.
  - (* prim::GradOf *)
    destruct (decide (Forall (λ v, class_of (state c) v = Zero) (inputs n))) as [Hz|Hz].
    + rewrite (visit_GradOf_all_Zero n c ns) in Hv by done. simplify_eq.
      destruct (scoped_collapse c n ns
                  (redirect (outputs n) (next_unique c) <$> block_outs c)
                  (Pos.succ (next_node c)) (state c) Hsc Hp) as [Hb Hsc'].
      cbn. rewrite Hb. done.
    + destruct (visit_GradOf_not_all_Zero n c Hk Hz) as (st1 & st2 & _ & _ & E).
      rewrite E in Hv. destruct (blocks n !! 0%nat) as [body|] eqn:Hb; [|done].
      case_bool_decide as Hkn; [|done].
      destruct (rewire_outputs (outputs n) 0 (hoist_body body (set_state st2 c)))
        as [c''| |] eqn:Hrw; [|done..].
      assert (Hlen : length (outputs n) ≤ length (block_outputs body)).
      { eapply (rewire_outputs_Done_length (outputs n) 0 _ (without_body_nodes n) ns
                  (mkBlock [] (block_outputs body))) in Hrw; cbn in *; [lia| | |lia].
        - unfold hoist_body. cbn. by rewrite Hp.
        - destruct n as [? ? ? ? bs0]. cbn in Hb. destruct bs0; simplify_eq/=.
          by destruct body. }
      destruct (uses_body n body Hb) as [Hbo Hbn].
      rewrite <- E in Hv.
      destruct (visit_GradOf_splice n c ns body) as (st' & Hr & Hv'); try done.
      { intros o Ho Hin. by destruct (Hhead o (Hbo o Hin)). }
      rewrite Hv' in Hv. simplify_eq.
      destruct (scoped_rewrite c n ns (rewiring (outputs n) (block_outputs body))
                  (block_nodes body) (next_unique c)
                  (rewiring (outputs n) (block_outputs body) <$> block_outs c)
                  (next_node c) st' Hsc Hp) as [Hbf Hsc']; [| |lia| |].
      { intros u Hu. by apply rewiring_other. }
      { intros u. destruct (rewiring_cases (outputs n) (block_outputs body) u) as [?|Hu];
          [by left|right].
        destruct (Hhead _ (Hbo _ Hu)) as (_ & ? & ?). done. }
      { apply Forall_forall. intros m Hm. apply Forall_forall. intros u Hu.
        split; [by eapply scoped_not_def; eauto|].
        by destruct (Hhead u (Hbn m u Hm Hu)) as (_ & _ & ?). }
      cbn. rewrite Hbf. split; [done|].
      apply rescan_plain.
      * destruct Hsc as [_ _ _ _ Hpl]. rewrite Hp in Hpl.
        apply Forall_cons in Hpl as [Hpb _]. by apply Hpb.
      * eapply rescan_weaken; [|exact Hre]. intros st Hst. by eapply related_reads_l.
  - (* prim::AutogradAdd *)
    destruct (inputs n !! 0%nat) as [a|] eqn:Ha;
      [|by rewrite visit_AutogradAdd_no_input in Hv by auto].
    destruct (inputs n !! 1%nat) as [b|] eqn:Hb;
      [|by rewrite visit_AutogradAdd_no_input in Hv by auto].
    assert (Hua : a ∈ uses n).
    { apply uses_inputs. by eapply list_elem_of_lookup_2. }
    assert (Hub : b ∈ uses n).
    { apply uses_inputs. by eapply list_elem_of_lookup_2. }
    destruct (decide (class_of (state c) a = Zero)) as [Hza|Hza].
    { rewrite (visit_AutogradAdd_left n c a b) in Hv by done.
      destruct (output n) as [o|] eqn:Ho; [|done]. simplify_eq.
      apply output_Some in Ho.
      apply (Hdrop (subst_value o b) (state c)).
      - intros u Hu. apply subst_value_other. rewrite Ho in Hu. set_solver.
      - intros u. destruct (subst_value_cases o b u) as [->| ->]; auto.
      - exists []. apply reads_only_refl.
      - unfold replaceAllUsesWith, map_uses_scan, destroyCurrent. cbn. by rewrite Hp. }
    destruct (decide (class_of (state c) b = Zero)) as [Hzb|Hzb].
    { destruct (visit_AutogradAdd_right n c a b) as (st' & Hr & E); try done.
      rewrite E in Hv. destruct (output n) as [o|] eqn:Ho; [|done]. simplify_eq.
      apply output_Some in Ho.
      apply (Hdrop (subst_value o a) st').
      - intros u Hu. apply subst_value_other. rewrite Ho in Hu. set_solver.
      - intros u. destruct (subst_value_cases o a u) as [->| ->]; auto.
      - eauto.
      - unfold replaceAllUsesWith, map_uses_scan, destroyCurrent. cbn. by rewrite Hp. }
    destruct (decide (class_of (state c) a = Nonzero ∧ class_of (state c) b = Nonzero))
      as [[Hna Hnb]|Hnot].
    + destruct (output n) as [o|] eqn:Ho.
      2:{ destruct (visit_AutogradAdd_reads n c a b) as (st' & Hr & E); try done.
          rewrite E in Hv. cbn [state set_state] in Hv.
          rewrite Ho in Hv. by case_bool_decide. }
      destruct (visit_AutogradAdd_both_Nonzero n c ns a b o) as (st' & Hr & Hv'); try done.
      rewrite Hv' in Hv. simplify_eq. apply output_Some in Ho.
      destruct (scoped_rewrite c n ns (subst_value o (next_unique c))
                  [mkNode (next_node c) aten_add [a; b] [next_unique c] []]
                  (Pos.succ (next_unique c))
                  (subst_value o (next_unique c) <$> block_outs c)
                  (Pos.succ (next_node c)) (<[next_unique c := Nonzero]> st') Hsc Hp)
        as [Hbf Hsc']; [| |lia| |].
      { intros u Hu. apply subst_value_other. rewrite Ho in Hu. set_solver. }
      { intros u. destruct (subst_value_cases o (next_unique c) u) as [->| ->];
          [by left|right]. split; [|lia].
        destruct Hsc as [_ _ _ Hfd _]. rewrite Hp, defs_cons, Forall_app in Hfd.
        destruct Hfd as [_ Hfd]. rewrite Forall_forall in Hfd.
        intros Hin. specialize (Hfd _ Hin). lia. }
      { repeat constructor.
        - by eapply scoped_not_def; eauto.
        - destruct (Hhead a Hua) as (_ & _ & ?). lia.
        - by eapply scoped_not_def; eauto.
        - destruct (Hhead b Hub) as (_ & _ & ?). lia. }
      cbn. rewrite Hbf. split; [done|].
      eapply rescan_snoc; [exact Hre|]. intros c2 ns2 HR Hp2.
      eexists. split; [|by apply visit_plain]. cbn.
      apply related_promote. by eapply related_reads_l.
    + destruct (output n) as [o|] eqn:Ho.
      2:{ destruct (visit_AutogradAdd_reads n c a b) as (st' & Hr & E); try done.
          rewrite E in Hv. cbn [state set_state] in Hv.
          rewrite Ho in Hv. by case_bool_decide. }
      destruct (visit_AutogradAdd_kept n c ns a b o) as (st' & Hr & Hv'); try done.
      rewrite Hv' in Hv. simplify_eq.
      eapply Hkept; [|done]. intros c2 ns2 HR Hp2.
      destruct (visit_AutogradAdd_kept n c2 ns2 a b o) as (st2 & Hr2 & Hv2); try done.
      * intros Hz2. by apply (HR a) in Hz2.
      * intros Hz2. by apply (HR b) in Hz2.
      * intros [Hn2a Hn2b].
        assert (class_of (state c) a = Unknown ∨ class_of (state c) b = Unknown) as [Hu|Hu].
        { destruct (class_of (state c) a), (class_of (state c) b); naive_solver. }
        -- apply (HR a) in Hu. congruence.
        -- apply (HR b) in Hu. congruence.
      * exists (<[o := Unknown]> st2). split; [|done].
        apply related_insert. eapply related_reads_l; [exact Hr|].
        by eapply related_reads_r.
  - (* prim::AutogradZero *)
    unfold visit in Hv. rewrite Hk in Hv. unfold rule_AutogradZero in Hv.
    destruct (output n) as [o|] eqn:Ho; [|done]. simplify_eq.
    eapply Hkept.
    + intros c2 ns2 HR Hp2. eexists. split; [|by apply visit_AutogradZero].
      by apply related_insert.
    + unfold advance. cbn. by rewrite Hp.
  - rewrite (visit_plain n c ns) in Hv; [|done|by unfold plain; rewrite Hk].
    simplify_eq. eapply Hkept; [|done]. intros c2 ns2 HR Hp2.
    eexists. split; [|apply visit_plain; [done|by unfold plain; rewrite Hk]].
    by apply related_fold_Unknown.
  - rewrite (visit_plain n c ns) in Hv; [|done|by unfold plain; rewrite Hk].
    simplify_eq. eapply Hkept; [|done]. intros c2 ns2 HR Hp2.
    eexists. split; [|apply visit_plain; [done|by unfold plain; rewrite Hk]].
    by apply related_fold_Unknown.
Qed.

Lemma reached_second_run g c :
  gradient_graph g → reached g c →
  scoped c ∧ rescan (before c) (state (start g)) (related (state c)).
Proof.
  intros [Hord Hfu Hfd Hpl]. induction 1 as [|c n ns c' _ [Hsc Hre] Hp Hv].
  - split; [|apply rescan_nil, related_refl]. by split.
  - by eapply visit_second_run.
Qed.

Lemma scan_Done_reached g fuel : ∀ c c',
  reached g c → scan fuel c = Done c' → reached g c' ∧ pending c' = [].
Proof.
  induction fuel as [|fuel IH]; intros c c' Hr Hs.
  - cbn in Hs. destruct (pending c) eqn:Hp; by simplify_eq.
  - destruct (pending c) as [|n ns] eqn:Hp.
    { rewrite scan_nil in Hs by done. by simplify_eq. }
    rewrite (scan_cons _ _ _ _ Hp) in Hs.
    destruct (visit n c) as [c1| |] eqn:Hv; try done. cbn in Hs.
    eapply IH; [|done]. by eapply reached_visit.
Qed.

(** C9, as the code has it. On a gradient graph (nodes in definition
    order, values numbered below the source of fresh numbers, conditional
    regions whose bodies hold no [prim::GradOf], [prim::AutogradAdd] or
    [prim::AutogradZero] node) on which the pass ends normally, a second
    run walks over the nodes one by one, each visit leaving the graph as it
    is, and ends normally with the graph, its nodes, uses and sources of
    fresh identities, as the first run left it. *)
Theorem second_run_changes_nothing (g g' : Graph) :
  gradient_graph g →
  specializeAutogradZero g = Done g' →
  specializeAutogradZero g' = Done g' ∧
  ∃ st, walks_over (block_nodes (g_block g')) (start g')
          {| before := block_nodes (g_block g'); pending := [];
             block_outs := block_outputs (g_block g');
             next_unique := g_next_unique g'; next_node := g_next_node g';
             state := st |}.
Proof.
  intros Hgg Hrun. unfold specializeAutogradZero in Hrun.
  destruct (scan _ (start g)) as [c| |] eqn:Hs; simplify_eq/=.
  destruct (scan_Done_reached g _ _ _ (reached_start g) Hs) as [Hr Hp].
  destruct (reached_second_run g c Hgg Hr) as [_ Hre].
  destruct (rescan_end _ _ _ (block_outs c) (next_unique c) (next_node c) Hre)
    as (st & Hw).
  assert (Hnodes : block_nodes (g_block (graph_of g c)) = before c).
  { cbn. by rewrite Hp, app_nil_r. }
  assert (Hstart : start (graph_of g c)
            = {| before := []; pending := before c; block_outs := block_outs c;
                 next_unique := next_unique c; next_node := next_node c;
                 state := state (start g) |}).
  { unfold start. rewrite Hnodes. done. }
  split.
  - unfold specializeAutogradZero. rewrite Hnodes, Hstart.
    replace (2 * length (before c)) with (length (before c) + length (before c)) by lia.
    rewrite (walks_over_scan _ _ _ Hw), scan_nil by done.
    unfold outcome_graph, graph_of. cbn. by rewrite Hp.
  - exists st. unfold start in *. cbn in Hw |- *. rewrite Hp, !app_nil_r. exact Hw.
Qed.

(** ** The properties on the example graphs *)

Section Instances.
Local Open Scope positive_scope.

Lemma example_ids_ok ns outs : 
  bool_decide (NoDup (ns ≫= node_ids)) = true →
  bool_decide (Forall (λ id, id < 10) (ns ≫= node_ids)) = true →
  ids_ok (start (example_graph ns outs)).
Proof.
  intros H1%bool_decide_eq_true H2%bool_decide_eq_true. by split.
Defined.

(** C1: in [live_region_graph] the output [%11] of the node spliced out of
    the region is read by the [prim::AutogradAdd] node that follows; no
    classification was assigned to it, and the lookup yields [Nonzero], not
    [Unknown]. *)
Lemma unclassified_read_counterexample :
  reached live_region_graph scan_after_splice ∧
  pending scan_after_splice = [add_of 3 11 2 12] ∧
  11 ∈ reads (add_of 3 11 2 12) ∧
  state scan_after_splice !! 11 = None ∧
  class_of (state scan_after_splice) 11 = Nonzero ∧
  class_of (state scan_after_splice) 11 ≠ Unknown.
Proof.
  split_and!.
  - eapply (reached_visit _ (start live_region_graph) live_region
              [add_of 3 10 2 12]); [constructor|done|].
    vm_compute. reflexivity.
  - done.
  - by_compute.
  - vm_compute. reflexivity.
  - vm_compute. reflexivity.
  - vm_compute. discriminate.
Qed.

Lemma unclassified_reads_Nonzero_witness :
  state scan_after_splice !! 11 = None ∧
  state_at (state scan_after_splice) 11
    = (Nonzero, <[11 := Nonzero]> (state scan_after_splice)) ∧
  class_of (state scan_after_splice) 11 = Nonzero.
Proof.
  apply (unclassified_reads_Nonzero (start live_region_graph) live_region
           [add_of 3 10 2 12] scan_after_splice 11).
  - reflexivity.
  - reflexivity.
  - vm_compute. reflexivity.
  - vm_compute. reflexivity.
  - by_compute.
Defined.

Lemma seeding_by_type_witness :
  state (start zero_region_graph) !! 1 = Some Zero ∧
  state (start zero_region_graph) !! 2 = Some Nonzero ∧
  state (start zero_region_graph) !! 3 = Some Unknown.
Proof.
  split_and!.
  - apply (seeding_by_type zero_region_graph 1). by_compute.
  - apply (seeding_by_type zero_region_graph 2). by_compute.
  - apply (seeding_by_type zero_region_graph 3). by_compute.
Defined.

Lemma zero_region_collapse_witness :
  step (start zero_region_graph) = Done
    {| before := [];
       pending := [mkNode 10 prim_AutogradZero [] [20] []; user_of 3 20 12];
       block_outs := [12; 20]; next_unique := 21; next_node := 11;
       state := state (start zero_region_graph) |}.
Proof.
  apply (zero_region_collapse (start zero_region_graph) zero_region [user_of 3 10 12]).
  - reflexivity.
  - reflexivity.
  - by_compute.
  - apply example_ids_ok; vm_compute; reflexivity.
  - by_compute.
Defined.

Lemma empty_region_collapses_witness :
  step (start empty_region_graph) = Done
    {| before := []; pending := [mkNode 10 prim_AutogradZero [] [20] []];
       block_outs := [20]; next_unique := 21; next_node := 11;
       state := state (start empty_region_graph) |}.
Proof.
  apply (empty_region_collapses (start empty_region_graph) empty_region []).
  - reflexivity.
  - reflexivity.
  - reflexivity.
Defined.

Lemma live_region_splice_witness :
  ∃ st', step (start live_region_graph) = Done
    {| before := [neg_in_body]; pending := [add_of 3 11 2 12];
       block_outs := [12]; next_unique := 20; next_node := 10; state := st' |}.
Proof.
  destruct (live_region_splice (start live_region_graph) live_region
              [add_of 3 10 2 12] (mkBlock [neg_in_body] [11])) as (st' & H & _).
  - reflexivity.
  - reflexivity.
  - by_compute.
  - by_compute.
  - reflexivity.
  - vm_compute. lia.
  - by_compute.
  - intros o Ho. revert o Ho. apply Forall_forall. by_compute.
  - apply example_ids_ok; vm_compute; reflexivity.
  - exists st'. exact H.
Defined.

Lemma only_failure_witness :
  specializeAutogradZero unknown_region_graph
  = Aborted AssertFailed unknown_region_graph.
Proof.
  apply (proj2 (only_failure unknown_region_graph ltac:(by_compute))
           (start unknown_region_graph) unknown_region []).
  - constructor.
  - reflexivity.
  - reflexivity.
  - by_compute.
  - by_compute.
Defined.

Lemma add_with_zero_witness :
  step (start (add_graph 1 2)) = Done
    {| before := []; pending := [user_of 3 2 12]; block_outs := [12];
       next_unique := 20; next_node := 10; state := state (start (add_graph 1 2)) |} ∧
  ∃ st', step (start (add_graph 2 1)) = Done
    {| before := []; pending := [user_of 3 2 12]; block_outs := [12];
       next_unique := 20; next_node := 10; state := st' |}.
Proof.
  split.
  - apply (add_with_zero (start (add_graph 1 2)) (add_of 1 1 2 10) [user_of 3 10 12] 1 2 10);
      try reflexivity.
    apply example_ids_ok; vm_compute; reflexivity.
  - destruct (add_with_zero (start (add_graph 2 1)) (add_of 1 2 1 10)
                [user_of 3 10 12] 2 1 10) as [_ Hright]; try reflexivity.
    { apply example_ids_ok; vm_compute; reflexivity. }
    destruct Hright as (st' & H & _).
    + vm_compute. discriminate.
    + reflexivity.
    + exists st'. exact H.
Defined.

Lemma add_promotion_witness :
  ∃ st', step (start (add_graph 2 2)) = Done
    {| before := [mkNode 10 aten_add [2; 2] [20] []];
       pending := [user_of 3 20 12]; block_outs := [12];
       next_unique := 21; next_node := 11; state := <[20 := Nonzero]> st' |}.
Proof.
  destruct (add_promotion (start (add_graph 2 2)) (add_of 1 2 2 10)
              [user_of 3 10 12] 2 2 10) as (st' & H & _); try reflexivity.
  - apply example_ids_ok; vm_compute; reflexivity.
  - exists st'. exact H.
Defined.

Lemma add_kept_witness :
  ∃ st', step (start (add_graph 3 2)) = Done
    {| before := [add_of 1 3 2 10]; pending := [user_of 3 10 12]; block_outs := [12];
       next_unique := 20; next_node := 10; state := <[10 := Unknown]> st' |}.
Proof.
  destruct (add_kept (start (add_graph 3 2)) (add_of 1 3 2 10)
              [user_of 3 10 12] 3 2 10) as (st' & H & _); try reflexivity.
  - vm_compute. discriminate.
  - vm_compute. discriminate.
  - left. vm_compute. discriminate.
  - exists st'. exact H.
Defined.

(** C9: the [prim::AutogradAdd] node of the body of the region of
    [add_in_region_graph] is spliced out by a first run and left as it is;
    a second run replaces it by an [aten::add] node. *)
Lemma second_run_counterexample :
  specializeAutogradZero add_in_region_graph = Done add_in_region_once ∧
  specializeAutogradZero add_in_region_once = Done add_in_region_twice ∧
  add_in_region_twice ≠ add_in_region_once.
Proof.
  split_and!.
  - vm_compute. reflexivity.
  - vm_compute. reflexivity.
  - intros H. apply (f_equal g_next_node) in H. discriminate.
Qed.

Lemma live_region_graph_gradient : gradient_graph live_region_graph.
Proof.
  split.
  - cbn. split_and!; [by_compute|by_compute|done].
  - by_compute.
  - by_compute.
  - repeat constructor.
    + intros _ body [= <-]. repeat constructor; done.
    + intros Hk. discriminate.
Defined.

Lemma second_run_changes_nothing_witness :
  specializeAutogradZero live_region_result = Done live_region_result.
Proof.
  apply (second_run_changes_nothing live_region_graph live_region_result).
  - exact live_region_graph_gradient.
  - vm_compute. reflexivity.
Defined.

End Instances.

(** ** The visits that end normally, rule by rule *)

Lemma rewire_outputs_targets outs : ∀ i c n ns body c',
  pending c = n :: ns → blocks n !! 0%nat = Some body →
  rewire_outputs outs i c = Done c' →
  ∃ f, c' = map_uses_scan f c ∧
    (∀ v, v ∉ outs → f v = v) ∧
    (∀ v, f v = v ∨ f v ∈ block_outputs body) ∧
    (∀ o, o ∈ outs → f o ∈ block_outputs body).
Proof.
  induction outs as [|o outs IH]; intros i c n ns body c' Hp Hb Hr.
  - cbn in Hr. simplify_eq. exists id. rewrite map_uses_scan_id.
    split_and!; [done|done|by left|set_solver].
  - cbn [rewire_outputs] in Hr. unfold current_body in Hr. rewrite Hp in Hr.
    cbn in Hr. rewrite Hb in Hr. cbn in Hr.
    destruct (block_outputs body !! i) as [w|] eqn:Hw; [|done].
    assert (Hwin : w ∈ block_outputs body) by by eapply list_elem_of_lookup_2.
    destruct (IH (S i) (replaceAllUsesWith o w c) (map_uses (subst_value o w) n)
                (map_uses (subst_value o w) <$> ns)
                (map_uses_block (subst_value o w) body) c') as (f & -> & Hfix & Hcases & Hout).
    { unfold replaceAllUsesWith, map_uses_scan. cbn. by rewrite Hp. }
    { by rewrite blocks_map_uses, list_lookup_fmap, Hb. }
    { done. }
    rewrite block_outputs_map_uses in Hcases, Hout.
    assert (Hsub : ∀ v, v ∈ subst_value o w <$> block_outputs body → v ∈ block_outputs body).
    { intros v (u & -> & Hu)%list_elem_of_fmap. unfold subst_value. by case_decide. }
    assert (Hfw : f w ∈ block_outputs body).
    { destruct (Hcases w) as [->|?]; auto. }
    exists (f ∘ subst_value o w). split_and!.
    + unfold replaceAllUsesWith. by rewrite map_uses_scan_compose.
    + intros v Hv. cbn. unfold subst_value. rewrite decide_False by set_solver.
      apply Hfix. set_solver.
    + intros v. cbn. unfold subst_value. case_decide; [by right|].
      destruct (Hcases v); auto.
    + intros o' Ho'. cbn. unfold subst_value. case_decide; [done|].
      apply Hsub, Hout. set_solver.
Qed.

Lemma visit_inv n c ns c' :
  pending c = n :: ns → visit n c = Done c' → visited c n ns c'.
Proof.
  intros Hp Hv. destruct (kind n) eqn:Hk.
  - destruct (decide (Forall (λ v, class_of (state c) v = Zero) (inputs n))) as [Hz|Hz].
    + rewrite (visit_GradOf_all_Zero n c ns) in Hv by done. simplify_eq.
      by constructor.
    + destruct (visit_GradOf_not_all_Zero n c Hk Hz) as (st1 & st2 & _ & Hr2 & E).
      rewrite E in Hv. destruct (blocks n !! 0%nat) as [body|] eqn:Hb; [|done].
      case_bool_decide as Hkn; [|done].
      destruct (rewire_outputs (outputs n) 0 (hoist_body body (set_state st2 c)))
        as [c''| |] eqn:Hrw; [|done..]. cbn in Hv. simplify_eq.
      assert (Hp' : pending (hoist_body body (set_state st2 c)) = without_body_nodes n :: ns).
      { unfold hoist_body. cbn. by rewrite Hp. }
      assert (Hb' : blocks (without_body_nodes n) !! 0%nat
                    = Some (mkBlock [] (block_outputs body))).
      { destruct n as [? ? ? ? bs0]. cbn in Hb. destruct bs0; simplify_eq/=.
        by destruct body. }
      assert (Hlen : 0 + length (outputs n)
                     ≤ length (block_outputs (mkBlock [] (block_outputs body)))).
      { eapply rewire_outputs_Done_length; [exact Hp'|exact Hb'|lia|exact Hrw]. }
      destruct (rewire_outputs_targets _ _ _ _ _ _ _ Hp' Hb' Hrw)
        as (f & -> & Hfix & Hcases & Hout).
      cbn in Hlen, Hcases, Hout.
      unfold destroyCurrent, map_uses_scan, hoist_body. cbn. rewrite Hp. cbn.
      by eapply visited_splice.
  - destruct (inputs n !! 0%nat) as [a|] eqn:Ha;
      [|by rewrite visit_AutogradAdd_no_input in Hv by auto].
    destruct (inputs n !! 1%nat) as [b|] eqn:Hb;
      [|by rewrite visit_AutogradAdd_no_input in Hv by auto].
    destruct (output n) as [o|] eqn:Ho.
    2:{ destruct (decide (class_of (state c) a = Zero)) as [Hza|Hza].
        { rewrite (visit_AutogradAdd_left n c a b) in Hv by done. by rewrite Ho in Hv. }
        destruct (decide (class_of (state c) b = Zero)) as [Hzb|Hzb].
        { destruct (visit_AutogradAdd_right n c a b) as (st' & _ & E); try done.
          rewrite E in Hv. by rewrite Ho in Hv. }
        destruct (visit_AutogradAdd_reads n c a b) as (st' & Hr & E); try done.
        rewrite E in Hv. cbn [state set_state] in Hv.
        rewrite Ho in Hv. by case_bool_decide. }
    pose proof Ho as Houts%output_Some.
    destruct (decide (class_of (state c) a = Zero)) as [Hza|Hza].
    { rewrite (visit_AutogradAdd_left_Zero n c ns a b o) in Hv by done. simplify_eq.
      by eapply visited_add_left. }
    destruct (decide (class_of (state c) b = Zero)) as [Hzb|Hzb].
    { destruct (visit_AutogradAdd_right_Zero n c ns a b o) as (st' & Hr & E); try done.
      rewrite E in Hv. simplify_eq. by eapply visited_add_right. }
    destruct (decide (class_of (state c) a = Nonzero ∧ class_of (state c) b = Nonzero))
      as [[Hna Hnb]|Hnot].
    + destruct (visit_AutogradAdd_both_Nonzero n c ns a b o) as (st' & Hr & E); try done.
      rewrite E in Hv. simplify_eq. by eapply visited_add_new.
    + destruct (visit_AutogradAdd_kept n c ns a b o) as (st' & Hr & E); try done.
      rewrite E in Hv. simplify_eq. by eapply (visited_add_kept c n ns a b o st').
  - unfold visit in Hv. rewrite Hk in Hv. unfold rule_AutogradZero in Hv.
    destruct (output n) as [o|] eqn:Ho; [|done]. simplify_eq.
    apply output_Some in Ho.
    replace (advance _) with (moved_on c n ns (<[o := Zero]> (state c))).
    + by constructor.
    + unfold advance, moved_on. cbn. by rewrite Hp.
  - rewrite (visit_plain n c ns) in Hv; [|done|by unfold plain; rewrite Hk].
    simplify_eq. apply visited_plain. by unfold plain; rewrite Hk.
  - rewrite (visit_plain n c ns) in Hv; [|done|by unfold plain; rewrite Hk].
    simplify_eq. apply visited_plain. by unfold plain; rewrite Hk.
Qed.

(** ** The rules that leave the graph as it is *)

Lemma fold_Unknown_lookup outs : ∀ (st : StateMap) v,
  foldl (λ st o, <[o := Unknown]> st) st outs !! v
  = if decide (v ∈ outs) then Some Unknown else st !! v.
Proof.
  induction outs as [|o outs IH]; intros st v; cbn [foldl].
  - rewrite decide_False; [done|set_solver].
  - rewrite IH. destruct (decide (v ∈ outs)) as [Hin|Hin].
    + rewrite decide_True; [done|set_solver].
    + destruct (decide (v = o)) as [->|Hne].
      * rewrite decide_True by set_solver. apply lookup_insert_eq.
      * rewrite decide_False by set_solver. by apply lookup_insert_ne.
Qed.

(** X1: the default rule (lines 106-110): a node of any other kind than
    [prim::GradOf], [prim::AutogradAdd] and [prim::AutogradZero] stays in
    place with the graph as it is, each of its outputs is classified
    [Unknown], whatever it was classified before, and no other
    classification changes. *)
Theorem other_kinds_marked_Unknown c n ns :
  pending c = n :: ns → plain n →
  ∃ st',
    step c = Done (moved_on c n ns st') ∧
    (∀ o, o ∈ outputs n → st' !! o = Some Unknown) ∧
    (∀ v, v ∉ outputs n → st' !! v = state c !! v).
Proof.
  intros Hp Hpl. eexists. split_and!.
  - rewrite (step_visit _ _ _ Hp). by apply visit_plain.
  - intros o Ho. rewrite fold_Unknown_lookup. by rewrite decide_True.
  - intros v Hv. rewrite fold_Unknown_lookup. by rewrite decide_False.
Qed.

(** X2: the region rule followed by the zero rule (lines 45-49, 74 and
    103-105): the [prim::AutogradZero] node that takes the place of a
    region with all inputs [Zero] is the next node visited; after that visit
    it stands before the cursor, its output, to which the uses of the
    outputs of the region were redirected, is classified [Zero], and the
    nodes that followed the region are at the cursor. *)
Theorem collapsed_region_reads_Zero c n ns :
  pending c = n :: ns → kind n = prim_GradOf →
  Forall (λ v, class_of (state c) v = Zero) (inputs n) →
  let zero := next_unique c in
  let zn := mkNode (next_node c) prim_AutogradZero [] [zero] [] in
  ∃ c1,
    step c = Done c1 ∧
    step c1 = Done
      {| before := (map_uses (redirect (outputs n) zero) <$> before c) ++ [zn];
         pending := map_uses (redirect (outputs n) zero) <$> ns;
         block_outs := redirect (outputs n) zero <$> block_outs c;
         next_unique := Pos.succ zero;
         next_node := Pos.succ (next_node c);
         state := <[zero := Zero]> (state c) |} ∧
    (∀ v, redirect (outputs n) zero v = zero ↔ v ∈ outputs n ∨ v = zero).
Proof.
  intros Hp Hk Hz zero zn. eexists. split_and!.
  - rewrite (step_visit _ _ _ Hp). by apply visit_GradOf_all_Zero.
  - erewrite step_visit by done. by erewrite visit_AutogradZero.
  - intros v. unfold redirect. case_decide; naive_solver.
Qed.

(** ** Checked accessors *)

(** X3: [n->blocks().at(0)] comes before the assertions (lines 57-64): a
    [prim::GradOf] node that has an input not classified [Zero] and owns no
    block ends the call abnormally by the accessor, whether or not an input
    is classified [Unknown], and the graph is as it was. *)
Theorem region_without_body c n ns :
  pending c = n :: ns → kind n = prim_GradOf →
  Exists (λ v, class_of (state c) v ≠ Zero) (inputs n) →
  blocks n = [] →
  ∃ st', step c = Aborted BadAccess (set_state st' c) ∧
         reads_only (inputs n) (state c) st'.
Proof.
  intros Hp Hk Hz%not_all_Zero Hb.
  destruct (visit_GradOf_not_all_Zero n c Hk Hz) as (st1 & st2 & Hr & _ & E).
  exists st1. rewrite (step_visit _ _ _ Hp), E, Hb. done.
Qed.

(** X4: [body->outputs().at(i)] (line 72): when the body of a [prim::GradOf]
    node that is to be spliced designates fewer outputs than the node has,
    the call ends abnormally by the accessor after the loop of lines 66-69:
    the nodes of the body stand before the region already, and the region
    is still in the graph. *)
Theorem region_with_few_body_outputs c n ns body :
  pending c = n :: ns → kind n = prim_GradOf →
  Exists (λ v, class_of (state c) v ≠ Zero) (inputs n) →
  Forall (λ v, class_of (state c) v ≠ Unknown) (inputs n) →
  blocks n !! 0%nat = Some body →
  length (block_outputs body) < length (outputs n) →
  ∃ c' f,
    step c = Aborted BadAccess c' ∧
    before c' = map_uses f <$> (before c ++ block_nodes body) ∧
    pending c' = map_uses f <$> (without_body_nodes n :: ns).
Proof.
  intros Hp Hk Hz%not_all_Zero Hkn Hb Hlen.
  destruct (visit_GradOf_not_all_Zero n c Hk Hz) as (st1 & st2 & _ & _ & E).
  rewrite Hb, bool_decide_eq_true_2 in E by done.
  assert (Hp' : pending (hoist_body body (set_state st2 c)) = without_body_nodes n :: ns).
  { unfold hoist_body. cbn. by rewrite Hp. }
  assert (Hb' : blocks (without_body_nodes n) !! 0%nat
                = Some (mkBlock [] (block_outputs body))).
  { destruct n as [? ? ? ? bs0]. cbn in Hb. destruct bs0; simplify_eq/=.
    by destruct body. }
  destruct (rewire_outputs_map (outputs n) 0 (hoist_body body (set_state st2 c)))
    as (f & [Hf|Hf]).
  - exfalso.
    assert (Hl : 0 + length (outputs n)
                 ≤ length (block_outputs (mkBlock [] (block_outputs body)))).
    { eapply rewire_outputs_Done_length; [exact Hp'|exact Hb'|lia|exact Hf]. }
    cbn in Hl. lia.
  - exists (map_uses_scan f (hoist_body body (set_state st2 c))), f.
    rewrite (step_visit _ _ _ Hp), E, Hf. split_and!; [done|done|].
    cbn. by rewrite Hp.
Qed.

(** X5: [n->output()] comes after the new node (lines 92-95): when a
    [prim::AutogradAdd] node with both inputs [Nonzero] has not exactly one
    output, the call ends abnormally by the accessor with the new
    [aten::add] node already in the graph, right before the node at the
    cursor, and its output classified [Nonzero]; the [prim::AutogradAdd]
    node is still in the graph and no use is redirected. *)
Theorem promotion_without_single_output c n ns a b :
  pending c = n :: ns → kind n = prim_AutogradAdd →
  inputs n !! 0%nat = Some a → inputs n !! 1%nat = Some b →
  class_of (state c) a = Nonzero → class_of (state c) b = Nonzero →
  length (outputs n) ≠ 1 →
  ∃ st', reads_only [a; b] (state c) st' ∧
    step c = Aborted BadAccess
      {| before := before c ++ [mkNode (next_node c) aten_add [a; b] [next_unique c] []];
         pending := n :: ns;
         block_outs := block_outs c;
         next_unique := Pos.succ (next_unique c);
         next_node := Pos.succ (next_node c);
         state := <[next_unique c := Nonzero]> st' |}.
Proof.
  intros Hp Hk Ha Hb Hca Hcb Hlen.
  destruct (visit_AutogradAdd_reads n c a b) as (st' & Hr & E); try done; try congruence.
  exists st'. split; [done|]. rewrite (step_visit _ _ _ Hp), E. cbn [state set_state].
  rewrite !(reads_only_class _ _ _ _ Hr), bool_decide_eq_true_2 by done.
  assert (Ho : output n = None).
  { unfold output. destruct (outputs n) as [|o1 [|o2 outs]]; done. }
  cbn. rewrite Ho. by rewrite Hp.
Qed.

(** X6: the ways the pass ends, on any graph: normally; by the assertion of
    line 63, with the graph as it was when the cursor reached a
    [prim::GradOf] node that has an input not classified [Zero] and an input
    classified [Unknown]; or by a checked accessor, at a node that has not
    the shape of its kind. The loop of line 34 always ends. *)
Theorem pass_outcomes (g : Graph) :
  (∃ g', specializeAutogradZero g = Done g') ∨
  (∃ c n ns, reached g c ∧ pending c = n :: ns ∧ kind n = prim_GradOf ∧
     Exists (λ v, class_of (state c) v ≠ Zero) (inputs n) ∧
     Exists (λ v, class_of (state c) v = Unknown) (inputs n) ∧
     specializeAutogradZero g = Aborted AssertFailed (graph_of g c)) ∨
  (∃ c n ns g', reached g c ∧ pending c = n :: ns ∧ well_shaped n = false ∧
     specializeAutogradZero g = Aborted BadAccess g').
Proof.
  unfold specializeAutogradZero.
  destruct (scan_outcomes g (2 * length (block_nodes (g_block g))) (start g))
    as [(c' & -> & _ & _)|[(c1 & n & ns & st' & Hr & Hp & Hk & Hz & Hu & ->)
                          |(c1 & n & ns & c' & Hr & Hp & Hbad & ->)]].
  - constructor.
  - apply iterations_left_bound.
  - left. eauto.
  - right. left. exists c1, n, ns. split_and!; try done.
    + by apply not_all_Zero.
    + by apply not_all_known.
  - right. right. exists c1, n, ns. eauto.
Qed.

(** X7: a graph whose primary block holds only nodes of other kinds and
    [prim::AutogradZero] nodes with one output goes through the pass
    unchanged. *)
Theorem nothing_to_specialize (g : Graph) :
  Forall (λ n, plain n ∨ (kind n = prim_AutogradZero ∧ ∃ o, outputs n = [o]))
         (block_nodes (g_block g)) →
  specializeAutogradZero g = Done g.
Proof.
  intros Hall.
  assert (Hre : rescan (block_nodes (g_block g)) (state (start g)) (λ _, True)).
  { induction (block_nodes (g_block g)) as [|n l IH] using rev_ind;
      [by apply rescan_nil|].
    apply Forall_app in Hall as [Hl [Hn _]%Forall_cons].
    eapply rescan_snoc; [by apply IH|]. intros c ns _ Hp.
    destruct Hn as [Hpl|[Hk [o Ho]]].
    - eexists. split; [done|]. by apply visit_plain.
    - eexists. split; [done|]. apply visit_AutogradZero; [done..|]. by apply output_Some. }
  destruct (rescan_end _ _ _ (block_outputs (g_block g)) (g_next_unique g)
              (g_next_node g) Hre) as (st & Hw).
  unfold specializeAutogradZero.
  replace (2 * length (block_nodes (g_block g)))
    with (length (block_nodes (g_block g)) + length (block_nodes (g_block g))) by lia.
  change (start g) with
    {| before := []; pending := block_nodes (g_block g);
       block_outs := block_outputs (g_block g);
       next_unique := g_next_unique g; next_node := g_next_node g;
       state := state (start g) |}.
  rewrite (walks_over_scan _ _ _ Hw), scan_nil by done.
  unfold outcome_graph, graph_of. cbn. rewrite app_nil_r.
  destruct g as [? ? [? ?] ? ?]. done.
Qed.

(** ** Invariants of the scan *)

Lemma reached_invariant g (P : Scan → Prop) :
  P (start g) →
  (∀ c n ns c', reached g c → P c → pending c = n :: ns → visited c n ns c' → P c') →
  ∀ c, reached g c → P c.
Proof.
  intros Hstart Hstep c Hr. induction Hr as [|c n ns c' Hr IH Hp Hv]; [done|].
  eapply Hstep; [exact Hr|exact IH|exact Hp|]. by apply visit_inv.
Qed.

Lemma pass_Done_reached g g' :
  specializeAutogradZero g = Done g' →
  ∃ c, reached g c ∧ pending c = [] ∧ g' = graph_of g c.
Proof.
  unfold specializeAutogradZero. intros Hrun.
  destruct (scan _ (start g)) as [c| |] eqn:Hs; simplify_eq/=.
  destruct (scan_Done_reached g _ _ _ (reached_start g) Hs) as [Hr Hp]. eauto.
Qed.

Lemma graph_of_nodes g c :
  pending c = [] → block_nodes (g_block (graph_of g c)) = before c.
Proof. intros Hp. cbn. by rewrite Hp, app_nil_r. Qed.

(** *** No region is left *)

Lemma no_region_inside_map_uses f n : no_region_inside n → no_region_inside (map_uses f n).
Proof.
  unfold no_region_inside. rewrite kind_map_uses, blocks_map_uses. intros H Hk body Hb.
  rewrite list_lookup_fmap in Hb. destruct (blocks n !! 0%nat) as [b|] eqn:E; simplify_eq/=.
  rewrite block_nodes_map_uses. apply Forall_fmap.
  eapply Forall_impl; [by apply H|]. intros m. cbn. by rewrite kind_map_uses.
Qed.

Lemma Forall_kind_map_uses (P : NodeKind → Prop) f (l : list Node) :
  Forall (λ m, P (kind m)) l → Forall (λ m, P (kind m)) (map_uses f <$> l).
Proof.
  intros H. apply Forall_fmap. eapply Forall_impl; [exact H|].
  intros m. cbn. by rewrite kind_map_uses.
Qed.

Lemma reached_no_region g c :
  Forall no_region_inside (block_nodes (g_block g)) →
  reached g c →
  Forall (λ m, kind m ≠ prim_GradOf) (before c) ∧ Forall no_region_inside (pending c).
Proof.
  intros Hg Hr. revert c Hr.
  apply (reached_invariant g (λ c,
    Forall (λ m, kind m ≠ prim_GradOf) (before c) ∧ Forall no_region_inside (pending c)));
    [by split|].
  intros c0 n ns c' _ [Hb Hpd] Hp Hv. rewrite Hp in Hpd.
  apply Forall_cons in Hpd as [Hn Hns].
  assert (Hmap : ∀ f, Forall no_region_inside (map_uses f <$> ns)).
  { intros f. apply Forall_fmap. eapply Forall_impl; [exact Hns|].
    intros m. apply no_region_inside_map_uses. }
  assert (Hkept : kind n ≠ prim_GradOf →
            Forall (λ m, kind m ≠ prim_GradOf) (before c0 ++ [n])).
  { intros Hk. apply Forall_app. split; [done|]. by repeat constructor. }
  destruct Hv; cbn.
  - split; [by apply (Forall_kind_map_uses (λ k, k ≠ prim_GradOf))|].
    constructor; [by intros ?|done].
  - split; [|done]. apply (Forall_kind_map_uses (λ k, k ≠ prim_GradOf)).
    apply Forall_app. split; [done|]. by apply Hn.
  - split; [by apply (Forall_kind_map_uses (λ k, k ≠ prim_GradOf))|done].
  - split; [by apply (Forall_kind_map_uses (λ k, k ≠ prim_GradOf))|done].
  - split; [|done]. apply (Forall_kind_map_uses (λ k, k ≠ prim_GradOf)).
    apply Forall_app. split; [done|]. by repeat constructor.
  - split; [|done]. apply Hkept. congruence.
  - split; [|done]. apply Hkept. congruence.
  - split; [|done]. apply Hkept. by destruct H as (? & _).
Qed.

(** X8: the pass removes the [prim::GradOf] nodes (lines 7-8 and 74): on a
    graph whose regions hold no region in their bodies, a run that ends
    normally leaves no [prim::GradOf] node in the primary block. *)
Theorem no_region_left (g g' : Graph) :
  Forall no_region_inside (block_nodes (g_block g)) →
  specializeAutogradZero g = Done g' →
  Forall (λ m, kind m ≠ prim_GradOf) (block_nodes (g_block g')).
Proof.
  intros Hg (c & Hr & Hp & ->)%pass_Done_reached.
  rewrite graph_of_nodes by done. by apply (reached_no_region g c Hg Hr).
Qed.

(** *** Where the nodes come from *)

Lemma originates_map_uses g f m : originates g m → originates g (map_uses f m).
Proof.
  intros [(f0 & m0 & Hm0 & ->)|(id & ins & o & Hid & [-> | ->])].
  - left. exists (f ∘ f0), m0. by rewrite map_uses_compose.
  - right. exists id, ins, o. split; [done|]. by left.
  - right. exists id, (f <$> ins), o. split; [done|]. by right.
Qed.

Lemma awaits_map_uses g f m : awaits g m → awaits g (map_uses f m).
Proof.
  intros [(f0 & m0 & Hm0 & ->)|(id & o & Hid & ->)].
  - left. exists (f ∘ f0), m0. by rewrite map_uses_compose.
  - right. by exists id, o.
Qed.

Lemma awaits_originates g m : awaits g m → originates g m.
Proof.
  intros [(f0 & m0 & Hm0 & ->)|(id & o & Hid & ->)].
  - left. exists f0, m0. split; [by left|done].
  - right. exists id, [], o. split; [done|]. by left.
Qed.

Lemma awaits_body g n body :
  awaits g n → kind n = prim_GradOf → blocks n !! 0%nat = Some body →
  Forall (originates g) (block_nodes body).
Proof.
  intros [(f0 & r0 & Hr0 & ->)|(id & o & Hid & ->)] Hk Hb; [|done].
  rewrite kind_map_uses in Hk. rewrite blocks_map_uses, list_lookup_fmap in Hb.
  destruct (blocks r0 !! 0%nat) as [body0|] eqn:Hb0; simplify_eq/=.
  rewrite block_nodes_map_uses. apply Forall_fmap. apply Forall_forall.
  intros m0 Hm0. cbn. left. exists f0, m0. split; [|done].
  right. by exists r0, body0.
Qed.

Lemma reached_origins g c :
  reached g c →
  Forall (originates g) (before c) ∧ Forall (awaits g) (pending c) ∧
  (g_next_node g ≤ next_node c)%positive.
Proof.
  intros Hr. revert c Hr.
  apply (reached_invariant g (λ c,
    Forall (originates g) (before c) ∧ Forall (awaits g) (pending c) ∧
    (g_next_node g ≤ next_node c)%positive)).
  { split_and!; [done| |cbn; lia]. apply Forall_forall. intros m Hm.
    left. exists id, m. split; [done|]. by rewrite map_uses_id_in. }
  intros c0 n ns c' _ (Hb & Hpd & Hle) Hp Hv. rewrite Hp in Hpd.
  apply Forall_cons in Hpd as [Hn Hns].
  assert (Hmapb : ∀ f l, Forall (originates g) l → Forall (originates g) (map_uses f <$> l)).
  { intros f l Hl. apply Forall_fmap. eapply Forall_impl; [exact Hl|].
    intros m. apply originates_map_uses. }
  assert (Hmapp : ∀ f, Forall (awaits g) (map_uses f <$> ns)).
  { intros f. apply Forall_fmap. eapply Forall_impl; [exact Hns|].
    intros m. apply awaits_map_uses. }
  assert (Hkept : Forall (originates g) (before c0 ++ [n])).
  { apply Forall_app. split; [done|].
    apply Forall_cons. split; [by apply awaits_originates|constructor]. }
  destruct Hv; cbn; split_and!; try done; try lia; try (by apply Hmapb).
  - constructor; [|done]. right. by eexists _, _.
  - apply Hmapb. apply Forall_app. split; [done|]. by eapply awaits_body.
  - apply Hmapb. apply Forall_app. split; [done|].
    apply Forall_cons. split; [|constructor].
    right. eexists _, _, _. split; [|by right]. done.
Qed.

(** X9: the pass changes nothing of a node but its uses, and creates nodes of
    two kinds only: after a run that ends normally every node of the
    primary block is a node of the primary block of the graph it started
    from, or of the body of one of its [prim::GradOf] nodes, with the same
    address, kind, outputs and nested blocks and with uses rewritten, or it
    is a new [prim::AutogradZero] or [aten::add] node with one output. *)
Theorem nodes_originate (g g' : Graph) :
  specializeAutogradZero g = Done g' →
  Forall (originates g) (block_nodes (g_block g')).
Proof.
  intros (c & Hr & Hp & ->)%pass_Done_reached.
  rewrite graph_of_nodes by done. by apply (reached_origins g c Hr).
Qed.

(** *** Node addresses stay distinct *)

Lemma NoDup_middle {A} (l1 mid mid' l2 : list A) :
  NoDup (l1 ++ mid ++ l2) → NoDup mid' →
  (∀ x, x ∈ mid' → x ∈ mid ∨ ((x ∉ l1) ∧ (x ∉ l2))) →
  NoDup (l1 ++ mid' ++ l2).
Proof.
  rewrite !NoDup_app. intros (H1 & H12 & Hm & Hm2 & H2) Hm' Hin.
  split_and!; try done.
  - intros x Hx [Hx'|Hx']%elem_of_app.
    + destruct (Hin x Hx') as [?|[? _]]; [|done]. apply (H12 x Hx). set_solver.
    + apply (H12 x Hx). set_solver.
  - intros x Hx Hx2. destruct (Hin x Hx) as [?|[_ ?]]; [|done]. by apply (Hm2 x).
Qed.

Lemma body_ids_NoDup n body :
  NoDup (node_ids n) → blocks n !! 0%nat = Some body →
  NoDup (block_nodes body ≫= node_ids).
Proof.
  destruct n as [id k ins outs bs]. cbn. intros Hnd Hb.
  destruct bs as [|b bs]; simplify_eq/=. destruct body as [bns bouts]. cbn in *.
  apply NoDup_cons in Hnd as [_ Hnd]. by apply NoDup_app in Hnd as [? _].
Qed.

Lemma visited_ids_ok c n ns c' :
  pending c = n :: ns → visited c n ns c' → ids_ok c → ids_ok c'.
Proof.
  intros Hp Hv [Hnd Hlt]. unfold ids_ok, all_ids in *. rewrite Hp in Hnd, Hlt.
  rewrite bind_app, bind_cons in Hnd, Hlt.
  assert (Hshape : ∀ f mid nn',
    (next_node c ≤ nn')%positive →
    NoDup (mid ≫= node_ids) →
    (∀ x, x ∈ mid ≫= node_ids →
       x ∈ node_ids n ∨ (x = next_node c ∧ (next_node c < nn')%positive)) →
    NoDup ((map_uses f <$> (before c ++ mid ++ ns)) ≫= node_ids) ∧
    Forall (λ id, (id < nn')%positive) ((map_uses f <$> (before c ++ mid ++ ns)) ≫= node_ids)).
  { intros f mid nn' Hle Hmid Hin. rewrite node_ids_map_uses_list, !bind_app.
    rewrite !Forall_app in Hlt |- *. destruct Hlt as (Hl1 & Hln & Hl2).
    rewrite Forall_forall in Hl1, Hln, Hl2. split.
    - eapply NoDup_middle; [exact Hnd|done|]. intros x Hx.
      destruct (Hin x Hx) as [?|[-> _]]; [by left|right]. split.
      + intros Hx'. specialize (Hl1 _ Hx'). cbn in Hl1. lia.
      + intros Hx'. specialize (Hl2 _ Hx'). cbn in Hl2. lia.
    - split_and!; apply Forall_forall; intros x Hx.
      + specialize (Hl1 _ Hx). cbn in Hl1. lia.
      + destruct (Hin x Hx) as [Hn|[-> ?]]; [|done]. specialize (Hln _ Hn). cbn in Hln. lia.
      + specialize (Hl2 _ Hx). cbn in Hl2. lia. }
  assert (Hkept : ∀ st', 
    NoDup ((before (moved_on c n ns st') ++ pending (moved_on c n ns st')) ≫= node_ids) ∧
    Forall (λ id, (id < next_node (moved_on c n ns st'))%positive)
      ((before (moved_on c n ns st') ++ pending (moved_on c n ns st')) ≫= node_ids)).
  { intros st'. unfold moved_on. cbn [before pending next_node].
    rewrite <- (assoc_L (++)), bind_app. cbn [app]. by rewrite bind_cons. }
  destruct Hv; try apply Hkept.
  - cbn [before pending next_node].
    change (mkNode (next_node c) prim_AutogradZero [] [next_unique c] []
            :: (map_uses (redirect (outputs n) (next_unique c)) <$> ns))
      with (map_uses (redirect (outputs n) (next_unique c)) <$>
              (mkNode (next_node c) prim_AutogradZero [] [next_unique c] [] :: ns)).
    rewrite <- fmap_app.
    apply (Hshape _ [mkNode (next_node c) prim_AutogradZero [] [next_unique c] []]).
    + lia.
    + cbn. apply NoDup_singleton.
    + cbn. intros x ->%list_elem_of_singleton. right. split; [done|lia].
  - cbn [before pending next_node]. rewrite <- fmap_app, <- (assoc_L (++)).
    apply Hshape.
    + lia.
    + eapply body_ids_NoDup; [|done]. rewrite !NoDup_app in Hnd. tauto.
    + intros x Hx. left. rewrite node_ids_unfold. right. by eapply node_ids_body.
  - cbn [before pending next_node]. rewrite <- fmap_app.
    apply (Hshape _ []); [lia|constructor|]. cbn. set_solver.
  - cbn [before pending next_node]. rewrite <- fmap_app.
    apply (Hshape _ []); [lia|constructor|]. cbn. set_solver.
  - cbn [before pending next_node]. rewrite <- fmap_app, <- (assoc_L (++)).
    apply Hshape.
    + lia.
    + cbn. apply NoDup_singleton.
    + cbn. intros x ->%list_elem_of_singleton. right. split; [done|lia].
Qed.

(** X10: distinct node addresses stay distinct: when the nodes of a graph, at
    any depth, have distinct addresses that the graph has handed out, so
    have the nodes of the graph a run that ends normally leaves. *)
Theorem addresses_stay_distinct (g g' : Graph) :
  ids_ok (start g) →
  specializeAutogradZero g = Done g' →
  ids_ok (start g').
Proof.
  intros Hok (c & Hr & _ & ->)%pass_Done_reached.
  assert (Hc : ids_ok c).
  { revert c Hr. apply (reached_invariant g ids_ok); [done|].
    intros c n ns c' _ Hc Hp Hv. by eapply visited_ids_ok. }
  exact Hc.
Qed.

(** *** Where the classifications come from *)

Lemma reads_only_lookup vs (st st' : StateMap) v s :
  reads_only vs st st' → st' !! v = Some s → s ≠ Nonzero → st !! v = Some s.
Proof.
  intros Hr Hv Hs. destruct (Hr v) as [E|(_ & _ & E)]; congruence.
Qed.

Lemma reached_knowledge g c :
  reached g c →
  ∀ v s, state c !! v = Some s → s ≠ Nonzero →
    (v ∈ g_inputs g ∧ seed_state (g_type g v) = s) ∨
    (∃ m, m ∈ before c ∧ v ∈ outputs m ∧
       if decide (s = Zero) then kind m = prim_AutogradZero
       else kind m ≠ prim_GradOf ∧ kind m ≠ prim_AutogradZero).
Proof.
  intros Hr. revert c Hr.
  apply (reached_invariant g (λ c,
    ∀ v s, state c !! v = Some s → s ≠ Nonzero →
    (v ∈ g_inputs g ∧ seed_state (g_type g v) = s) ∨
    (∃ m, m ∈ before c ∧ v ∈ outputs m ∧
       if decide (s = Zero) then kind m = prim_AutogradZero
       else kind m ≠ prim_GradOf ∧ kind m ≠ prim_AutogradZero))).
  { intros v s Hv _. left. cbn in Hv.
    destruct (decide (v ∈ g_inputs g)) as [Hin|Hin].
    - rewrite seed_input in Hv by done. by simplify_eq.
    - rewrite seed_other in Hv by done. by rewrite lookup_empty in Hv. }
  intros c n ns c' _ IH Hp Hv v s Hs Hnz.
  assert (Hold : ∀ f mid, state c !! v = Some s →
    (v ∈ g_inputs g ∧ seed_state (g_type g v) = s) ∨
    (∃ m, m ∈ map_uses f <$> (before c ++ mid) ∧ v ∈ outputs m ∧
       if decide (s = Zero) then kind m = prim_AutogradZero
       else kind m ≠ prim_GradOf ∧ kind m ≠ prim_AutogradZero)).
  { intros f mid Hc. destruct (IH v s Hc Hnz) as [?|(m & Hm & Hvm & Hkm)]; [by left|right].
    exists (map_uses f m). split_and!.
    - apply list_elem_of_fmap_2. set_solver.
    - by rewrite outputs_map_uses.
    - by rewrite kind_map_uses. }
  assert (Hold' : state c !! v = Some s →
    (v ∈ g_inputs g ∧ seed_state (g_type g v) = s) ∨
    (∃ m, m ∈ before c ++ [n] ∧ v ∈ outputs m ∧
       if decide (s = Zero) then kind m = prim_AutogradZero
       else kind m ≠ prim_GradOf ∧ kind m ≠ prim_AutogradZero)).
  { intros Hc. destruct (IH v s Hc Hnz) as [?|(m & Hm & Hvm & Hkm)]; [by left|right].
    exists m. split_and!; [set_solver|done..]. }
  destruct Hv; cbn [state before moved_on] in *.
  - rewrite <- (app_nil_r (before c)). by apply Hold.
  - apply Hold. by eapply reads_only_lookup.
  - rewrite <- (app_nil_r (before c)). by apply Hold.
  - rewrite <- (app_nil_r (before c)). apply Hold. by eapply reads_only_lookup.
  - apply Hold. destruct (decide (v = next_unique c)) as [->|Hne].
    + rewrite lookup_insert_eq in Hs. congruence.
    + rewrite lookup_insert_ne in Hs by done. by eapply reads_only_lookup.
  - destruct (decide (v = o)) as [->|Hne].
    + rewrite lookup_insert_eq in Hs. simplify_eq. right. exists n.
      split_and!.
      * apply elem_of_app. right. by apply list_elem_of_singleton.
      * match goal with Ho : outputs n = [_] |- _ => rewrite Ho end.
        by apply list_elem_of_singleton.
      * rewrite decide_False by done. split; congruence.
    + rewrite lookup_insert_ne in Hs by done. apply Hold'. by eapply reads_only_lookup.
  - destruct (decide (v = o)) as [->|Hne].
    + rewrite lookup_insert_eq in Hs. simplify_eq. right. exists n.
      split_and!.
      * apply elem_of_app. right. by apply list_elem_of_singleton.
      * match goal with Ho : outputs n = [_] |- _ => rewrite Ho end.
        by apply list_elem_of_singleton.
      * by rewrite decide_True.
    + rewrite lookup_insert_ne in Hs by done. by apply Hold'.
  - rewrite fold_Unknown_lookup in Hs.
    destruct (decide (v ∈ outputs n)) as [Hin|Hin].
    + simplify_eq. right. exists n. split_and!.
      * apply elem_of_app. right. by apply list_elem_of_singleton.
      * done.
      * rewrite decide_False by done.
        match goal with Hpl : plain n |- _ => destruct Hpl as (? & ? & ?) end. done.
    + by apply Hold'.
Qed.

(** X11: what the scan knows it has read off the graph: whenever the
    classification map holds [Zero] for a value, the value is a graph input
    seeded [Zero] or an output of a [prim::AutogradZero] node that stands
    before the cursor; whenever it holds [Unknown], the value is a graph
    input seeded [Unknown] or an output of a node before the cursor that is
    neither a region nor a zero node. *)
Theorem knowledge_has_a_source (g : Graph) c v :
  reached g c →
  (state c !! v = Some Zero →
     (v ∈ g_inputs g ∧ seed_state (g_type g v) = Zero) ∨
     (∃ m, m ∈ before c ∧ v ∈ outputs m ∧ kind m = prim_AutogradZero)) ∧
  (state c !! v = Some Unknown →
     (v ∈ g_inputs g ∧ seed_state (g_type g v) = Unknown) ∨
     (∃ m, m ∈ before c ∧ v ∈ outputs m ∧
        kind m ≠ prim_GradOf ∧ kind m ≠ prim_AutogradZero)).
Proof.
  intros Hr. split; intros Hs.
  - destruct (reached_knowledge g c Hr v Zero Hs) as [?|(m & ? & ? & Hk)]; [done|by left|].
    right. exists m. by rewrite decide_True in Hk.
  - destruct (reached_knowledge g c Hr v Unknown Hs) as [?|(m & ? & ? & Hk)]; [done|by left|].
    right. exists m. by rewrite decide_False in Hk.
Qed.

(** *** Scoping is kept *)

Lemma closed_node_unfold A n :
  closed_node A n ↔ Forall (λ v, v ∈ A) (inputs n) ∧ Forall (closed_block A) (blocks n).
Proof.
  destruct n as [id k ins outs bs]. cbn.
  assert (E : ∀ bs,
    (fix closed_blocks (bs : list Block) : Prop :=
       match bs with
       | [] => True
       | b :: bs' => closed_block A b ∧ closed_blocks bs'
       end) bs ↔ Forall (closed_block A) bs).
  { clear. induction bs as [|b bs IH].
    - split; [constructor|done].
    - rewrite Forall_cons. by rewrite IH. }
  by rewrite E.
Qed.

Lemma closed_block_unfold A b :
  closed_block A b ↔ closed_nodes A (block_nodes b) (block_outputs b).
Proof.
  destruct b as [ns outs]. cbn. revert A.
  induction ns as [|n ns IH]; intros A; [done|].
  cbn [closed_nodes]. by rewrite <- IH.
Qed.

Lemma deep_defs_unfold n :
  deep_defs n = outputs n ++ (blocks n ≫= block_deep_defs).
Proof. by destruct n. Qed.

Lemma block_deep_defs_unfold b :
  block_deep_defs b = block_nodes b ≫= deep_defs.
Proof. by destruct b. Qed.

Lemma deep_defs_map_uses f n : deep_defs (map_uses f n) = deep_defs n.
Proof.
  revert n.
  apply (Node_nested_ind (λ n, deep_defs (map_uses f n) = deep_defs n)
           (λ b, block_deep_defs (map_uses_block f b) = block_deep_defs b)).
  - intros id k ins outs bs IH. rewrite !deep_defs_unfold, outputs_map_uses, blocks_map_uses.
    cbn [outputs blocks]. f_equal. induction IH as [|b bs' Hb _ IHbs]; [done|].
    rewrite fmap_cons, !bind_cons. by rewrite Hb, IHbs.
  - intros ns outs IH. rewrite !block_deep_defs_unfold, block_nodes_map_uses.
    cbn [block_nodes]. induction IH as [|n ns' Hn _ IHns]; [done|].
    rewrite fmap_cons, !bind_cons. by rewrite Hn, IHns.
Qed.

Lemma deep_defs_map_uses_list f (l : list Node) :
  (map_uses f <$> l) ≫= deep_defs = l ≫= deep_defs.
Proof.
  induction l as [|n l IH]; [done|].
  by rewrite fmap_cons, !bind_cons, deep_defs_map_uses, IH.
Qed.

Lemma defs_map_uses_list f (l : list Node) : defs (map_uses f <$> l) = defs l.
Proof.
  unfold defs. induction l as [|n l IH]; [done|].
  by rewrite fmap_cons, !bind_cons, outputs_map_uses, IH.
Qed.

Lemma defs_deep (l : list Node) v : v ∈ defs l → v ∈ l ≫= deep_defs.
Proof.
  unfold defs. rewrite !list_elem_of_bind. intros (n & Hv & Hn). exists n.
  split; [|done]. rewrite deep_defs_unfold. apply elem_of_app. by left.
Qed.

Lemma defs_app (l1 l2 : list Node) : defs (l1 ++ l2) = defs l1 ++ defs l2.
Proof. unfold defs. by rewrite bind_app. Qed.

Lemma closed_subst_node f id k ins outs bs :
  Forall (λ b, ∀ A A', closed_block A b →
     (∀ v, v ∈ A → f v ∈ A') → (∀ v, v ∈ block_deep_defs b → f v = v) →
     closed_block A' (map_uses_block f b)) bs →
  ∀ A A', closed_node A (mkNode id k ins outs bs) →
     (∀ v, v ∈ A → f v ∈ A') → (∀ v, v ∈ deep_defs (mkNode id k ins outs bs) → f v = v) →
     closed_node A' (map_uses f (mkNode id k ins outs bs)).
Proof.
  intros IH A A' Hc Hf Hfix.
  rewrite closed_node_unfold in Hc |- *. cbn [inputs blocks] in Hc.
  destruct Hc as [Hins Hbs]. rewrite blocks_map_uses. cbn [map_uses inputs blocks]. split.
  - apply Forall_fmap. eapply Forall_impl; [exact Hins|]. intros v. apply Hf.
  - apply Forall_fmap. rewrite Forall_forall in IH, Hbs |- *. intros b Hb. cbn.
    apply (IH b Hb A A'); [by apply Hbs|done|].
    intros v Hv. apply Hfix. cbn. apply elem_of_app. right.
    apply list_elem_of_bind. by exists b.
Qed.

Lemma closed_subst_block f ns outs :
  Forall (λ n, ∀ A A', closed_node A n →
     (∀ v, v ∈ A → f v ∈ A') → (∀ v, v ∈ deep_defs n → f v = v) →
     closed_node A' (map_uses f n)) ns →
  ∀ A A', closed_block A (mkBlock ns outs) →
     (∀ v, v ∈ A → f v ∈ A') → (∀ v, v ∈ block_deep_defs (mkBlock ns outs) → f v = v) →
     closed_block A' (map_uses_block f (mkBlock ns outs)).
Proof.
  intros IH A A' Hc Hf Hfix.
  rewrite closed_block_unfold in Hc |- *. cbn [block_nodes block_outputs] in Hc.
  rewrite block_nodes_map_uses, block_outputs_map_uses. cbn [block_nodes block_outputs].
  cbn [block_deep_defs] in Hfix.
  revert A A' Hc Hf Hfix. induction IH as [|n ns' Hn _ IHns]; intros A A' Hc Hf Hfix.
  - cbn in *. apply Forall_fmap. eapply Forall_impl; [exact Hc|]. intros v. apply Hf.
  - cbn [closed_nodes] in Hc. destruct Hc as [Hcn Hcs].
    rewrite fmap_cons. cbn [closed_nodes]. split.
    + apply (Hn A A'); [done..|]. intros v Hv. apply Hfix. rewrite bind_cons.
      apply elem_of_app. by left.
    + rewrite outputs_map_uses. apply (IHns (A ++ outputs n)); [done| |].
      * intros v [Hv|Hv]%elem_of_app; apply elem_of_app.
        -- left. by apply Hf.
        -- right. rewrite Hfix; [done|]. rewrite bind_cons, deep_defs_unfold.
           apply elem_of_app. left. apply elem_of_app. by left.
      * intros v Hv. apply Hfix. rewrite bind_cons. apply elem_of_app. by right.
Qed.

(** Rewriting uses keeps scoping, when it maps the scope into the new scope
    and leaves alone what the rewritten nodes define. *)
Lemma closed_block_subst f b A A' :
  closed_block A b →
  (∀ v, v ∈ A → f v ∈ A') → (∀ v, v ∈ block_deep_defs b → f v = v) →
  closed_block A' (map_uses_block f b).
Proof.
  revert A A'. revert b.
  exact (Block_nested_ind _ _ (closed_subst_node f) (closed_subst_block f)).
Qed.

Lemma closed_nodes_subst f ns outs A A' :
  closed_nodes A ns outs →
  (∀ v, v ∈ A → f v ∈ A') → (∀ v, v ∈ ns ≫= deep_defs → f v = v) →
  closed_nodes A' (map_uses f <$> ns) (f <$> outs).
Proof.
  intros Hc Hf Hfix.
  pose proof (closed_block_subst f (mkBlock ns outs) A A') as H.
  rewrite !closed_block_unfold in H. by apply H.
Qed.

Lemma closed_nodes_app A l1 l2 outs :
  closed_nodes A (l1 ++ l2) outs ↔
  closed_nodes A l1 [] ∧ closed_nodes (A ++ defs l1) l2 outs.
Proof.
  revert A. induction l1 as [|n l1 IH]; intros A.
  - cbn. rewrite app_nil_r. split; [|tauto]. split; [constructor|done].
  - cbn [app closed_nodes]. rewrite IH, defs_cons, (assoc_L (++)). tauto.
Qed.

Lemma closed_nodes_outs A l outs :
  closed_nodes A l outs → Forall (λ v, v ∈ A ++ defs l) outs.
Proof.
  revert A. induction l as [|n l IH]; intros A; cbn [closed_nodes].
  - by rewrite app_nil_r.
  - intros [_ H]. apply IH in H. by rewrite defs_cons, (assoc_L (++)).
Qed.

Lemma closed_nodes_no_outs A l outs : closed_nodes A l outs → closed_nodes A l [].
Proof.
  revert A. induction l as [|n l IH]; intros A; cbn [closed_nodes].
  - constructor.
  - intros [? ?]. split; [done|]. by apply IH.
Qed.

Lemma ssa_rewrite I bef n ns outs nu f mid nu' :
  ssa_nodes I (bef ++ n :: ns) outs nu →
  (nu ≤ nu')%positive →
  (∀ v, v ∉ outputs n → f v = v) →
  closed_nodes (I ++ defs bef) mid [] →
  (∀ o, o ∈ outputs n → f o ∈ I ++ defs bef ++ defs mid) →
  NoDup (mid ≫= deep_defs) →
  (∀ v, v ∈ mid ≫= deep_defs →
     v ∈ blocks n ≫= block_deep_defs ∨ (v = nu ∧ (nu < nu')%positive)) →
  ssa_nodes I (map_uses f <$> (bef ++ mid ++ ns)) (f <$> outs) nu'.
Proof.
  intros [Hc Hnd Hfr] Hle Hf Hmid Hout Hmnd Hmin.
  rewrite bind_app, bind_cons, deep_defs_unfold in Hnd, Hfr.
  apply closed_nodes_app in Hc as [Hcb Hc]. cbn [closed_nodes] in Hc.
  destruct Hc as [Hcn Hcs].
  assert (Hfresh : ∀ v, v ∈ outputs n → (v < nu)%positive).
  { intros v Hv. rewrite Forall_forall in Hfr. apply (Hfr v). set_solver. }
  assert (HI : ∀ v, v ∈ I → v ∉ outputs n).
  { intros v Hv Hv'. rewrite NoDup_app in Hnd. destruct Hnd as (_ & Hd & _).
    apply (Hd v Hv). set_solver. }
  assert (Hb : ∀ v, v ∈ bef ≫= deep_defs → v ∉ outputs n).
  { intros v Hv Hv'. rewrite !NoDup_app in Hnd. destruct Hnd as (_ & _ & _ & Hd & _).
    apply (Hd v Hv). set_solver. }
  assert (Hnn : ∀ v, v ∈ blocks n ≫= block_deep_defs → v ∉ outputs n).
  { intros v Hv Hv'. rewrite !NoDup_app in Hnd.
    destruct Hnd as (_ & _ & _ & _ & (_ & Hd & _) & _). by apply (Hd v Hv'). }
  assert (Hs : ∀ v, v ∈ ns ≫= deep_defs → v ∉ outputs n).
  { intros v Hv Hv'. rewrite !NoDup_app in Hnd.
    destruct Hnd as (_ & _ & _ & _ & _ & Hd & _). apply (Hd v); [|done]. set_solver. }
  assert (Hm : ∀ v, v ∈ mid ≫= deep_defs → v ∉ outputs n).
  { intros v Hv Hv'. destruct (Hmin v Hv) as [?|[-> _]]; [by apply (Hnn v)|].
    specialize (Hfresh _ Hv'). lia. }
  assert (HA : ∀ v, v ∈ I ++ defs bef → v ∉ outputs n).
  { intros v [?|?%defs_deep]%elem_of_app; auto. }
  split.
  - rewrite !fmap_app. apply closed_nodes_app. split.
    { change [] with (f <$> @nil Value). eapply closed_nodes_subst; [exact Hcb| |].
      - intros v Hv. rewrite Hf; auto.
      - intros v Hv. apply Hf; auto. }
    rewrite defs_map_uses_list. apply closed_nodes_app. split.
    { change [] with (f <$> @nil Value). eapply closed_nodes_subst; [exact Hmid| |].
      - intros v Hv. rewrite Hf; auto.
      - intros v Hv. apply Hf; auto. }
    rewrite defs_map_uses_list. eapply closed_nodes_subst; [exact Hcs| |].
    + intros v [Hv|Hv]%elem_of_app.
      * rewrite Hf by auto. apply elem_of_app. by left.
      * rewrite <- (assoc_L (++)). by apply Hout.
    + intros v Hv. apply Hf; auto.
  - rewrite deep_defs_map_uses_list, !bind_app.
    rewrite (assoc_L (++)) in Hnd |- *.
    eapply NoDup_middle; [exact Hnd|done|].
    intros v Hv. destruct (Hmin v Hv) as [?|[-> _]]; [left; set_solver|right].
    rewrite Forall_forall in Hfr. split; intros Hv'.
    + assert (nu < nu)%positive; [|lia]. apply (Hfr nu). set_solver.
    + assert (nu < nu)%positive; [|lia]. apply (Hfr nu). set_solver.
  - rewrite deep_defs_map_uses_list, !bind_app.
    rewrite !Forall_app in Hfr |- *. destruct Hfr as (H1 & H2 & H3 & H4).
    split_and!.
    + eapply Forall_impl; [exact H1|]. cbn. lia.
    + eapply Forall_impl; [exact H2|]. cbn. lia.
    + apply Forall_forall. intros v Hv. destruct (Hmin v Hv) as [Hn|[-> ?]]; [|done].
      rewrite Forall_app, !Forall_forall in H3. destruct H3 as [_ H3].
      specialize (H3 v Hn). cbn in H3. lia.
    + eapply Forall_impl; [exact H4|]. cbn. lia.
Qed.

Lemma closed_node_input A n i v :
  closed_node A n → inputs n !! i = Some v → v ∈ A.
Proof.
  rewrite closed_node_unfold. intros [Hins _] Hv. rewrite Forall_forall in Hins.
  apply Hins. by eapply list_elem_of_lookup_2.
Qed.

Lemma visited_ssa I c n ns c' :
  pending c = n :: ns → visited c n ns c' →
  ssa_nodes I (before c ++ pending c) (block_outs c) (next_unique c) →
  ssa_nodes I (before c' ++ pending c') (block_outs c') (next_unique c').
Proof.
  intros Hp Hv Hssa. rewrite Hp in Hssa.
  assert (Hcn : closed_node (I ++ defs (before c)) n).
  { destruct Hssa as [Hc _ _]. apply closed_nodes_app in Hc as [_ Hc]. by destruct Hc. }
  assert (Hkept : ∀ st',
    ssa_nodes I (before (moved_on c n ns st') ++ pending (moved_on c n ns st'))
      (block_outs (moved_on c n ns st')) (next_unique (moved_on c n ns st'))).
  { intros st'. unfold moved_on. cbn [before pending block_outs next_unique].
    by rewrite <- (assoc_L (++)). }
  destruct Hv; try apply Hkept; cbn [before pending block_outs next_unique].
  - change (mkNode (next_node c) prim_AutogradZero [] [next_unique c] []
            :: (map_uses (redirect (outputs n) (next_unique c)) <$> ns))
      with (map_uses (redirect (outputs n) (next_unique c)) <$>
              ([mkNode (next_node c) prim_AutogradZero [] [next_unique c] []] ++ ns)).
    rewrite <- fmap_app. eapply ssa_rewrite; [exact Hssa|lia|..].
    + intros v Hv. unfold redirect. by rewrite decide_False.
    + cbn. split_and!; constructor.
    + intros o Ho. unfold redirect. rewrite decide_True by done. cbn. set_solver.
    + cbn. apply NoDup_singleton.
    + cbn. intros v ->%list_elem_of_singleton. right. split; [done|lia].
  - rewrite <- fmap_app, <- (assoc_L (++)).
    assert (Hbody : closed_nodes (I ++ defs (before c)) (block_nodes body) (block_outputs body)).
    { apply closed_block_unfold. apply closed_node_unfold in Hcn as [_ Hbs].
      rewrite Forall_forall in Hbs. apply Hbs. by eapply list_elem_of_lookup_2. }
    eapply ssa_rewrite; [exact Hssa|lia|done|..].
    + by eapply closed_nodes_no_outs.
    + intros o Ho. apply closed_nodes_outs in Hbody. rewrite Forall_forall in Hbody.
      rewrite (assoc_L (++)). apply Hbody. auto.
    + destruct Hssa as [_ Hnd _]. rewrite bind_app, bind_cons, deep_defs_unfold in Hnd.
      rewrite !NoDup_app in Hnd. destruct Hnd as (_ & _ & _ & _ & (_ & _ & Hnd) & _).
      destruct (blocks n) as [|b bs]; simplify_eq/=.
      apply NoDup_app in Hnd as [Hnd _]. by rewrite block_deep_defs_unfold in Hnd.
    + intros v Hv. left. apply list_elem_of_bind. exists body.
      rewrite block_deep_defs_unfold. split; [done|]. by eapply list_elem_of_lookup_2.
  - rewrite <- fmap_app. eapply (ssa_rewrite _ _ _ _ _ _ _ []); [exact Hssa|lia|..].
    + intros v Hv. apply subst_value_other.
      match goal with Ho : outputs n = [_] |- _ => rewrite Ho in Hv end. set_solver.
    + constructor.
    + intros o' Ho'.
      match goal with Ho : outputs n = [_] |- _ => rewrite Ho in Ho' end.
      apply list_elem_of_singleton in Ho' as ->. unfold subst_value.
      rewrite decide_True by done. cbn. rewrite app_nil_r.
      by eapply closed_node_input.
    + constructor.
    + cbn. set_solver.
  - rewrite <- fmap_app. eapply (ssa_rewrite _ _ _ _ _ _ _ []); [exact Hssa|lia|..].
    + intros v Hv. apply subst_value_other.
      match goal with Ho : outputs n = [_] |- _ => rewrite Ho in Hv end. set_solver.
    + constructor.
    + intros o' Ho'.
      match goal with Ho : outputs n = [_] |- _ => rewrite Ho in Ho' end.
      apply list_elem_of_singleton in Ho' as ->. unfold subst_value.
      rewrite decide_True by done. cbn. rewrite app_nil_r.
      by eapply closed_node_input.
    + constructor.
    + cbn. set_solver.
  - rewrite <- fmap_app, <- (assoc_L (++)).
    eapply ssa_rewrite; [exact Hssa|lia|..].
    + intros v Hv. apply subst_value_other.
      match goal with Ho : outputs n = [_] |- _ => rewrite Ho in Hv end. set_solver.
    + cbn. split_and!; try constructor.
      * by eapply closed_node_input.
      * constructor; [|constructor]. by eapply closed_node_input.
    + intros o' Ho'.
      match goal with Ho : outputs n = [_] |- _ => rewrite Ho in Ho' end.
      apply list_elem_of_singleton in Ho' as ->. unfold subst_value.
      rewrite decide_True by done. cbn. set_solver.
    + cbn. apply NoDup_singleton.
    + cbn. intros v ->%list_elem_of_singleton. right. split; [done|lia].
Qed.

Lemma reached_ssa g c :
  ssa g → reached g c →
  ssa_nodes (g_inputs g) (before c ++ pending c) (block_outs c) (next_unique c).
Proof.
  intros Hssa Hr. revert c Hr.
  apply (reached_invariant g (λ c,
    ssa_nodes (g_inputs g) (before c ++ pending c) (block_outs c) (next_unique c))).
  - exact Hssa.
  - intros c n ns c' _ IH Hp Hv. by eapply visited_ssa.
Qed.

(** X12: static single assignment is kept: when the uses of a graph are in scope
    (each node uses graph inputs and outputs of nodes that stand before it,
    in its own block or in an enclosing one, and each block designates
    values in scope at its end), and the graph inputs and the values its
    nodes define are distinct values the graph has numbered, then the same
    holds of the graph a run that ends normally leaves. *)
Theorem scoping_kept (g g' : Graph) :
  ssa g →
  specializeAutogradZero g = Done g' →
  ssa g'.
Proof.
  intros Hssa (c & Hr & Hp & ->)%pass_Done_reached.
  by apply (reached_ssa g c).
Qed.

(** X13: the seeding stands: on a graph in static single assignment form the
    scan never overwrites the classification of a graph input; at every
    point of the scan each graph input is classified as the loop of lines
    17-32 classified it by its type. *)
Theorem inputs_keep_seed (g : Graph) c v :
  ssa g → reached g c → v ∈ g_inputs g →
  state c !! v = Some (seed_state (g_type g v)).
Proof.
  intros Hssa Hr Hv. revert c Hr.
  apply (reached_invariant g (λ c, state c !! v = Some (seed_state (g_type g v)))).
  { cbn. by apply seed_input. }
  intros c n ns c' Hr IH Hp Hvis.
  pose proof (reached_ssa g c Hssa Hr) as [_ Hnd Hfr]. rewrite Hp in Hnd, Hfr.
  rewrite bind_app, bind_cons, deep_defs_unfold in Hnd.
  assert (Hout : v ∉ outputs n).
  { intros Hv'. rewrite NoDup_app in Hnd. destruct Hnd as (_ & Hd & _).
    apply (Hd v Hv). set_solver. }
  assert (Hnu : v ≠ next_unique c).
  { intros ->. rewrite Forall_forall in Hfr.
    assert (next_unique c < next_unique c)%positive; [|lia].
    apply (Hfr (next_unique c)). set_solver. }
  assert (Hreads : ∀ vs st', reads_only vs (state c) st' →
            st' !! v = Some (seed_state (g_type g v))).
  { intros vs st' Hro. destruct (Hro v) as [->|(_ & E & _)]; congruence. }
  destruct Hvis; cbn [state moved_on]; try done; try (by eapply Hreads).
  - rewrite lookup_insert_ne by done. by eapply Hreads.
  - rewrite lookup_insert_ne; [by eapply Hreads|].
    match goal with Ho : outputs n = [_] |- _ => rewrite Ho in Hout end. set_solver.
  - rewrite lookup_insert_ne; [done|].
    match goal with Ho : outputs n = [_] |- _ => rewrite Ho in Hout end. set_solver.
  - rewrite fold_Unknown_lookup. by rewrite decide_False.
Qed.

(** *** Graphs whose inputs are all known *)

Lemma reached_all_known g c :
  Forall (λ v, seed_state (g_type g v) ≠ Unknown) (g_inputs g) →
  Forall (λ n, (kind n = prim_GradOf ∨ kind n = prim_AutogradAdd ∨
                kind n = prim_AutogradZero) ∧ plain_body n) (block_nodes (g_block g)) →
  reached g c →
  (∀ v, class_of (state c) v ≠ Unknown) ∧
  Forall (λ m, kind m ≠ prim_GradOf ∧ kind m ≠ prim_AutogradAdd) (before c) ∧
  Forall (λ n, (kind n = prim_GradOf ∨ kind n = prim_AutogradAdd ∨
                kind n = prim_AutogradZero) ∧ plain_body n) (pending c).
Proof.
  intros Hseed Hkinds Hr. revert c Hr.
  apply (reached_invariant g (λ c,
    (∀ v, class_of (state c) v ≠ Unknown) ∧
    Forall (λ m, kind m ≠ prim_GradOf ∧ kind m ≠ prim_AutogradAdd) (before c) ∧
    Forall (λ n, (kind n = prim_GradOf ∨ kind n = prim_AutogradAdd ∨
                  kind n = prim_AutogradZero) ∧ plain_body n) (pending c))).
  { split_and!; [|constructor|done]. intros v. rewrite class_of_lookup. cbn.
    destruct (decide (v ∈ g_inputs g)) as [Hin|Hin].
    - rewrite seed_input by done. cbn. rewrite Forall_forall in Hseed. by apply Hseed.
    - rewrite seed_other, lookup_empty by done. done. }
  intros c n ns c' _ (Hst & Hb & Hpd) Hp Hv. rewrite Hp in Hpd.
  apply Forall_cons in Hpd as [[Hkn Hbody] Hns].
  assert (Hmapb : ∀ f l,
    Forall (λ m, kind m ≠ prim_GradOf ∧ kind m ≠ prim_AutogradAdd) l →
    Forall (λ m, kind m ≠ prim_GradOf ∧ kind m ≠ prim_AutogradAdd) (map_uses f <$> l)).
  { intros f l Hl. apply Forall_fmap. eapply Forall_impl; [exact Hl|].
    intros m. cbn. by rewrite kind_map_uses. }
  assert (Hmapp : ∀ f,
    Forall (λ n, (kind n = prim_GradOf ∨ kind n = prim_AutogradAdd ∨
                  kind n = prim_AutogradZero) ∧ plain_body n) (map_uses f <$> ns)).
  { intros f. apply Forall_fmap. eapply Forall_impl; [exact Hns|].
    intros m [? ?]. cbn. rewrite kind_map_uses. split; [done|]. by apply plain_body_map_uses. }
  assert (Hreads : ∀ vs st', reads_only vs (state c) st' → ∀ v, class_of st' v ≠ Unknown).
  { intros vs st' Hro v. by rewrite (reads_only_class vs (state c) st' v Hro). }
  destruct Hv; cbn [state before pending moved_on]; split_and!;
    try done; try (by apply Hmapb); try (by eapply Hreads).
  - constructor; [|done]. split; [auto|]. by intros ?.
  - apply Hmapb. apply Forall_app. split; [done|].
    eapply Forall_impl; [by apply Hbody|]. intros m (? & ? & _). done.
  - intros v. rewrite class_of_insert. case_decide; [done|]. by eapply Hreads.
  - apply Hmapb. apply Forall_app. split; [done|].
    apply Forall_cons. split; [|constructor]. done.
  - exfalso.
    match goal with Ha : class_of (state c) a ≠ Zero, Hb : class_of (state c) b ≠ Zero,
      Hab : ¬ _ |- _ =>
      apply Hab; pose proof (Hst a); pose proof (Hst b);
      split; [by destruct (class_of (state c) a)|by destruct (class_of (state c) b)] end.
  - exfalso.
    match goal with Ha : class_of (state c) a ≠ Zero, Hb : class_of (state c) b ≠ Zero,
      Hab : ¬ _ |- _ =>
      apply Hab; pose proof (Hst a); pose proof (Hst b);
      split; [by destruct (class_of (state c) a)|by destruct (class_of (state c) b)] end.
  - intros v. rewrite class_of_insert. by case_decide.
  - apply Forall_app. split; [done|]. apply Forall_cons. split; [|constructor].
    match goal with Hk : kind n = prim_AutogradZero |- _ => rewrite Hk end. done.
  - match goal with Hpl : plain n |- _ => destruct Hpl as (? & ? & ?) end. naive_solver.
  - match goal with Hpl : plain n |- _ => destruct Hpl as (? & ? & ?) end. naive_solver.
Qed.

(** X14: with every input known, everything is specialized: when no graph input
    is seeded [Unknown], the nodes of the primary block are
    [prim::GradOf], [prim::AutogradAdd] and [prim::AutogradZero] nodes of
    the shape of their kind, and the bodies of the regions hold none of
    these, the pass ends normally, the assertion does not fail, and the
    primary block it leaves holds no [prim::GradOf] and no
    [prim::AutogradAdd] node. *)
Theorem known_inputs_specialize_all (g : Graph) :
  Forall (λ v, seed_state (g_type g v) ≠ Unknown) (g_inputs g) →
  Forall (λ n, well_shaped n) (block_nodes (g_block g)) →
  Forall (λ n, (kind n = prim_GradOf ∨ kind n = prim_AutogradAdd ∨
                kind n = prim_AutogradZero) ∧ plain_body n) (block_nodes (g_block g)) →
  ∃ g', specializeAutogradZero g = Done g' ∧
    Forall (λ m, kind m ≠ prim_GradOf ∧ kind m ≠ prim_AutogradAdd)
           (block_nodes (g_block g')).
Proof.
  intros Hseed Hws Hkinds. unfold specializeAutogradZero.
  destruct (scan_outcome g (2 * length (block_nodes (g_block g))) (start g))
    as [(c' & -> & Hp & Hr)|(c1 & n & ns & st' & Hr & Hp & Hk & Hz & Hu & _)].
  - constructor.
  - apply iterations_left_bound.
  - done.
  - eexists. split; [done|]. rewrite graph_of_nodes by done.
    by apply (reached_all_known g c' Hseed Hkinds Hr).
  - exfalso. apply Hu. apply Forall_forall. intros v _.
    by apply (reached_all_known g c1 Hseed Hkinds Hr).
Qed.

(** *** Instances on the example graphs, continued *)

Section More_instances.
Local Open Scope positive_scope.

Lemma other_kinds_marked_Unknown_witness :
  ∃ st', step (start plain_graph)
         = Done (moved_on (start plain_graph) (user_of 1 2 12) [zero_literal] st') ∧
         st' !! 12 = Some Unknown.
Proof.
  destruct (other_kinds_marked_Unknown (start plain_graph) (user_of 1 2 12) [zero_literal])
    as (st' & H & Ho & _).
  - reflexivity.
  - split_and!; discriminate.
  - exists st'. split; [exact H|]. apply Ho. by_compute.
Defined.

Lemma collapsed_region_reads_Zero_witness :
  ∃ c1, step (start zero_region_graph) = Done c1 ∧
    step c1 = Done
      {| before := [mkNode 10 prim_AutogradZero [] [20] []];
         pending := [user_of 3 20 12];
         block_outs := [12; 20]; next_unique := 21; next_node := 11;
         state := <[20 := Zero]> (state (start zero_region_graph)) |}.
Proof.
  destruct (collapsed_region_reads_Zero (start zero_region_graph) zero_region
              [user_of 3 10 12]) as (c1 & H1 & H2 & _).
  - reflexivity.
  - reflexivity.
  - by_compute.
  - exists c1. split; [exact H1|exact H2].
Defined.

Lemma region_without_body_witness :
  ∃ st', step (start bodiless_region_graph)
         = Aborted BadAccess (set_state st' (start bodiless_region_graph)).
Proof.
  destruct (region_without_body (start bodiless_region_graph) bodiless_region [])
    as (st' & H & _).
  - reflexivity.
  - reflexivity.
  - by_compute.
  - reflexivity.
  - exists st'. exact H.
Defined.

Lemma region_with_few_body_outputs_witness :
  ∃ c' f, step (start short_region_graph) = Aborted BadAccess c' ∧
    before c' = map_uses f <$> [neg_in_body] ∧
    pending c' = map_uses f <$> [without_body_nodes short_region].
Proof.
  apply (region_with_few_body_outputs (start short_region_graph) short_region []
           (mkBlock [neg_in_body] [11])).
  - reflexivity.
  - reflexivity.
  - by_compute.
  - by_compute.
  - reflexivity.
  - vm_compute. lia.
Defined.

Lemma promotion_without_single_output_witness :
  ∃ st', step (start add_two_outputs_graph) = Aborted BadAccess
    {| before := [mkNode 10 aten_add [2; 2] [20] []];
       pending := [add_two_outputs];
       block_outs := [10]; next_unique := 21; next_node := 11;
       state := <[20 := Nonzero]> st' |}.
Proof.
  destruct (promotion_without_single_output (start add_two_outputs_graph)
              add_two_outputs [] 2 2) as (st' & _ & H).
  - reflexivity.
  - reflexivity.
  - reflexivity.
  - reflexivity.
  - vm_compute. reflexivity.
  - vm_compute. reflexivity.
  - vm_compute. lia.
  - exists st'. exact H.
Defined.

Lemma nothing_to_specialize_witness :
  specializeAutogradZero plain_graph = Done plain_graph.
Proof.
  apply (nothing_to_specialize plain_graph).
  apply Forall_cons. split.
  - left. split_and!; discriminate.
  - apply Forall_cons. split; [|constructor]. right. split; [reflexivity|].
    exists 13. reflexivity.
Defined.

Lemma live_region_graph_run :
  specializeAutogradZero live_region_graph = Done live_region_result.
Proof. vm_compute. reflexivity. Defined.

Lemma no_region_left_witness :
  Forall (λ m, kind m ≠ prim_GradOf) (block_nodes (g_block live_region_result)).
Proof.
  apply (no_region_left live_region_graph live_region_result).
  - apply Forall_cons. split.
    + intros _ body [= <-]. apply Forall_cons. split; [discriminate|constructor].
    + apply Forall_cons. split; [|constructor]. intros Hk. discriminate.
  - exact live_region_graph_run.
Defined.

Lemma nodes_originate_witness :
  Forall (originates live_region_graph) (block_nodes (g_block live_region_result)).
Proof.
  apply (nodes_originate live_region_graph live_region_result).
  exact live_region_graph_run.
Defined.

Lemma addresses_stay_distinct_witness : ids_ok (start live_region_result).
Proof.
  apply (addresses_stay_distinct live_region_graph live_region_result).
  - apply example_ids_ok; vm_compute; reflexivity.
  - exact live_region_graph_run.
Defined.

Lemma knowledge_has_a_source_witness :
  (state scan_after_splice !! 3 = Some Zero →
     (3 ∈ g_inputs live_region_graph ∧ seed_state (g_type live_region_graph 3) = Zero) ∨
     (∃ m, m ∈ before scan_after_splice ∧ 3 ∈ outputs m ∧ kind m = prim_AutogradZero)) ∧
  (state scan_after_splice !! 3 = Some Unknown →
     (3 ∈ g_inputs live_region_graph ∧ seed_state (g_type live_region_graph 3) = Unknown) ∨
     (∃ m, m ∈ before scan_after_splice ∧ 3 ∈ outputs m ∧
        kind m ≠ prim_GradOf ∧ kind m ≠ prim_AutogradZero)).
Proof.
  apply (knowledge_has_a_source live_region_graph scan_after_splice 3).
  eapply (reached_visit _ (start live_region_graph) live_region [add_of 3 10 2 12]).
  - constructor.
  - reflexivity.
  - vm_compute. reflexivity.
Defined.

Lemma live_region_graph_ssa : ssa live_region_graph.
Proof.
  split.
  - cbn. split_and!; repeat (apply Forall_cons; split); try apply Forall_nil_2;
      try exact I; by_compute.
  - by_compute.
  - by_compute.
Defined.

Lemma scoping_kept_witness : ssa live_region_result.
Proof.
  apply (scoping_kept live_region_graph live_region_result).
  - exact live_region_graph_ssa.
  - exact live_region_graph_run.
Defined.

Lemma inputs_keep_seed_witness :
  state scan_after_splice !! 1 = Some (seed_state (g_type live_region_graph 1)).
Proof.
  apply (inputs_keep_seed live_region_graph scan_after_splice 1).
  - exact live_region_graph_ssa.
  - eapply (reached_visit _ (start live_region_graph) live_region [add_of 3 10 2 12]).
    + constructor.
    + reflexivity.
    + vm_compute. reflexivity.
  - by_compute.
Defined.

Lemma known_inputs_specialize_all_witness :
  ∃ g', specializeAutogradZero known_graph = Done g' ∧
    Forall (λ m, kind m ≠ prim_GradOf ∧ kind m ≠ prim_AutogradAdd)
           (block_nodes (g_block g')).
Proof.
  apply (known_inputs_specialize_all known_graph).
  - apply Forall_cons. split; [vm_compute; discriminate|].
    apply Forall_cons. split; [vm_compute; discriminate|constructor].
  - by_compute.
  - apply Forall_cons. split.
    + split; [left; reflexivity|]. intros _ body [= <-].
      apply Forall_cons. split; [split_and!; discriminate|constructor].
    + apply Forall_cons. split; [|constructor].
      split; [right; left; reflexivity|]. intros Hk. discriminate.
Defined.

End More_instances.
